(** * jsparagus: grammar model, ECMArkup desugarer and Rust emitter checks

    A shallow embedding of the parts of [jsparagus/grammar.py],
    [js_parser/parse_esgrammar.py] and [jsparagus/emit.py] that carry the
    grammar data model, its validation, the lookahead algebra, the
    default-reducer and ASI desugaring, the final grammar assembly, the
    camel-case collision check of the Rust backend, and the printers and
    naming helpers around them. *)

From Stdlib Require Import ZArith Lia Bool Ascii String.
From stdpp Require Import base decidable option list strings pretty gmap sets.

Set Default Proof Using "Type".
Open Scope string_scope.

(** ** Python exceptions and the error monad

    Every function of the source that can [raise] returns a [Result]; the
    exception carries its Python class and the constant head of its message. *)

Inductive PyExc : Type :=
| ValueError (msg : string)
| TypeError (msg : string)
| KeyError (msg : string)
| AttributeError (msg : string)
| AssertionError (msg : string)
| StopIteration.

Inductive Result (A : Type) : Type :=
| Ok (a : A)
| Raise (e : PyExc).
Arguments Ok {A} a.
Arguments Raise {A} e.

#[global] Instance Result_ret : MRet Result := λ A a, Ok a.
#[global] Instance Result_bind : MBind Result := λ A B f m,
  match m with
  | Ok a => f a
  | Raise e => Raise e
  end.

Definition is_ok {A} (m : Result A) : bool :=
  match m with Ok _ => true | Raise _ => false end.

Definition raises {A} (m : Result A) : Prop := ∃ e, m = Raise e.

(** [for x in xs: f(x)] where [f] may raise and its value is collected. *)
Fixpoint mapM {A B} (f : A → Result B) (xs : list A) : Result (list B) :=
  match xs with
  | [] => Ok []
  | x :: xs' => y ← f x; ys ← mapM f xs'; Ok (y :: ys)
  end.

(** [for x in xs: st = f(st, x)] with early exit on an exception. *)
Fixpoint foldM {A S} (f : S → A → Result S) (st : S) (xs : list A) : Result S :=
  match xs with
  | [] => Ok st
  | x :: xs' => st' ← f st x; foldM f st' xs'
  end.

(** ** Python built-ins used by the source

    Strings are sequences of 8-bit characters; the character classes below
    are the ASCII ones, so [str.isidentifier], [str.lower] and friends are
    modelled on ASCII text (grammar symbol names are ASCII). *)

Module Py.

Definition chr_in (lo hi c : ascii) : bool :=
  (nat_of_ascii lo <=? nat_of_ascii c)%nat && (nat_of_ascii c <=? nat_of_ascii hi)%nat.

Definition is_upper (c : ascii) : bool := chr_in "A" "Z" c.
Definition is_lower (c : ascii) : bool := chr_in "a" "z" c.
Definition is_digit (c : ascii) : bool := chr_in "0" "9" c.
Definition is_alpha (c : ascii) : bool := is_upper c || is_lower c.
Definition is_underscore (c : ascii) : bool := Ascii.eqb c "_".
Definition newline : ascii := ascii_of_nat 10.

Definition chr_lower (c : ascii) : ascii :=
  if is_upper c then ascii_of_nat (nat_of_ascii c + 32) else c.
Definition chr_upper (c : ascii) : ascii :=
  if is_lower c then ascii_of_nat (nat_of_ascii c - 32) else c.

Definition chars (s : string) : list ascii := list_ascii_of_string s.
Definition str (l : list ascii) : string := string_of_list_ascii l.

(** [s.isidentifier()] *)
Definition isidentifier (s : string) : bool :=
  match chars s with
  | [] => false
  | c :: rest =>
      (is_alpha c || is_underscore c)
      && forallb (λ d, is_alpha d || is_digit d || is_underscore d) rest
  end.

(** [s.isdigit()] *)
Definition isdigit (s : string) : bool :=
  match chars s with
  | [] => false
  | l => forallb is_digit l
  end.

(** [s.isalpha()] *)
Definition isalpha (s : string) : bool :=
  match chars s with
  | [] => false
  | l => forallb is_alpha l
  end.

(** [s.islower()]: at least one cased character and no upper-case one. *)
Definition islower (s : string) : bool :=
  existsb is_lower (chars s) && negb (existsb is_upper (chars s)).

(** [s.lower()] *)
Definition lower (s : string) : string := str (map chr_lower (chars s)).

(** [s.capitalize()]: first character upper-cased, the rest lower-cased. *)
Definition capitalize (s : string) : string :=
  match chars s with
  | [] => ""
  | c :: rest => str (chr_upper c :: map chr_lower rest)
  end.

(** [s.partition(' ')] *)
Fixpoint partition_chars (l : list ascii) : list ascii * list ascii * list ascii :=
  match l with
  | [] => ([], [], [])
  | c :: rest =>
      if Ascii.eqb c " " then ([], [c], rest)
      else let '(a, sp, b) := partition_chars rest in (c :: a, sp, b)
  end.

Definition partition_space (s : string) : string * string * string :=
  let '(a, sp, b) := partition_chars (chars s) in (str a, str sp, str b).

(** [s.split('_')] *)
Fixpoint split_chars (sep : ascii) (cur : list ascii) (l : list ascii)
  : list (list ascii) :=
  match l with
  | [] => [rev cur]
  | c :: rest =>
      if Ascii.eqb c sep then rev cur :: split_chars sep [] rest
      else split_chars sep (c :: cur) rest
  end.

Definition split (sep : ascii) (s : string) : list string :=
  map str (split_chars sep [] (chars s)).

(** [''.join(words)] *)
Definition join (words : list string) : string :=
  fold_right String.append "" words.

(** [c in s] for a one-character [c]. *)
Definition contains_chr (c : ascii) (s : string) : bool :=
  existsb (Ascii.eqb c) (chars s).

(** [s.endswith(suf)] *)
Definition endswith (suf s : string) : bool :=
  let n := String.length s in
  let k := String.length suf in
  (k <=? n)%nat && String.eqb (substring (n - k) k s) suf.

(** [str(n)] for a non-negative integer. *)
Definition str_of_nat (n : nat) : string := pretty n.

(** [sep.join(words)] *)
Fixpoint join_sep (sep : string) (words : list string) : string :=
  match words with
  | [] => ""
  | [w] => w
  | w :: rest => w +:+ sep +:+ join_sep sep rest
  end.

(** [s.replace(a, b)] for a one-character [a]. *)
Definition replace (a : ascii) (b : string) (s : string) : string :=
  str (concat (map (λ c, if Ascii.eqb c a then chars b else [c]) (chars s))).









(** An insertion-ordered [dict] as an association list with unique keys:
    [d[k] = v] overwrites in place or appends, [k in d] and [d[k]] look
    the key up. *)
Section Dict.
Context {K V : Type} `{EqDecision K}.

Fixpoint dict_get (d : list (K * V)) (k : K) : option V :=
  match d with
  | [] => None
  | (k', v) :: d' => if decide (k' = k) then Some v else dict_get d' k
  end.

Definition dict_mem (d : list (K * V)) (k : K) : bool :=
  match dict_get d k with Some _ => true | None => false end.

Fixpoint dict_set (d : list (K * V)) (k : K) (v : V) : list (K * V) :=
  match d with
  | [] => [(k, v)]
  | (k', v') :: d' =>
      if decide (k' = k) then (k', v) :: d' else (k', v') :: dict_set d' k v
  end.

Definition dict_keys (d : list (K * V)) : list K := map fst d.
End Dict.

End Py.

(** ** grammar.py: the data model *)

Module grammar.

(** [Var = namedtuple("Var", "name")]; an argument of an [Nt] is a boolean
    or a [Var]. *)
Inductive ArgValue : Type :=
| ArgBool (b : bool)
| ArgVar (name : string).

(** [class Nt] with [name : str | InitNt] and [args], and
    [InitNt = namedtuple("InitNt", "goal")] whose goal is an [Nt]. *)
Inductive Nt : Type :=
| mkNt (name : NtName) (args : list (string * ArgValue))
with NtName : Type :=
| NameStr (s : string)
| InitNt (goal : Nt).

Definition nt_name (nt : Nt) : NtName := let 'mkNt n _ := nt in n.
Definition nt_args (nt : Nt) : list (string * ArgValue) := let 'mkNt _ a := nt in a.

#[global] Instance ArgValue_eq_dec : EqDecision ArgValue.
Proof. solve_decision. Defined.

(** [Nt.__eq__]: names and argument tuples are compared structurally. *)
Fixpoint Nt_eq_dec (a b : Nt) {struct a} : {a = b} + {a ≠ b}
with NtName_eq_dec (a b : NtName) {struct a} : {a = b} + {a ≠ b}.
Proof.
  - destruct a as [n1 a1], b as [n2 a2].
    destruct (NtName_eq_dec n1 n2) as [->|Hn]; [|right; congruence].
    destruct (decide (a1 = a2)) as [->|Ha]; [left; reflexivity|right; congruence].
  - destruct a as [s1|g1], b as [s2|g2]; try (right; congruence).
    + destruct (decide (s1 = s2)) as [->|Hs]; [left; reflexivity|right; congruence].
    + destruct (Nt_eq_dec g1 g2) as [->|Hg]; [left; reflexivity|right; congruence].
Defined.

#[global] Instance Nt_EqDecision : EqDecision Nt := Nt_eq_dec.
#[global] Instance NtName_EqDecision : EqDecision NtName := NtName_eq_dec.

(** [LookaheadRule = namedtuple("LookaheadRule", "set positive")].  The
    token set is an [OrderedFrozenSet]; its operators [&], [-], [|], [in]
    and [==] are those of a finite set. *)
Record LookaheadRule : Type := mkLookaheadRule {
  la_set : gset string;
  la_positive : bool
}.

#[global] Instance LookaheadRule_eq_dec : EqDecision LookaheadRule.
Proof. solve_decision. Defined.

(** Elements of a production body.  [ErrorSymbol] is the recovery marker
    that parse_esgrammar.py builds; [EOther] stands for any other object
    ([Exclude], [Literal], the no-LineTerminator-here tuple, ...). *)
Inductive Element : Type :=
| EStr (s : string)
| EOptional (inner : Element)
| ENt (nt : Nt)
| ELookahead (rule : LookaheadRule)
| ErrorToken
| ErrorSymbol (code : string)
| EOther (repr : string).

#[global] Instance Element_eq_dec : EqDecision Element.
Proof. solve_decision. Defined.

(** Reduce expressions: an integer, [CallMethod(method, args)], [None],
    [Some(inner)], and the special action ['accept'].  The induction
    principle through the argument lists is proved with the theorems. *)
#[local] Unset Elimination Schemes.
Inductive Action : Type :=
| AInt (n : Z)
| CallMethod (method : string) (args : list Action)
| ANone
| ASome (inner : Action)
| AAccept.
#[local] Set Elimination Schemes.

(** [is_concrete_element(e)] *)
Definition is_concrete_element (e : Element) : bool :=
  match e with
  | ELookahead _ => false
  | ErrorToken => false
  | _ => true
  end.

(** [sum(1 for e in body if is_concrete_element(e))] *)
Definition concrete_len (body : list Element) : nat :=
  length (filter (λ e, is_concrete_element e = true) body).

(** [tuple(range(nargs))] as reduce expressions. *)
Definition range_args (nargs : nat) : list Action :=
  map (λ k, AInt (Z.of_nat k)) (seq 0 nargs).

(** *** Productions, definitions and keys *)

(** [Action.__eq__]: reduce expressions are compared structurally. *)
Fixpoint Action_eqb (a b : Action) : bool :=
  match a, b with
  | AInt n, AInt m => Z.eqb n m
  | CallMethod f xs, CallMethod g ys =>
      String.eqb f g
      && (fix all2 (xs ys : list Action) : bool :=
            match xs, ys with
            | [], [] => true
            | x :: xs', y :: ys' => Action_eqb x y && all2 xs' ys'
            | _, _ => false
            end) xs ys
  | ANone, ANone => true
  | ASome x, ASome y => Action_eqb x y
  | AAccept, AAccept => true
  | _, _ => false
  end.

(** [class Production]: [body], [action] and [condition]. *)
Record Production : Type := mkProduction {
  body : list Element;
  action : Action;
  condition : option (string * bool)
}.

(** [Production.__eq__] *)
Definition Production_eqb (p q : Production) : bool :=
  bool_decide (body p = body q)
  && Action_eqb (action p) (action q)
  && bool_decide (condition p = condition q).

(** A right-hand side as passed to the constructor: a bare list of symbols
    or a [Production]. *)
Inductive Rhs : Type :=
| RList (symbols : list Element)
| RProduction (p : Production).

(** A value of the raw nonterminals dictionary: a list of right-hand sides
    or an [NtDef] holding one. *)
Inductive RawDef : Type :=
| RawList (rhs_list : list Rhs)
| RawNtDef (params : list string) (rhs_list : list Rhs).

Definition raw_rhs_list (d : RawDef) : list Rhs :=
  match d with RawList l => l | RawNtDef _ l => l end.

(** [class NtDef] after validation: parameters and [Production]s. *)
Record NtDef : Type := mkNtDef {
  params : list string;
  rhs_list : list Production
}.

(** A key of the nonterminals dictionary: a name ([str] or [InitNt]) or an
    [Nt]. *)
Inductive Key : Type :=
| KName (n : NtName)
| KNt (nt : Nt).

#[global] Instance Key_eq_dec : EqDecision Key.
Proof. solve_decision. Defined.

(** A goal: a name or an [Nt]. *)
Inductive Goal : Type :=
| GStr (s : string)
| GNt (nt : Nt).

#[global] Instance Goal_eq_dec : EqDecision Goal.
Proof. solve_decision. Defined.

Definition is_KNt (k : Key) : bool :=
  match k with KNt _ => true | KName _ => false end.

(** [for x in xs: ...] threading the set [all_terminals]. *)
Definition mapS {A B S : Type} (f : A → S → Result (B * S)) :=
  fix go (xs : list A) (s : S) : Result (list B * S) :=
    match xs with
    | [] => Ok ([], s)
    | x :: xs' =>
        '(y, s1) ← f x s;
        '(ys, s2) ← go xs' s1;
        Ok (y :: ys, s2)
    end.

(** [for x in xs: check(x)] *)
Definition forM_ {A : Type} (f : A → Result unit) :=
  fix go (xs : list A) : Result unit :=
    match xs with
    | [] => Ok tt
    | x :: xs' => f x ;; go xs'
    end.

(** *** Grammar.__init__ *)

(** [key.name] and the parameter names the first loop of the constructor
    reads off a key and its value. *)
Definition key_name (key : Key) : NtName :=
  match key with
  | KNt nt => nt_name nt
  | KName n => n
  end.

Definition key_param_names (key : Key) (value : RawDef) : list string :=
  match key with
  | KNt nt => map fst (nt_args nt)
  | KName _ =>
      match value with
      | RawNtDef params _ => params
      | RawList _ => []
      end
  end.

(** The body of the first loop: [nt_params] and [str_to_nt].  The loop runs
    over the keys and reads [nonterminals[key]]; the dictionary is given here
    as its list of items. *)
Definition key_scan_step (keys_are_nt : bool)
           (st : list (NtName * list string) * list (NtName * Nt))
           (item : Key * RawDef)
  : Result (list (NtName * list string) * list (NtName * Nt)) :=
  let '(nt_params, str_to_nt) := st in
  let '(key, value) := item in
  if negb (Bool.eqb (is_KNt key) keys_are_nt) then
    Raise (ValueError "invalid grammar: conflicting key types in nonterminals dict")
  else
    let name := key_name key in
    let param_names := key_param_names key value in
    nt_params ← match Py.dict_get nt_params name with
                | None => Ok (Py.dict_set nt_params name param_names)
                | Some known =>
                    if decide (known = param_names) then Ok nt_params
                    else Raise (ValueError "conflicting parameter name lists for nt")
                end;
    let str_to_nt :=
      if bool_decide (param_names = []) && negb (Py.dict_mem str_to_nt name)
      then Py.dict_set str_to_nt name (mkNt name [])
      else str_to_nt in
    Ok (nt_params, str_to_nt).

(** [check_reduce_action(nt, i, rhs, action)] *)
Definition check_method_name (method : string) : Result unit :=
  if Py.isidentifier method then Ok tt
  else
    let '(name, space, pn) := Py.partition_space method in
    if String.eqb space " " && Py.isidentifier name && Py.isdigit pn then Ok tt
    else Raise (ValueError "invalid grammar: invalid method name")
.

Fixpoint check_reduce_action (rhs_body : list Element) (action : Action) : Result unit :=
  match action with
  | AInt n =>
      if (0 <=? n)%Z && (n <? Z.of_nat (concrete_len rhs_body))%Z then Ok tt
      else Raise (ValueError "invalid grammar: element number out of range")
  | CallMethod method args =>
      check_method_name method ;;
      forM_ (check_reduce_action rhs_body) args
  | ANone => Ok tt
  | ASome inner => check_reduce_action rhs_body inner
  | AAccept => Raise (TypeError "invalid grammar: unrecognized reduce expression")
  end.

(** The default action of a bare list.  For a key that is not a string the
    method ([nt] itself, or [nt] and the index formatted together) is refused
    by [check_reduce_action] at once. *)
Definition default_action (nt : Key) (i : nat) (sole_production : bool)
           (rhs : list Element) : Result Action :=
  let nargs := concrete_len rhs in
  if (length rhs =? 1)%nat && (nargs =? 1)%nat then Ok (AInt 0)
  else
    match nt with
    | KName (NameStr s) =>
        let method := if sole_production then s else s +:+ " " +:+ Py.str_of_nat i in
        Ok (CallMethod method (range_args nargs))
    | _ =>
        if sole_production
        then Raise (TypeError "invalid grammar: method names must be strings")
        else Raise (ValueError "invalid grammar: invalid method name")
    end.

(** The three shapes an init nonterminal may have. *)
Definition init_forms (g : Nt) : list (list Production) :=
  [ [mkProduction [ENt g] AAccept None];
    [mkProduction [EOptional (ENt g)] AAccept None];
    [mkProduction [] AAccept None; mkProduction [ENt g] AAccept None] ].

(** [rhs_list != form]: lists of different lengths differ; otherwise the
    items are compared in order, and comparing a bare list with a
    [Production] reads [other.body] of a list. *)
Fixpoint items_ne (xs : list Rhs) (ys : list Production) : Result bool :=
  match xs, ys with
  | x :: xs', y :: ys' =>
      match x with
      | RList _ => Raise (AttributeError "'list' object has no attribute 'body'")
      | RProduction p => if Production_eqb p y then items_ne xs' ys' else Ok true
      end
  | _, _ => Ok false
  end.

Definition rhs_list_ne (rhs_list : list Rhs) (form : list Production) : Result bool :=
  if (length rhs_list =? length form)%nat then items_ne rhs_list form else Ok true.

(** [a != f1 and a != f2 and ...] *)
Fixpoint differs_from_all (rhs_list : list Rhs) (forms : list (list Production))
  : Result bool :=
  match forms with
  | [] => Ok true
  | form :: rest =>
      ne ← rhs_list_ne rhs_list form;
      if ne : bool then differs_from_all rhs_list rest else Ok false
  end.

Section Validate.
(** The names the local functions of the constructor close over. *)
Variable nonterminals : list (Key * RawDef).
Variable goal_nts : list Goal.
Variable self_variable_terminals : gset string.
Variable keys_are_nt : bool.
Variable nt_params : list (NtName * list string).
Variable str_to_nt : list (NtName * Nt).

Definition check_var_arg (context_params : list string) (pair : string * ArgValue)
  : Result unit :=
  match snd pair with
  | ArgVar v =>
      if bool_decide (v ∈ context_params) then Ok tt
      else Raise (ValueError "invalid grammar: undefined variable")
  | ArgBool _ => Ok tt
  end.

(** The [Nt] branch of [validate_element]. *)
Definition validate_nt_use (e : Nt) (context_params : list string) : Result unit :=
  (if negb (Py.dict_mem nonterminals (KNt e))
      && negb (Py.dict_mem nonterminals (KName (nt_name e)))
   then Raise (ValueError "invalid grammar: unrecognized nonterminal")
   else Ok tt) ;;
  (match Py.dict_get nt_params (nt_name e) with
   | Some expected =>
       if decide (map fst (nt_args e) = expected) then Ok tt
       else Raise (ValueError "invalid grammar: wrong arguments passed")
   | None => Ok tt
   end) ;;
  forM_ (check_var_arg context_params) (nt_args e).

(** [validate_element(nt, i, j, e, context_params)]; [all_terminals] is the
    set it populates.  [self.intern] returns an object equal to its
    argument. *)
Fixpoint validate_element (e : Element) (context_params : list string)
         (all_terminals : gset string) : Result (Element * gset string) :=
  match e with
  | EStr s =>
      match Py.dict_get nt_params (NameStr s) with
      | Some ps =>
          if bool_decide (ps = []) then
            match Py.dict_get str_to_nt (NameStr s) with
            | Some nt => Ok (ENt nt, all_terminals)
            | None => Raise (KeyError s)
            end
          else Raise (ValueError "invalid grammar: missing parameters")
      | None => Ok (EStr s, all_terminals ∪ {[s]})
      end
  | EOptional inner =>
      match inner with
      | EStr _ | ENt _ =>
          '(inner', all_terminals) ← validate_element inner context_params all_terminals;
          Ok (EOptional inner', all_terminals)
      | _ => Raise (TypeError "invalid grammar: unrecognized element")
      end
  | ENt nt =>
      validate_nt_use nt context_params ;;
      Ok (ENt nt, all_terminals)
  | ELookahead _ | ErrorToken => Ok (e, all_terminals)
  | ErrorSymbol _ | EOther _ =>
      Raise (TypeError "invalid grammar: unrecognized element in production")
  end.

Definition copy_rhs (nt : Key) (sole_production : bool) (context_params : list string)
           (entry : nat * Rhs) (all_terminals : gset string)
  : Result (Production * gset string) :=
  let '(i, rhs) := entry in
  rhs ← match rhs with
        | RList symbols =>
            action ← default_action nt i sole_production symbols;
            Ok (mkProduction symbols action None)
        | RProduction p => Ok p
        end;
  (match condition rhs with
   | Some (param, value) =>
       if bool_decide (param ∈ context_params) then Ok tt
       else Raise (TypeError "invalid grammar: undefined parameter")
   | None => Ok tt
   end) ;;
  (if Action_eqb (action rhs) AAccept then Ok tt
   else check_reduce_action (body rhs) (action rhs)) ;;
  '(body', all_terminals) ←
    mapS (λ e, validate_element e context_params) (body rhs) all_terminals;
  Ok (mkProduction body' (action rhs) (condition rhs), all_terminals).

Definition copy_nt_def (nt : Key) (nt_def : RawDef) (all_terminals : gset string)
  : Result (NtDef * gset string) :=
  let params := match nt_def with RawNtDef ps _ => ps | RawList _ => [] end in
  let rhs_list := raw_rhs_list nt_def in
  let sole_production := (length rhs_list =? 1)%nat in
  '(rhs_list, all_terminals) ←
    mapS (copy_rhs nt sole_production params)
         (zip (seq 0 (length rhs_list)) rhs_list) all_terminals;
  Ok (mkNtDef params rhs_list, all_terminals).

Definition check_str_key (nt : string) : Result unit :=
  if negb (Py.isidentifier nt) then
    Raise (ValueError "invalid grammar: nonterminal names must be identifiers")
  else if bool_decide (nt ∈ self_variable_terminals) then
    Raise (TypeError "invalid grammar: both a nonterminal and a variable terminal")
  else Ok tt.

(** The [InitNt] branch of [check_nt_key]; the goal is checked like a use. *)
Definition check_init_key (goal : Nt) (all_terminals : gset string) : Result unit :=
  validate_element (ENt goal) [] all_terminals ;;
  if bool_decide (GNt goal ∈ goal_nts) then Ok tt
  else Raise (TypeError "invalid grammar: nonterminal referenced by InitNt is not in the list of goals").

Definition check_name (name : NtName) (all_terminals : gset string) : Result unit :=
  match name with
  | NameStr s => check_str_key s
  | InitNt goal => check_init_key goal all_terminals
  end.

Definition check_bool_arg (pair : string * ArgValue) : Result unit :=
  match snd pair with
  | ArgBool _ => Ok tt
  | ArgVar _ => Raise (TypeError "invalid grammar: expected tuple((str, bool)) args")
  end.

Definition check_nt_key (nt : Key) (all_terminals : gset string) : Result unit :=
  match nt with
  | KName name => check_name name all_terminals
  | KNt (mkNt name args) =>
      (if keys_are_nt then Ok tt else Raise (AssertionError "keys_are_nt")) ;;
      check_name name all_terminals ;;
      forM_ check_bool_arg args
  end.

Definition validate_nt (item : Key * RawDef) (all_terminals : gset string)
  : Result (Key * NtDef * gset string) :=
  let '(nt, nt_def) := item in
  check_nt_key nt all_terminals ;;
  (match nt with
   | KName (InitNt g) =>
       match nt_def with
       | RawNtDef _ rhs_list =>
           bad ← differs_from_all rhs_list (init_forms g);
           if bad : bool
           then Raise (ValueError "invalid grammar: not one of the expected forms")
           else Ok tt
       | RawList _ =>
           Raise (TypeError "invalid grammar: key must map to value of type NtDef")
       end
   | _ => Ok tt
   end) ;;
  '(d, all_terminals) ← copy_nt_def nt nt_def all_terminals;
  Ok (nt, d, all_terminals).

(** The body of the main loop: [self.nonterminals[nt] = nt_def]. *)
Definition validate_step (st : list (Key * NtDef) * gset string) (item : Key * RawDef)
  : Result (list (Key * NtDef) * gset string) :=
  let '(self_nonterminals, all_terminals) := st in
  '(nt, nt_def, all_terminals) ← validate_nt item all_terminals;
  Ok (Py.dict_set self_nonterminals nt nt_def, all_terminals).

(** The goal as an [Nt], or the [ValueError] for an undefined goal. *)
Definition resolve_goal (goal : Goal) : Result Nt :=
  match goal with
  | GStr s =>
      match Py.dict_get str_to_nt (NameStr s) with
      | Some nt => Ok nt
      | None => Raise (ValueError "goal nonterminal is undefined")
      end
  | GNt nt =>
      if (if keys_are_nt then Py.dict_mem nonterminals (KNt nt)
          else Py.dict_mem nonterminals (KName (nt_name nt)))
      then Ok nt
      else Raise (ValueError "goal nonterminal is undefined")
  end.

(** The key under which the init nonterminal of [goal] is stored. *)
Definition init_key (goal : Nt) : Key :=
  if keys_are_nt then KNt (mkNt (InitNt goal) []) else KName (InitNt goal).

(** The body of the loop that synthesizes the init nonterminals. *)
Definition init_step (st : list (Key * NtDef) * list Nt) (goal : Goal)
  : Result (list (Key * NtDef) * list Nt) :=
  let '(self_nonterminals, init_nts) := st in
  goal ← resolve_goal goal;
  let init_nt := mkNt (InitNt goal) [] in
  let self_nonterminals :=
    if Py.dict_mem self_nonterminals (init_key goal) then self_nonterminals
    else Py.dict_set self_nonterminals (init_key goal)
           (mkNtDef [] [mkProduction [ENt goal] AAccept None]) in
  Ok (self_nonterminals, (init_nts ++ [init_nt])%list).

End Validate.

(** [goal_nts] as the constructor normalizes it: the given list, or the
    first key of the dictionary.  A first key that is an [InitNt] is neither a
    string nor an [Nt]; no goal equals it and the constructor raises while
    validating that key, so the list is empty here. *)
Definition effective_goals (nonterminals : list (Key * RawDef))
           (goal_nts : option (list Goal)) : list Goal :=
  match goal_nts with
  | Some goals => goals
  | None =>
      match nonterminals with
      | (KName (NameStr s), _) :: _ => [GStr s]
      | (KNt nt, _) :: _ => [GNt nt]
      | _ => []
      end
  end.

Section Construct.
(** The result of type inference ([types.infer_types], outside this file):
    the types of the nonterminals and of the methods. *)
Context {NtTypes Methods : Type}.

(** [class Grammar] *)
Record Grammar : Type := mkGrammar {
  variable_terminals : gset string;
  terminals : gset string;
  nonterminals : list (Key * NtDef);
  nt_types : NtTypes;
  methods : Methods;
  init_nts : list Nt
}.

(** [types.infer_types(self)], reading the attributes set so far. *)
Variable infer_types :
  gset string → gset string → list (Key * NtDef) → Result (NtTypes * Methods).

(** [Grammar.__init__].  [nonterminals] is a dictionary, given as its list
    of items (distinct keys). *)
Definition Grammar_init (nonterminals : list (Key * RawDef))
           (goal_nts : option (list Goal)) (variable_terminals : list string)
           (type_info : option (NtTypes * Methods)) : Result Grammar :=
  let goal_nts := effective_goals nonterminals goal_nts in
  let self_variable_terminals : gset string := list_to_set variable_terminals in
  first ← match nonterminals with
          | [] => Raise StopIteration
          | (key, _) :: _ => Ok key
          end;
  let keys_are_nt := is_KNt first in
  '(nt_params, str_to_nt) ← foldM (key_scan_step keys_are_nt) ([], []) nonterminals;
  '(self_nonterminals, all_terminals) ←
    foldM (validate_step nonterminals goal_nts self_variable_terminals keys_are_nt
                         nt_params str_to_nt)
          ([], self_variable_terminals) nonterminals;
  let self_terminals := all_terminals in
  type_info ← match type_info with
              | None => infer_types self_variable_terminals self_terminals
                                    self_nonterminals
              | Some info => Ok info
              end;
  '(self_nonterminals, init_nts) ←
    foldM (init_step nonterminals keys_are_nt str_to_nt) (self_nonterminals, []) goal_nts;
  Ok (mkGrammar self_variable_terminals self_terminals self_nonterminals
                (fst type_info) (snd type_info) init_nts).

(** [Grammar.goals] *)
Definition goals (self : Grammar) : Result (list Nt) :=
  mapM (λ init_nt,
          match nt_name init_nt with
          | InitNt goal => Ok goal
          | NameStr _ => Raise (AttributeError "'str' object has no attribute 'goal'")
          end)
       (init_nts self).

(** [Grammar.with_nonterminals] *)
Definition with_nonterminals (self : Grammar) (nonterminals : list (Key * RawDef))
  : Result Grammar :=
  self_goals ← goals self;
  Grammar_init nonterminals (Some (map GNt self_goals))
               (elements (variable_terminals self))
               (Some (nt_types self, methods self)).

End Construct.


(** A validated dictionary read as constructor input: every value is an
    [NtDef] whose right-hand sides are [Production]s. *)
Definition as_raw_def (d : NtDef) : RawDef :=
  RawNtDef (params d) (map RProduction (rhs_list d)).

Definition as_raw (nonterminals : list (Key * NtDef)) : list (Key * RawDef) :=
  map (λ item, (fst item, as_raw_def (snd item))) nonterminals.

Section Queries.
Context {NtTypes Methods : Type}.
Variable infer_types :
  gset string → gset string → list (Key * NtDef) → Result (NtTypes * Methods).

(** [Grammar.clone] *)
Definition clone (self : @Grammar NtTypes Methods) : Result (@Grammar NtTypes Methods) :=
  self_goals ← goals self;
  Grammar_init infer_types (as_raw (nonterminals self)) (Some (map GNt self_goals))
               (elements (variable_terminals self)) None.

End Queries.

(** [Nt.pretty], for an [Nt] whose name is a string; what the method gives
    for an init nonterminal (the [InitNt] tuple itself, or a text built from
    its [str]) is outside this model, [None] here. *)
Definition arg_to_str (pair : string * ArgValue) : string :=
  let '(name, value) := pair in
  match value with
  | ArgBool true => "+" +:+ name
  | ArgBool false => "~" +:+ name
  | ArgVar v => if String.eqb v name then "?" +:+ v else name +:+ "=" +:+ v
  end.

Definition Nt_pretty (nt : Nt) : option string :=
  match nt with
  | mkNt (NameStr name) [] => Some name
  | mkNt (NameStr name) args =>
      Some (name +:+ "[" +:+ Py.join_sep ", " (map arg_to_str args) +:+ "]")
  | mkNt (InitNt _) _ => None
  end.

(** An [Nt] written with identifiers: its name, its parameter names and
    the names of its variables. *)
Definition plain_arg (pair : string * ArgValue) : Prop :=
  Py.isidentifier (fst pair) = true
  ∧ match snd pair with
    | ArgVar v => Py.isidentifier v = true
    | ArgBool _ => True
    end.

Definition plain_nt (nt : Nt) : Prop :=
  match nt_name nt with
  | NameStr name => Py.isidentifier name = true
  | InitNt _ => False
  end
  ∧ Forall plain_arg (nt_args nt).

(** *** Vocabulary of the statements about the constructor *)

(** An integer reference of [action], at the top or nested in [CallMethod]
    arguments or [Some], lies outside [0, concrete_len rhs_body). *)
Fixpoint has_out_of_range_index (rhs_body : list Element) (action : Action) : bool :=
  match action with
  | AInt n => negb ((0 <=? n)%Z && (n <? Z.of_nat (concrete_len rhs_body))%Z)
  | CallMethod _ args => existsb (has_out_of_range_index rhs_body) args
  | ASome inner => has_out_of_range_index rhs_body inner
  | ANone | AAccept => false
  end.

(** The body of a right-hand side of the raw dictionary. *)
Definition rhs_body (rhs : Rhs) : list Element :=
  match rhs with
  | RList symbols => symbols
  | RProduction p => body p
  end.

(** [rhs] is one of the right-hand sides of the raw dictionary. *)
Definition rhs_in (nonterminals : list (Key * RawDef)) (rhs : Rhs) : Prop :=
  ∃ key value, (key, value) ∈ nonterminals ∧ rhs ∈ raw_rhs_list value.

(** [e] is a nonterminal reference, bare or optional, that the dictionary
    defines neither as an application nor by name. *)
Definition undefined_reference (nonterminals : list (Key * RawDef)) (e : Element) : Prop :=
  ∃ nt, (e = ENt nt ∨ e = EOptional (ENt nt))
        ∧ (KNt nt ∉ Py.dict_keys nonterminals)
        ∧ (KName (nt_name nt) ∉ Py.dict_keys nonterminals).

(** The well-formedness conditions named by the specification, read on the
    raw dictionary: every nonterminal reference resolves, every argument
    tuple of a reference matches the parameter names declared for its name,
    and every integer reduce index is in range. *)
Definition declared_params (nonterminals : list (Key * RawDef))
           (name : NtName) (ps : list string) : Prop :=
  ∃ key value, (key, value) ∈ nonterminals
               ∧ key_name key = name ∧ key_param_names key value = ps.

Definition references (rhs : Rhs) (nt : Nt) : Prop :=
  ENt nt ∈ rhs_body rhs ∨ EOptional (ENt nt) ∈ rhs_body rhs.

Definition spec_well_formed (nonterminals : list (Key * RawDef)) : Prop :=
  (∀ rhs e, rhs_in nonterminals rhs → e ∈ rhs_body rhs →
            ¬ undefined_reference nonterminals e)
  ∧ (∀ rhs nt ps, rhs_in nonterminals rhs → references rhs nt →
                  declared_params nonterminals (nt_name nt) ps →
                  map fst (nt_args nt) = ps)
  ∧ (∀ p, rhs_in nonterminals (RProduction p) →
          has_out_of_range_index (body p) (action p) = false).

(** The conditions the constructor checks. *)

(** A method name is an identifier, or an identifier, one space and
    digits. *)
Definition valid_method_name (method : string) : bool :=
  Py.isidentifier method
  || (let '(name, space, pn) := Py.partition_space method in
      String.eqb space " " && Py.isidentifier name && Py.isdigit pn).

(** A reduce expression: indices in range, method names valid, and no
    nested ['accept']. *)
Fixpoint action_ok (rhs_body : list Element) (action : Action) : bool :=
  match action with
  | AInt n => (0 <=? n)%Z && (n <? Z.of_nat (concrete_len rhs_body))%Z
  | CallMethod method args =>
      valid_method_name method && forallb (action_ok rhs_body) args
  | ANone => true
  | ASome inner => action_ok rhs_body inner
  | AAccept => false
  end.

(** A use of a nonterminal: it is a key, as an application or by name; its
    argument names are the declared parameter names; its variables are
    parameters in scope. *)
Definition nt_use_ok (nonterminals : list (Key * RawDef)) (context_params : list string)
           (nt : Nt) : Prop :=
  (KNt nt ∈ Py.dict_keys nonterminals ∨ KName (nt_name nt) ∈ Py.dict_keys nonterminals)
  ∧ (∀ ps, declared_params nonterminals (nt_name nt) ps → map fst (nt_args nt) = ps)
  ∧ (∀ param v, (param, ArgVar v) ∈ nt_args nt → v ∈ context_params).

(** A string or an [Nt]: a string that names a nonterminal names one
    without parameters. *)
Definition symbol_ok (nonterminals : list (Key * RawDef)) (context_params : list string)
           (e : Element) : Prop :=
  match e with
  | EStr s => ∀ ps, declared_params nonterminals (NameStr s) ps → ps = []
  | ENt nt => nt_use_ok nonterminals context_params nt
  | _ => False
  end.

Definition element_ok (nonterminals : list (Key * RawDef)) (context_params : list string)
           (e : Element) : Prop :=
  match e with
  | EStr _ | ENt _ => symbol_ok nonterminals context_params e
  | EOptional inner => symbol_ok nonterminals context_params inner
  | ELookahead _ | ErrorToken => True
  | ErrorSymbol _ | EOther _ => False
  end.

(** The parameters in scope in the right-hand sides of a value. *)
Definition raw_params (value : RawDef) : list string :=
  match value with RawNtDef ps _ => ps | RawList _ => [] end.

(** A right-hand side: its elements are valid; a bare list that needs a
    method belongs to a string key; a [Production] has its condition on a
    parameter in scope and the action ['accept'] or a valid expression. *)
Definition rhs_ok (nonterminals : list (Key * RawDef)) (key : Key)
           (context_params : list string) (rhs : Rhs) : Prop :=
  Forall (element_ok nonterminals context_params) (rhs_body rhs)
  ∧ match rhs with
    | RList symbols =>
        (length symbols = 1%nat ∧ concrete_len symbols = 1%nat)
        ∨ ∃ s, key = KName (NameStr s)
    | RProduction p =>
        (∀ param value, condition p = Some (param, value) → param ∈ context_params)
        ∧ (action p = AAccept ∨ action_ok (body p) (action p) = true)
    end.

(** A name used as a key: an identifier that is not a variable terminal,
    or an [InitNt] whose goal is a valid use and one of the goals. *)
Definition name_ok (nonterminals : list (Key * RawDef)) (goal_nts : list Goal)
           (vt : gset string) (name : NtName) : Prop :=
  match name with
  | NameStr s => Py.isidentifier s = true ∧ s ∉ vt
  | InitNt g => nt_use_ok nonterminals [] g ∧ GNt g ∈ goal_nts
  end.

Definition key_ok (nonterminals : list (Key * RawDef)) (goal_nts : list Goal)
           (vt : gset string) (key : Key) (value : RawDef) : Prop :=
  match key with
  | KName name =>
      name_ok nonterminals goal_nts vt name
      ∧ match name with
        | InitNt g =>
            ∃ ps form, value = RawNtDef ps (map RProduction form)
                       ∧ form ∈ init_forms g
        | NameStr _ => True
        end
  | KNt nt =>
      name_ok nonterminals goal_nts vt (nt_name nt)
      ∧ ∀ param a, (param, a) ∈ nt_args nt → ∃ b, a = ArgBool b
  end.

(** A goal: a name declared without parameters, or an [Nt] that is a key
    (by name when the keys are names). *)
Definition goal_ok (nonterminals : list (Key * RawDef)) (keys_are_nt : bool)
           (goal : Goal) : Prop :=
  match goal with
  | GStr s => declared_params nonterminals (NameStr s) []
  | GNt nt =>
      if keys_are_nt then KNt nt ∈ Py.dict_keys nonterminals
      else KName (nt_name nt) ∈ Py.dict_keys nonterminals
  end.

(** The goal as an [Nt]. *)
Definition goal_nt (goal : Goal) : Nt :=
  match goal with
  | GStr s => mkNt (NameStr s) []
  | GNt nt => nt
  end.

Definition first_key_is_nt (nonterminals : list (Key * RawDef)) : bool :=
  match nonterminals with
  | (key, _) :: _ => is_KNt key
  | [] => false
  end.

Record well_formed (nonterminals : list (Key * RawDef)) (goal_nts : list Goal)
       (vt : gset string) : Prop := mkWellFormed {
  wf_nonempty : nonterminals ≠ [];
  wf_distinct : NoDup (Py.dict_keys nonterminals);
  wf_key_types :
    ∀ key, key ∈ Py.dict_keys nonterminals →
           is_KNt key = first_key_is_nt nonterminals;
  wf_params :
    ∀ name ps1 ps2, declared_params nonterminals name ps1 →
                    declared_params nonterminals name ps2 → ps1 = ps2;
  wf_keys :
    ∀ key value, (key, value) ∈ nonterminals →
                 key_ok nonterminals goal_nts vt key value;
  wf_rhs :
    ∀ key value rhs, (key, value) ∈ nonterminals → rhs ∈ raw_rhs_list value →
                     rhs_ok nonterminals key (raw_params value) rhs;
  wf_goals :
    ∀ goal, goal ∈ goal_nts →
            goal_ok nonterminals (first_key_is_nt nonterminals) goal
}.

(** What validation establishes of an element of a validated body, given
    the keys and the terminals of the grammar: a string, bare or optional,
    is a terminal and names no nonterminal; a nonterminal, bare or optional,
    is a key, as an application or by name; nothing else but lookahead
    rules and the error token occurs. *)
Definition closed_element (keys : list Key) (terminals : gset string) (e : Element)
  : Prop :=
  match e with
  | EStr s | EOptional (EStr s) =>
      s ∈ terminals ∧ ∀ k, k ∈ keys → key_name k ≠ NameStr s
  | ENt nt | EOptional (ENt nt) =>
      KNt nt ∈ keys ∨ KName (nt_name nt) ∈ keys
  | ELookahead _ | ErrorToken => True
  | _ => False
  end.

(** A validated production: closed elements, an action that is ['accept']
    or valid for the validated body, and a condition on a parameter of its
    definition. *)
Definition closed_production (keys : list Key) (terminals : gset string)
           (params : list string) (p : Production) : Prop :=
  Forall (closed_element keys terminals) (body p)
  ∧ (action p = AAccept ∨ action_ok (body p) (action p) = true)
  ∧ (∀ param value, condition p = Some (param, value) → param ∈ params).

Definition closed_grammar {NtTypes Methods} (g : @Grammar NtTypes Methods) : Prop :=
  variable_terminals g ⊆ terminals g
  ∧ ∀ key d p, (key, d) ∈ nonterminals g → p ∈ rhs_list d →
               closed_production (Py.dict_keys (nonterminals g)) (terminals g)
                                 (params d) p.

(** The terminals that occur in validated bodies: the strings, bare or
    optional, of an element, a body, a definition and a dictionary. *)
Definition element_strings (e : Element) : gset string :=
  match e with
  | EStr s | EOptional (EStr s) => {[s]}
  | _ => ∅
  end.

Definition body_strings (b : list Element) : gset string :=
  ⋃ (map element_strings b).

Definition def_strings (d : NtDef) : gset string :=
  ⋃ (map (λ p, body_strings (body p)) (rhs_list d)).

Definition dict_strings (nonterminals : list (Key * NtDef)) : gset string :=
  ⋃ (map (λ item, def_strings (snd item)) nonterminals).

(** The definition given to a synthesized init nonterminal. *)
Definition accept_def (goal : Nt) : NtDef :=
  mkNtDef [] [mkProduction [ENt goal] AAccept None].

(** A lookahead restriction is [None] or a rule. *)
Definition lookahead_contains (rule : option LookaheadRule) (t : string) : bool :=
  match rule with
  | None => true
  | Some r =>
      if la_positive r then bool_decide (t ∈ la_set r)
      else negb (bool_decide (t ∈ la_set r))
  end.

Definition lookahead_intersect (a b : option LookaheadRule) : option LookaheadRule :=
  match a with
  | None => b
  | Some ra =>
      match b with
      | None => a
      | Some rb =>
          if la_positive ra then
            if la_positive rb
            then Some (mkLookaheadRule (la_set ra ∩ la_set rb) true)
            else Some (mkLookaheadRule (la_set ra ∖ la_set rb) true)
          else
            if la_positive rb
            then Some (mkLookaheadRule (la_set rb ∖ la_set ra) true)
            else Some (mkLookaheadRule (la_set ra ∪ la_set rb) false)
      end
  end.

End grammar.

(** ** parse_esgrammar.py: the ECMArkup desugarer *)

Module parse_esgrammar.
Import grammar.

(** Python's [$] matches at the end of the string and just before a
    newline that ends the string: the candidate texts a [...$] pattern can
    end at. *)
Definition dollar_prefixes (s : string) : list string :=
  let n := String.length s in
  if Py.endswith (String Py.newline "") s then [s; substring 0 (n - 1) s] else [s].

(** [re.search(r'(Expression|^(Array|Object)?Literal)$', s) is not None] *)
Definition group_expression (s : string) : bool :=
  existsb (λ t, Py.endswith "Expression" t
                || String.eqb t "Literal"
                || String.eqb t "ArrayLiteral"
                || String.eqb t "ObjectLiteral")
          (dollar_prefixes s).

(** [re.search(r'(Statement|Declaration|^StatementListItem|^ModuleItem)$', s)
    is not None] *)
Definition group_statement (s : string) : bool :=
  existsb (λ t, Py.endswith "Statement" t
                || Py.endswith "Declaration" t
                || String.eqb t "StatementListItem"
                || String.eqb t "ModuleItem")
          (dollar_prefixes s).

(** [re.search(r'Method(Definition)?$', s) is not None] *)
Definition group_method (s : string) : bool :=
  existsb (λ t, Py.endswith "Method" t || Py.endswith "MethodDefinition" t)
          (dollar_prefixes s).

Definition PRODUCTION_GROUPS : list (string → bool) :=
  [group_expression; group_statement; group_method].

(** The text [re.search] is applied to for a body element: an [Nt] is
    replaced by its name; anything that is not a string makes [re.search]
    raise [TypeError]. *)
Definition search_subject (rhs_element : Element) : option string :=
  match rhs_element with
  | EStr s => Some s
  | ENt (mkNt (NameStr s) _) => Some s
  | _ => None
  end.

Fixpoint is_matched_pair_loop (groups : list (string → bool)) (lhs_name : string)
         (subject : option string) : Result bool :=
  match groups with
  | [] => Ok false
  | group :: rest =>
      if group lhs_name then
        match subject with
        | None => Raise (TypeError "expected string or bytes-like object")
        | Some s =>
            if group s then Ok true
            else is_matched_pair_loop rest lhs_name subject
        end
      else is_matched_pair_loop rest lhs_name subject
  end.

Definition is_matched_pair (lhs_name : string) (rhs_element : Element) : Result bool :=
  is_matched_pair_loop PRODUCTION_GROUPS lhs_name (search_subject rhs_element).

(** Modelled from the spec: the [grammar.Production] this file is written
    against (a body, a reduce action kept in the field [reducer], and an
    optional condition [parameter == boolean]); grammar.py under src/ names
    the field [action]. *)
Record Production : Type := mkProduction {
  body : list Element;
  reducer : Action;
  condition : option (string * bool)
}.

(** The left-hand side built by [nt_lhs_no_params] / [nt_lhs_with_params]:
    the tuple [(name, params)]. *)
Definition Lhs : Type := string * list string.

(** A fragment [(body, reducer, condition)] from [rhs_line]; the reducer
    [None] means that no reducer was written. *)
Definition Fragment : Type := list Element * Action * option (string * bool).

Definition default_reducer (lhs : Lhs) (i : nat) (body : list Element)
           (is_sole_production : bool) : Result Action :=
  let nt_name := fst lhs in
  let nargs := concrete_len body in
  let call :=
    let method_name :=
      if is_sole_production then nt_name
      else nt_name +:+ " " +:+ Py.str_of_nat i in
    CallMethod method_name (range_args nargs) in
  match body with
  | [e] =>
      if (nargs =? 1)%nat then
        matched ← is_matched_pair nt_name e;
        if matched : bool then Ok (AInt 0) else Ok call
      else Ok call
  | _ => Ok call
  end.

Definition to_production (lhs : Lhs) (i : nat) (rhs : Fragment)
           (is_sole_production : bool) : Result Production :=
  let '(body, reducer, condition) := rhs in
  reducer ← match reducer with
            | ANone => default_reducer lhs i body is_sole_production
            | _ => Ok reducer
            end;
  Ok (mkProduction body reducer condition).

Definition needs_asi (lhs : Lhs) (p : Production) : bool :=
  negb (String.eqb (fst lhs) "ForLexicalDeclaration")
  && (1 <? length (body p))%nat
  && bool_decide (last (body p) = Some (EStr ";")).

(** [body[k] == text] *)
Definition body_is (body : list Element) (k : nat) (text : string) : bool :=
  bool_decide (body !! k = Some (EStr text)).

(** The recovery code chosen by [apply_asi]: [do_while_asi] for the
    [do _ while ( _ ) ;] body, [asi] otherwise. *)
Definition asi_code (b : list Element) : string :=
  if (length b =? 7)%nat
     && body_is b 0 "do"
     && body_is b 2 "while"
     && body_is b 3 "("
     && body_is b 5 ")"
     && body_is b 6 ";"
  then "do_while_asi" else "asi".

Definition apply_asi (p : Production) (reducer_was_autogenerated : bool)
  : Result (list Production) :=
  match reducer p with
  | CallMethod method args =>
      let reducer :=
        if reducer_was_autogenerated
        then CallMethod method (removelast args)
        else reducer p in
      let code := asi_code (body p) in
      Ok [ mkProduction (body p) reducer (condition p);
           mkProduction (removelast (body p) ++ [ErrorSymbol code])%list reducer (condition p) ]
  | _ => Raise (AssertionError "isinstance(p.reducer, grammar.CallMethod)")
  end.

(** [rhs[1] is None] *)
Definition was_autogenerated (rhs : Fragment) : bool :=
  match snd (fst rhs) with ANone => true | _ => false end.

(** The body of the loop of [nt_def]: the productions one fragment
    contributes to [production_list]. *)
Definition nt_def_step (lhs : Lhs) (has_sole_production : bool)
           (i : nat) (rhs : Fragment) : Result (list Production) :=
  let reducer_was_autogenerated := was_autogenerated rhs in
  p ← to_production lhs i rhs has_sole_production;
  if needs_asi lhs p then apply_asi p reducer_was_autogenerated
  else Ok [p].

(** [types.Type(name, args)] as built by [simple_type] and
    [parameterized_type]. *)
#[local] Unset Elimination Schemes.
Inductive JsType : Type :=
| Type_ (name : string) (args : list JsType).
#[local] Set Elimination Schemes.

(** Modelled from the spec: the three-argument [grammar.NtDef(params,
    rhs_list, type)] this file constructs; grammar.py under src/ has the
    two-argument form. *)
Record NtDef : Type := mkNtDef {
  params : list string;
  rhs_list : list Production;
  nt_type : option JsType
}.

Fixpoint nt_def_loop (lhs : Lhs) (sole : bool) (i : nat) (rhs_list : list Fragment)
  : Result (list Production) :=
  match rhs_list with
  | [] => Ok []
  | rhs :: rest =>
      ps ← nt_def_step lhs sole i rhs;
      qs ← nt_def_loop lhs sole (S i) rest;
      Ok (ps ++ qs)%list
  end.

Definition nt_def (nt_type : option JsType) (lhs : Lhs) (eq : string)
           (rhs_list : list Fragment) : Result (string * string * NtDef) :=
  let has_sole_production := (length rhs_list =? 1)%nat in
  production_list ← nt_def_loop lhs has_sole_production 0 rhs_list;
  let '(name, args) := lhs in
  Ok (name, eq, mkNtDef args production_list nt_type).

(** The 7-element shape [do <stmt> while ( <expr> ) ;]. *)
Definition do_while_shape (b : list Element) : Prop :=
  ∃ stmt expr,
    b = [EStr "do"; stmt; EStr "while"; EStr "("; expr; EStr ")"; EStr ";"].

(** *** finish_grammar *)

(** The third component of a triple handed to [finish_grammar]: an
    [NtDef] (what [nt_def] produces) or a bare list whose entries should be
    [Production]s. *)
Inductive RhsEntry : Type :=
| RhsProduction (p : Production)
| RhsForeign (repr : string).

Inductive DefOrList : Type :=
| DefNt (d : NtDef)
| DefList (rhs_list : list RhsEntry).

Definition NtTriple : Type := string * string * DefOrList.

(** The first loop: [nt_grammars[nt_name] = eq], refusing duplicates. *)
Definition nt_grammars_step (nt_grammars : list (string * string)) (t : NtTriple)
  : Result (list (string * string)) :=
  let '(nt_name, eq, _) := t in
  if Py.dict_mem nt_grammars nt_name
  then Raise (ValueError "duplicate definitions for nonterminal")
  else Ok (Py.dict_set nt_grammars nt_name eq).

(** [nt_grammars[goal]] *)
Definition goal_grammar (nt_grammars : list (string * string)) (goal : string)
  : Result string :=
  match Py.dict_get nt_grammars goal with
  | Some eq => Ok eq
  | None => Raise (KeyError goal)
  end.

(** [selected_grammars = set(...)], the two checks on its size, and the
    unpacking [[selected_grammar] = selected_grammars]. *)
Definition select_grammar (nt_grammars : list (string * string)) (goals : list string)
  : Result string :=
  eqs ← mapM (goal_grammar nt_grammars) goals;
  let selected_grammars : gset string := list_to_set eqs in
  match elements selected_grammars with
  | [] => Raise (AssertionError "len(selected_grammars) != 0")
  | [selected_grammar] => Ok selected_grammar
  | _ => Raise (ValueError "all goal nonterminals must be part of the same grammar")
  end.

(** [hack_production(p)]: a body element written with backticks is either
    malformed ([ValueError]) or would be rewritten in place by [p[i] = ...],
    which a [Production] does not support ([TypeError]); [terminal_set]
    therefore never receives an element, and the closing loop over it does
    nothing. *)
Definition hack_element (e : Element) : Result unit :=
  match e with
  | EStr s =>
      if String.eqb (substring 0 1 s) "`" then
        if (String.length s <? 3)%nat
           || negb (String.eqb (substring (String.length s - 1) 1 s) "`")
        then Raise (ValueError "Unrecognized grammar symbol")
        else Raise (TypeError "'Production' object does not support item assignment")
      else Ok tt
  | _ => Ok tt
  end.

Definition hack_production (p : Production) : Result unit :=
  mapM hack_element (body p) ;; Ok tt.

Definition check_rhs_entry (entry : RhsEntry) : Result unit :=
  match entry with
  | RhsProduction p => hack_production p
  | RhsForeign _ => Raise (ValueError "invalid grammar: ifdef in non-function-call context")
  end.

(** The second loop.  [selected] is [None] when [single_grammar] is false
    (the name [selected_grammar] is then never read). *)
Definition nonterminals_step (selected : option string)
           (st : list (string * DefOrList) * gset string) (t : NtTriple)
  : Result (list (string * DefOrList) * gset string) :=
  let '(nonterminals, variable_terminals) := st in
  let '(nt_name, eq, rhs_list_or_lambda) := t in
  let folded :=
    match selected with
    | Some selected_grammar =>
        negb (String.eqb eq selected_grammar) && String.eqb selected_grammar ":"
    | None => false
    end in
  if folded then Ok (nonterminals, variable_terminals ∪ {[nt_name]})
  else
    match rhs_list_or_lambda with
    | DefNt _ => Ok (Py.dict_set nonterminals nt_name rhs_list_or_lambda, variable_terminals)
    | DefList rhs_list =>
        mapM check_rhs_entry rhs_list ;;
        if Py.dict_mem nonterminals nt_name
        then Raise (ValueError "unsupported: multiple definitions for nt")
        else Ok (Py.dict_set nonterminals nt_name rhs_list_or_lambda, variable_terminals)
    end.

(** The body of [finish_grammar] up to its final call: the [nonterminals]
    dictionary and the [variable_terminals] set. *)
Definition finish_grammar_tables (nt_defs : list NtTriple) (goals : list string)
           (single_grammar : bool)
  : Result (list (string * DefOrList) * gset string) :=
  nt_grammars ← foldM nt_grammars_step [] nt_defs;
  (if (length goals =? 0)%nat
   then Raise (ValueError "no goal nonterminals specified") else Ok tt) ;;
  selected ← (if single_grammar
              then selected_grammar ← select_grammar nt_grammars goals;
                   Ok (Some selected_grammar)
              else Ok None);
  foldM (nonterminals_step selected) ([], ∅) nt_defs.

Section FinishGrammar.
(** Modelled from the spec: the [grammar.Grammar] constructor that
    [finish_grammar] calls takes a [synthetic_terminals] keyword that the
    constructor of grammar.py under src/ does not have; it is a parameter
    here. *)
Context {G SyntheticTerminals : Type}.
Variable Grammar : list (string * DefOrList) → list string → gset string →
                   SyntheticTerminals → Result G.

Definition finish_grammar (nt_defs : list NtTriple) (goals : list string)
           (synthetic_terminals : SyntheticTerminals) (single_grammar : bool)
  : Result G :=
  '(nonterminals, variable_terminals) ←
    finish_grammar_tables nt_defs goals single_grammar;
  Grammar nonterminals goals variable_terminals synthetic_terminals.
End FinishGrammar.

(** A triple as [nt_def] builds it: its definition is an [NtDef]. *)
Definition is_NtDef (t : NtTriple) : Prop := ∃ d, snd t = DefNt d.

(** The names defined by a list of triples, and their markers. *)
Definition names (nt_defs : list NtTriple) : list string :=
  map (λ t : NtTriple, fst (fst t)) nt_defs.

Definition markers (nt_defs : list NtTriple) : list (string * string) :=
  map (λ t : NtTriple, (fst (fst t), snd (fst t))) nt_defs.

(** The names whose marker differs from [selected], as a set. *)
Definition foreign_names (selected : string) (nt_defs : list NtTriple) : gset string :=
  list_to_set (map (λ t : NtTriple, fst (fst t))
                   (filter (λ t : NtTriple, snd (fst t) ≠ selected) nt_defs)).

(** The definitions that stay nonterminals when [selected] is the grammar
    of the goals. *)
Definition kept_nonterminals (selected : string) (nt_defs : list NtTriple)
  : list (string * DefOrList) :=
  map (λ t : NtTriple, (fst (fst t), snd t))
      (if String.eqb selected ":"
       then filter (λ t : NtTriple, snd (fst t) = selected) nt_defs
       else nt_defs).

(** The two names compared by [is_matched_pair] lie in one production
    group. *)
Definition same_group (lhs_name rhs_name : string) : Prop :=
  ∃ group, group ∈ PRODUCTION_GROUPS
           ∧ group lhs_name = true ∧ group rhs_name = true.

(** The condition for the [$0] reducer in the words of the specification:
    exactly one element of the body contributes a stack value, and the
    left-hand name and that element's name match the same group. *)
Definition spec_identity_condition (lhs : Lhs) (b : list Element) : Prop :=
  ∃ e s, filter (λ x, is_concrete_element x = true) b = [e]
         ∧ search_subject e = Some s
         ∧ same_group (fst lhs) s.

(** The condition as [default_reducer] tests it: the body is one element,
    that element contributes a stack value, and the names match the same
    group. *)
Definition identity_condition (lhs : Lhs) (b : list Element) : Prop :=
  ∃ e s, b = [e]
         ∧ is_concrete_element e = true
         ∧ search_subject e = Some s
         ∧ same_group (fst lhs) s.

(** [method_name] of the synthesized call. *)
Definition default_method_name (lhs : Lhs) (i : nat) (sole : bool) : string :=
  if sole then fst lhs else fst lhs +:+ " " +:+ Py.str_of_nat i.

(** *** The small builder methods *)

(** [nt_def_one_of(nt_type, nt_lhs, eq, terminals)] *)
Definition nt_def_one_of (nt_type : option JsType) (nt_lhs : Lhs) (eq : string)
           (terminals : list string) : Result (string * string * NtDef) :=
  nt_def nt_type nt_lhs eq (map (λ t, ([EStr t], ANone, None) : Fragment) terminals).


(** [nonterminal_apply(name, args)] *)
Definition nonterminal_apply (name : string) (args : list (string * ArgValue))
  : Result Nt :=
  if negb (size (list_to_set (map fst args) : gset string) =? length args)%nat
  then Raise (ValueError "parameter passed multiple times")
  else Ok (mkNt (NameStr name) args).

(** [la_not_in_set(lookahead_exclusions)] *)
Definition la_not_in_set (lookahead_exclusions : list (list string))
  : Result LookaheadRule :=
  if forallb (λ excl, (length excl =? 1)%nat) lookahead_exclusions
  then Ok (mkLookaheadRule
             (list_to_set (map (λ excl, default "" (head excl)) lookahead_exclusions))
             false)
  else Raise (ValueError "unsupported: lookahead > 1 token").

(** The bodies a fragment with body [b] contributes to the production list
    of [lhs]: [b] itself, followed by the recovery body when [needs_asi]
    holds of it. *)
Definition asi_bodies (lhs : Lhs) (b : list Element) : list (list Element) :=
  if needs_asi lhs (mkProduction b ANone None)
  then [b; (removelast b ++ [ErrorSymbol (asi_code b)])%list]
  else [b].

End parse_esgrammar.

(** ** emit.py: the Rust backend *)

Module emit.
Import grammar.

(** Text is written to [out] as it is produced and stays written when a
    later step raises: an emission step maps the text written so far to the
    text written afterwards and a result. *)
Definition Emit (A : Type) : Type := list string → list string * Result A.

#[global] Instance Emit_ret : MRet Emit := λ A a out, (out, Ok a).
#[global] Instance Emit_bind : MBind Emit := λ A B f m out,
  match m out with
  | (out', Ok a) => f a out'
  | (out', Raise e) => (out', Raise e)
  end.

(** [out.write(text)] *)
Definition out_write (text : string) : Emit unit :=
  λ out, ((out ++ [text])%list, Ok tt).

(** An exception raised by an expression evaluated during emission. *)
Definition lift {A} (r : Result A) : Emit A := λ out, (out, r).

(** [for x in xs: step(x)] *)
Fixpoint for_each {A} (step : A → Emit unit) (xs : list A) : Emit unit :=
  match xs with
  | [] => mret tt
  | x :: xs' => step x ;; for_each step xs'
  end.

(** A key of [action_row]: [None] (end of input), [ErrorToken] or a
    terminal string. *)
Inductive Terminal : Type :=
| TEnd
| TErrorToken
| TStr (s : string).

#[global] Instance Terminal_eq_dec : EqDecision Terminal.
Proof. solve_decision. Defined.

(** A key of [ctn_row]: an [Nt] or a nonterminal name. *)
Inductive Ident : Type :=
| IdNt (nt : Nt)
| IdStr (s : string).

#[global] Instance Ident_eq_dec : EqDecision Ident.
Proof. solve_decision. Defined.

(** What the emitter reads of a state of [parser_states.states]. *)
Record State : Type := mkState {
  action_row : list (Terminal * Z);
  ctn_row : list (Ident * nat);
  traceback : string
}.

(** [list(OrderedSet(xs))]: the distinct elements in order of first
    occurrence. *)
Definition ordered_set_add {A} `{EqDecision A} (acc : list A) (x : A) : list A :=
  if decide (x ∈ acc) then acc else (acc ++ [x])%list.

Definition ordered_set {A} `{EqDecision A} (xs : list A) : list A :=
  fold_left ordered_set_add xs [].

(** [class RustParserWriter]: the attributes set by [__init__] that the
    steps modelled here read. *)
Record RustParserWriter : Type := mkRustParserWriter {
  variable_terminals : gset string;
  states : list State;
  terminals : list Terminal;
  nonterminals : list Ident
}.

Definition RustParserWriter_init (grammar_variable_terminals : gset string)
           (parser_states : list State) : RustParserWriter :=
  mkRustParserWriter
    grammar_variable_terminals
    parser_states
    (ordered_set (concat (map (λ state, map fst (action_row state)) parser_states)))
    (ordered_set (concat (map (λ state, map fst (ctn_row state)) parser_states))).

(** ["    " * indentation] *)
Fixpoint indent (indentation : nat) : string :=
  match indentation with
  | O => ""
  | S n => "    " +:+ indent n
  end.

(** [self.write(indentation, string, *format_args)] with the formatted text
    already assembled. *)
Definition write (indentation : nat) (formatted : string) : Emit unit :=
  out_write (indent indentation +:+ formatted +:+ String Py.newline "").

(** [re.sub('(.)([A-Z][a-z]+)', r'\1_\2', ident)] as a scanner: [SubScan]
    looks for a match starting at the current character, [SubUpper] copies the
    upper-case letter of a match just found, [SubRun] copies the lower-case
    letters that follow it. *)
Inductive SubMode : Type := SubScan | SubUpper | SubRun.

Fixpoint sub_word_boundary (mode : SubMode) (l : list ascii) : list ascii :=
  match l with
  | [] => []
  | c :: tl =>
      let scan :=
        match tl with
        | u :: low :: _ =>
            if negb (Ascii.eqb c Py.newline) && Py.is_upper u && Py.is_lower low
            then c :: "_"%char :: sub_word_boundary SubUpper tl
            else c :: sub_word_boundary SubScan tl
        | _ => c :: sub_word_boundary SubScan tl
        end in
      match mode with
      | SubScan => scan
      | SubUpper => c :: sub_word_boundary SubRun tl
      | SubRun => if Py.is_lower c then c :: sub_word_boundary SubRun tl else scan
      end
  end.

(** [re.sub('([a-z0-9])([A-Z])', r'\1_\2', s1)]: [true] when the current
    character is the upper-case letter of a match just found. *)
Fixpoint sub_lower_upper (matched : bool) (l : list ascii) : list ascii :=
  match l with
  | [] => []
  | c :: tl =>
      if matched then c :: sub_lower_upper false tl
      else
        match tl with
        | u :: _ =>
            if (Py.is_lower c || Py.is_digit c) && Py.is_upper u
            then c :: "_"%char :: sub_lower_upper true tl
            else c :: sub_lower_upper false tl
        | [] => [c]
        end
  end.

Definition to_snek_case (ident : string) : string :=
  let s1 := sub_word_boundary SubScan (Py.chars ident) in
  Py.lower (Py.str (sub_lower_upper false s1)).

Definition to_camel_case (ident : string) : string :=
  if Py.contains_chr "_" ident
  then Py.join (map Py.capitalize (Py.split "_" ident))
  else if Py.islower ident then Py.capitalize ident
  else ident.

(** [if value] for an argument value: [False] is the only falsy one. *)
Definition truthy (value : ArgValue) : bool :=
  match value with
  | ArgBool b => b
  | ArgVar _ => true
  end.

(** [re.sub] raises [TypeError] on a name that is not a string. *)
Definition nonterminal_to_snake (ident : Ident) : Result string :=
  match ident with
  | IdNt (mkNt (NameStr name) args) =>
      let base_name := to_snek_case name in
      let args :=
        Py.join (map (λ '(name, value), "_" +:+ to_snek_case name)
                     (filter (λ '(name, value), truthy value = true) args)) in
      Ok (base_name +:+ args)
  | IdNt (mkNt (InitNt _) _) => Raise (TypeError "expected string or bytes-like object")
  | IdStr s => Ok (to_snek_case s)
  end.

Definition nonterminal_to_camel (nt : Ident) : Result string :=
  snake ← nonterminal_to_snake nt; Ok (to_camel_case snake).

(** [sep.join(words)] *)
Fixpoint join_with (sep : string) (words : list string) : string :=
  match words with
  | [] => ""
  | [w] => w
  | w :: rest => w +:+ sep +:+ join_with sep rest
  end.

(** [s.replace(a, b)] for one-character [a] and [b]. *)
Definition replace_chr (a b : ascii) (s : string) : string :=
  Py.str (map (λ c, if Ascii.eqb c a then b else c) (Py.chars s)).

(** [enumerate(xs)] *)
Definition enumerate {A} (xs : list A) : list (nat * A) :=
  zip (seq 0 (length xs)) xs.

(** [method_name_to_rust(name)] *)
Definition method_name_to_rust (name : string) : Result string :=
  let '(nt_name, space, number) := Py.partition_space name in
  name ← nonterminal_to_snake (IdStr nt_name);
  Ok (if String.eqb space "" then name else name +:+ "_p" +:+ number).

(** The local function [action] of [write_python_parser]: a reduce
    expression compiled to Python.  ['accept'] is no integer and fails the
    assertion of the last branch. *)
Fixpoint write_python_parser_action (a : Action) : Result string :=
  match a with
  | CallMethod method args =>
      let method_name := Py.replace " " "_P" method in
      compiled ← (fix go (args : list Action) : Result (list string) :=
                    match args with
                    | [] => Ok []
                    | x :: rest =>
                        y ← write_python_parser_action x;
                        ys ← go rest;
                        Ok (y :: ys)
                    end) args;
      Ok ("builder." +:+ method_name +:+ "(" +:+ join_with ", " compiled +:+ ")")
  | ASome inner => write_python_parser_action inner
  | ANone => Ok "None"
  | AInt n => Ok ("x" +:+ pretty n)
  | AAccept => Raise (AssertionError "isinstance(a, int)")
  end.

(** [TERMINAL_NAMES] *)
Definition TERMINAL_NAMES : list (string * string) := [("=>", "Arrow")].

Section Backend.
(** Python and run-time values the emitter reads from outside this file:
    [hex(ERROR)] for the constant [ERROR] of the runtime module,
    [unicodedata.name] (which raises [ValueError] for a character without a
    name) and [repr] on strings. *)
Variable hex_ERROR : string.
Variable unicodedata_name : ascii → Result string.
Variable repr_str : string → string.

(** [repr(t)] for a key of [action_row]. *)
Definition repr_terminal (t : Terminal) : string :=
  match t with
  | TEnd => "None"
  | TErrorToken => "ErrorToken"
  | TStr s => repr_str s
  end.

(** [Nt.__repr__] and the [repr] of its name and argument tuple. *)
Definition repr_arg (pair : string * ArgValue) : string :=
  let '(name, value) := pair in
  "(" +:+ repr_str name +:+ ", "
      +:+ match value with
          | ArgBool true => "True"
          | ArgBool false => "False"
          | ArgVar v => "Var(name=" +:+ repr_str v +:+ ")"
          end
      +:+ ")".

Definition repr_args (args : list (string * ArgValue)) : string :=
  match args with
  | [a] => "(" +:+ repr_arg a +:+ ",)"
  | _ => "(" +:+ join_with ", " (map repr_arg args) +:+ ")"
  end.

Fixpoint repr_Nt (nt : Nt) : string :=
  match nt with
  | mkNt name [] => "Nt(" +:+ repr_NtName name +:+ ")"
  | mkNt name args => "Nt(" +:+ repr_NtName name +:+ ", " +:+ repr_args args +:+ ")"
  end
with repr_NtName (name : NtName) : string :=
  match name with
  | NameStr s => repr_str s
  | InitNt goal => "InitNt(goal=" +:+ repr_Nt goal +:+ ")"
  end.

(** ["{}".format(nt)] for a key of [ctn_row]. *)
Definition format_ident (nt : Ident) : string :=
  match nt with
  | IdStr s => s
  | IdNt n => repr_Nt n
  end.

Definition header : Emit unit :=
  write 0 "// THIS FILE IS AUTOGENERATED -- HAHAHAHA" ;;
  write 0 "" ;;
  write 0 "use super::parser_runtime::{self, ParserTables, TokenStream};" ;;
  write 0 "use super::parser::Result;" ;;
  write 0 "" ;;
  write 0 ("const ERROR: i64 = " +:+ hex_ERROR +:+ ";") ;;
  write 0 "".

Definition terminal_name (value : Terminal) : Result string :=
  match value with
  | TEnd => Ok "End"
  | TErrorToken => Ok "ErrorToken"
  | TStr value =>
      match Py.dict_get TERMINAL_NAMES value with
      | Some name => Ok name
      | None =>
          if Py.isalpha value then
            if Py.islower value then Ok (Py.capitalize value) else Ok value
          else
            names ← mapM unicodedata_name (Py.chars value);
            let raw_name := join_with " " names in
            let snake_case := Py.lower (replace_chr " " "_" (replace_chr "-" " " raw_name)) in
            Ok (to_camel_case snake_case)
      end
  end.

Definition terminal_id (self : RustParserWriter) : Emit unit :=
  write 0 "#[derive(Copy, Clone, Debug, PartialEq)]" ;;
  write 0 "pub enum TerminalId {" ;;
  for_each (λ '(i, t),
      name ← lift (terminal_name t);
      write 1 (name +:+ " = " +:+ Py.str_of_nat i +:+ ", // " +:+ repr_terminal t))
    (enumerate (terminals self)) ;;
  write 0 "}" ;;
  write 0 "".

(** [t in self.grammar.variable_terminals] *)
Definition is_variable (self : RustParserWriter) (t : Terminal) : bool :=
  match t with
  | TStr s => bool_decide (s ∈ variable_terminals self)
  | _ => false
  end.

Definition token (self : RustParserWriter) : Emit unit :=
  write 0 "#[derive(Clone, Debug, PartialEq)]" ;;
  write 0 "pub enum Token {" ;;
  for_each (λ '(i, t),
      name ← lift (terminal_name t);
      let value := if is_variable self t then "(String)" else "" in
      write 1 (name +:+ value +:+ ", // " +:+ repr_terminal t))
    (enumerate (terminals self)) ;;
  write 0 "}" ;;
  write 0 "" ;;
  write 0 "impl Token {" ;;
  write 1 "pub fn get_id(&self) -> TerminalId {" ;;
  write 2 "// This switch should be optimized away." ;;
  write 2 "match self {" ;;
  for_each (λ '(i, t),
      name ← lift (terminal_name t);
      let value := if is_variable self t then "(_)" else "" in
      write 3 ("Token::" +:+ name +:+ value +:+ " => TerminalId::" +:+ name +:+ ","))
    (enumerate (terminals self)) ;;
  write 2 "}" ;;
  write 1 "}" ;;
  write 0 "}" ;;
  write 0 "".

(** ["{},".format(state.action_row.get(t, "ERROR"))] *)
Definition action_cell (state : State) (t : Terminal) : string :=
  match Py.dict_get (action_row state) t with
  | Some a => pretty a +:+ ","
  | None => "ERROR,"
  end.

Definition actions (self : RustParserWriter) : Emit unit :=
  write 0 ("static ACTIONS: [i64; "
           +:+ Py.str_of_nat (length (states self) * length (terminals self))
           +:+ "] = [") ;;
  for_each (λ '(i, state),
      write 1 ("// " +:+ Py.str_of_nat i +:+ ". "
               +:+ (if String.eqb (traceback state) "" then "<empty>"
                    else traceback state)) ;;
      write 1 (join_with " " (map (action_cell state) (terminals self))) ;;
      if (i <? length (states self) - 1)%nat then write 0 "" else mret tt)
    (enumerate (states self)) ;;
  write 0 "];" ;;
  write 0 "".

(** ["{} and {} have the same camel-case spelling ({})".format(x, y, cc)] *)
Definition collision_message (x y : Ident) (cc : string) : string :=
  format_ident x +:+ " and " +:+ format_ident y
  +:+ " have the same camel-case spelling (" +:+ cc +:+ ")".

(** The body of the loop of [check_camel_case]; [seen] maps a camel-case
    spelling to the identity that produced it. *)
Definition check_camel_case_step (seen : list (string * Ident)) (nt : Ident)
  : Result (list (string * Ident)) :=
  cc ← nonterminal_to_camel nt;
  match Py.dict_get seen cc with
  | Some other => Raise (ValueError (collision_message other nt cc))
  | None => Ok (Py.dict_set seen cc nt)
  end.

Definition check_camel_case (self : RustParserWriter) : Emit unit :=
  lift (foldM check_camel_case_step [] (nonterminals self)) ;; mret tt.

Definition nonterminal_id (self : RustParserWriter) : Emit unit :=
  write 0 "#[derive(Clone, Copy, Debug, PartialEq)]" ;;
  write 0 "pub enum NonterminalId {" ;;
  for_each (λ '(i, nt),
      name ← lift (nonterminal_to_camel nt);
      write 1 (name +:+ " = " +:+ Py.str_of_nat i +:+ ","))
    (enumerate (nonterminals self)) ;;
  write 0 "}" ;;
  write 0 "".

(** ["{},".format(row.get(nt, 0))] *)
Definition goto_cell (state : State) (nt : Ident) : string :=
  match Py.dict_get (ctn_row state) nt with
  | Some target => Py.str_of_nat target +:+ ","
  | None => "0,"
  end.

Definition goto (self : RustParserWriter) : Emit unit :=
  write 0 ("static GOTO: [usize; "
           +:+ Py.str_of_nat (length (states self) * length (nonterminals self))
           +:+ "] = [") ;;
  for_each (λ state,
      write 1 (join_with " " (map (goto_cell state) (nonterminals self))))
    (states self) ;;
  write 0 "];" ;;
  write 0 "".

(** The steps of [emit] that read the method signatures and the types
    inferred by the [types] module, which is outside this file: they are
    parameters here. *)
Record TypedSteps : Type := mkTypedSteps {
  handler_trait : RustParserWriter → Emit unit;
  nt_node : RustParserWriter → Emit unit;
  nt_node_impl : RustParserWriter → Emit unit;
  reduce : RustParserWriter → bool → Emit unit;
  entry : RustParserWriter → bool → Emit unit
}.

(** The steps of [emit] before [check_camel_case]. *)
Definition emit_prelude (self : RustParserWriter) : Emit unit :=
  header ;;
  terminal_id self ;;
  token self ;;
  actions self.

(** The steps of [emit] after [check_camel_case]. *)
Definition emit_rest (later : TypedSteps) (self : RustParserWriter) : Emit unit :=
  handler_trait later self ;;
  nt_node later self ;;
  nt_node_impl later self ;;
  nonterminal_id self ;;
  goto self ;;
  reduce later self false ;;
  entry later self false.

Definition emit (later : TypedSteps) (self : RustParserWriter) : Emit unit :=
  emit_prelude self ;;
  check_camel_case self ;;
  emit_rest later self.

End Backend.

(** Two distinct members of [nts] have the same camel-case spelling. *)
Definition camel_collision (nts : list Ident) : Prop :=
  ∃ a b cc, a ∈ nts ∧ b ∈ nts ∧ a ≠ b
            ∧ nonterminal_to_camel a = Ok cc ∧ nonterminal_to_camel b = Ok cc.

(** Every identity has a spelling (its name is a string). *)
Definition all_spelled (nts : list Ident) : Prop :=
  Forall (λ nt, ∃ cc, nonterminal_to_camel nt = Ok cc) nts.

(** The text of one [self.write(indentation, ...)]. *)
Definition line (indentation : nat) (text : string) : string :=
  indent indentation +:+ text +:+ String Py.newline "".

End emit.

(** * Theorems *)

Module LookaheadFacts.
Import grammar.

Example intersect_pos_neg :
  lookahead_intersect (Some (mkLookaheadRule {["a"; "b"]} true))
                      (Some (mkLookaheadRule {["b"]} false))
  = Some (mkLookaheadRule {["a"]} true).
Proof. reflexivity. Qed.

(** C2. [lookahead_intersect] has [None] as identity on both sides; two
    positive rules give the positive rule over the intersection; a positive
    and a negative rule, in either order, give the positive rule over the
    positive set minus the negative set; two negative rules give the
    negative rule over the union of the exclusion sets. *)
Theorem lookahead_intersect_laws :
  (∀ R : LookaheadRule,
      lookahead_intersect (Some R) None = Some R
      ∧ lookahead_intersect None (Some R) = Some R)
  ∧ (∀ A B : gset string,
      lookahead_intersect (Some (mkLookaheadRule A true))
                          (Some (mkLookaheadRule B true))
      = Some (mkLookaheadRule (A ∩ B) true))
  ∧ (∀ P N : gset string,
      lookahead_intersect (Some (mkLookaheadRule P true))
                          (Some (mkLookaheadRule N false))
      = Some (mkLookaheadRule (P ∖ N) true)
      ∧ lookahead_intersect (Some (mkLookaheadRule N false))
                            (Some (mkLookaheadRule P true))
        = Some (mkLookaheadRule (P ∖ N) true))
  ∧ (∀ A B : gset string,
      lookahead_intersect (Some (mkLookaheadRule A false))
                          (Some (mkLookaheadRule B false))
      = Some (mkLookaheadRule (A ∪ B) false)).
Proof. repeat split. Qed.

(** C10. The composed restriction admits a terminal exactly when both
    inputs admit it. *)
Theorem lookahead_intersect_contains (a b : option LookaheadRule) (t : string) :
  lookahead_contains (lookahead_intersect a b) t = true
  ↔ lookahead_contains a t = true ∧ lookahead_contains b t = true.
Proof.
  destruct a as [[A pa]|], b as [[B pb]|]; simpl; [|tauto..].
  destruct pa, pb; simpl;
    rewrite ?negb_true_iff, ?bool_decide_eq_true, ?bool_decide_eq_false.
  - apply elem_of_intersection.
  - apply elem_of_difference.
  - rewrite elem_of_difference. tauto.
  - rewrite not_elem_of_union. tauto.
Qed.

End LookaheadFacts.

(** ** Facts about the error monad *)

Lemma bind_Ok_inv {A B} (m : Result A) (f : A → Result B) (b : B) :
  m ≫= f = Ok b → ∃ a, m = Ok a ∧ f a = Ok b.
Proof. destruct m as [a|e]; simpl; [eauto | discriminate]. Qed.

Lemma bind_Raise_l {A B} (m : Result A) (f : A → Result B) e :
  m = Raise e → m ≫= f = Raise e.
Proof. now intros ->. Qed.

Lemma raises_Raise {A} e : raises (@Raise A e).
Proof. now exists e. Qed.

Lemma not_Ok_raises {A} (m : Result A) : (∀ a, m ≠ Ok a) → raises m.
Proof. destruct m as [a|e]; [intros H; now destruct (H a) | intros _; apply raises_Raise]. Qed.

Lemma raises_not_Ok {A} (m : Result A) a : raises m → m ≠ Ok a.
Proof. intros [e ->]; discriminate. Qed.

Lemma mapM_Ok_Forall2 {A B} (f : A → Result B) xs ys :
  mapM f xs = Ok ys → Forall2 (λ x y, f x = Ok y) xs ys.
Proof.
  revert ys; induction xs as [|x xs IH]; simpl; intros ys H.
  - injection H as <-; constructor.
  - apply bind_Ok_inv in H as (y & Hy & H).
    apply bind_Ok_inv in H as (ys' & Hys & H).
    injection H as <-. constructor; auto.
Qed.

Lemma mapM_Ok_intro {A B} (f : A → Result B) xs ys :
  Forall2 (λ x y, f x = Ok y) xs ys → mapM f xs = Ok ys.
Proof. induction 1 as [|x y xs ys Hx _ IH]; simpl; [easy | now rewrite Hx, IH]. Qed.

Module DesugarerFacts.
Import grammar parse_esgrammar.

Lemma needs_asi_true lhs p :
  needs_asi lhs p = true
  ↔ (1 < length (body p))%nat
    ∧ last (body p) = Some (EStr ";")
    ∧ fst lhs ≠ "ForLexicalDeclaration".
Proof.
  unfold needs_asi.
  rewrite !andb_true_iff, negb_true_iff, String.eqb_neq, Nat.ltb_lt,
    bool_decide_eq_true.
  tauto.
Qed.

Lemma to_production_body lhs i rhs sole p :
  to_production lhs i rhs sole = Ok p →
  body p = fst (fst rhs) ∧ condition p = snd rhs.
Proof.
  destruct rhs as [[b r] c]; unfold to_production; intros H.
  apply bind_Ok_inv in H as (r' & _ & H). injection H as <-. easy.
Qed.

Lemma asi_code_do_while b : do_while_shape b → asi_code b = "do_while_asi".
Proof. intros (s & e & ->). reflexivity. Qed.

Lemma asi_code_generic b : ¬ do_while_shape b → asi_code b = "asi".
Proof.
  intros Hn. unfold asi_code.
  destruct (_ && _) eqn:E; [|reflexivity].
  exfalso; apply Hn.
  rewrite !andb_true_iff in E. destruct E as (((((Hl & H0) & H2) & H3) & H5) & H6).
  apply Nat.eqb_eq in Hl.
  unfold body_is in *. rewrite bool_decide_eq_true in H0, H2, H3, H5, H6.
  do 8 (destruct b as [|? b]; try discriminate).
  simpl in *. exists e0, e3. repeat f_equal; congruence.
Qed.

Lemma apply_asi_CallMethod p auto m args :
  reducer p = CallMethod m args →
  apply_asi p auto =
    let r := if auto then CallMethod m (removelast args) else reducer p in
    Ok [ mkProduction (body p) r (condition p);
         mkProduction (removelast (body p) ++ [ErrorSymbol (asi_code (body p))])%list
                      r (condition p) ].
Proof. unfold apply_asi. intros ->. reflexivity. Qed.

Lemma apply_asi_not_CallMethod p auto :
  (∀ m args, reducer p ≠ CallMethod m args) → raises (apply_asi p auto).
Proof.
  unfold apply_asi. destruct (reducer p); intros H; try apply raises_Raise.
  now destruct (H method args).
Qed.

(** C3 (as amended). A fragment is ASI-split exactly when its body has more
    than one element, ends in the terminal [;] and its left-hand side is not
    [ForLexicalDeclaration].  An unsplit fragment contributes its production
    alone.  A split production whose reducer is a [CallMethod] contributes
    exactly two productions: one with the original body and condition, and a
    fallback whose trailing [;] is replaced by [ErrorSymbol(code)], both with
    the same reducer (the original one, or, when it was auto-inferred, the
    original with its last argument dropped); [code] is [do_while_asi] for
    the 7-element shape [do _ while ( _ ) ;] and [asi] otherwise. *)
Theorem asi_split_spec lhs sole i rhs p :
  to_production lhs i rhs sole = Ok p →
  (needs_asi lhs p = true
   ↔ (1 < length (fst (fst rhs)))%nat
     ∧ last (fst (fst rhs)) = Some (EStr ";")
     ∧ fst lhs ≠ "ForLexicalDeclaration")
  ∧ (needs_asi lhs p = false → nt_def_step lhs sole i rhs = Ok [p])
  ∧ (needs_asi lhs p = true →
     ∀ m args, reducer p = CallMethod m args →
     ∃ r code,
       nt_def_step lhs sole i rhs =
         Ok [ mkProduction (body p) r (condition p);
              mkProduction (removelast (body p) ++ [ErrorSymbol code])%list
                           r (condition p) ]
       ∧ r = (if was_autogenerated rhs then CallMethod m (removelast args)
              else reducer p)
       ∧ (do_while_shape (body p) → code = "do_while_asi")
       ∧ (¬ do_while_shape (body p) → code = "asi")).
Proof.
  intros Hp. pose proof (to_production_body _ _ _ _ _ Hp) as [Hb _].
  split; [rewrite <- Hb; apply needs_asi_true|].
  unfold nt_def_step. rewrite Hp. simpl.
  split; [intros ->; reflexivity|].
  intros -> m args Hr.
  rewrite (apply_asi_CallMethod _ _ _ _ Hr). simpl.
  eexists _, (asi_code (body p)). split; [reflexivity|].
  split; [reflexivity|].
  split; [apply asi_code_do_while | apply asi_code_generic].
Qed.

(** C3, counterexample.  For the fragment [a ;] of [S] with no written
    reducer, the production before splitting carries [S($0, $1)], and the
    split does not keep it: no output of the form "the original, then a
    fallback" is produced. *)
Lemma asi_split_drops_original :
  let lhs : Lhs := ("S", []) in
  let rhs : Fragment := ([EStr "a"; EStr ";"], ANone, None) in
  let p := mkProduction [EStr "a"; EStr ";"]
                        (CallMethod "S" [AInt 0; AInt 1]) None in
  to_production lhs 0 rhs true = Ok p
  ∧ needs_asi lhs p = true
  ∧ ¬ (∃ fallback, nt_def_step lhs true 0 rhs = Ok [p; fallback]).
Proof.
  simpl. split; [reflexivity|]. split; [reflexivity|].
  intros [fb H]. vm_compute in H. discriminate H.
Qed.

Lemma asi_split_spec_witness :
  let lhs : Lhs := ("DoWhile", []) in
  let rhs : Fragment :=
    ([EStr "do"; EStr "Statement"; EStr "while"; EStr "(";
      EStr "Expression"; EStr ")"; EStr ";"], ANone, None) in
  ∃ r, nt_def_step lhs true 0 rhs =
    Ok [ mkProduction (fst (fst rhs)) r None;
         mkProduction [EStr "do"; EStr "Statement"; EStr "while"; EStr "(";
                       EStr "Expression"; EStr ")"; ErrorSymbol "do_while_asi"]
                      r None ].
Proof.
  simpl.
  destruct (asi_split_spec ("DoWhile", []) true 0
              ([EStr "do"; EStr "Statement"; EStr "while"; EStr "(";
                EStr "Expression"; EStr ")"; EStr ";"], ANone, None)
              _ eq_refl) as (_ & _ & H).
  destruct (H eq_refl _ _ eq_refl) as (r & code & Hstep & _ & Hdw & _).
  exists r. rewrite Hstep. simpl.
  rewrite (Hdw (ex_intro _ _ (ex_intro _ _ eq_refl))). reflexivity.
Defined.

Lemma is_matched_pair_loop_Some groups lhs_name s :
  ∃ b, is_matched_pair_loop groups lhs_name (Some s) = Ok b
       ∧ (b = true ↔ ∃ g, g ∈ groups ∧ g lhs_name = true ∧ g s = true).
Proof.
  induction groups as [|g groups (b & Hb & IH)]; simpl.
  - exists false. split; [reflexivity|]. split; [discriminate|].
    intros (g & Hg & _). inversion Hg.
  - destruct (g lhs_name) eqn:El; [destruct (g s) eqn:Es|].
    + exists true. split; [reflexivity|]. split; [|reflexivity].
      intros _. exists g. split; [left|]; auto.
    + exists b. split; [exact Hb|]. rewrite IH. split.
      * intros (h & Hh & H). exists h. split; [right|]; auto.
      * intros (h & Hh & H1 & H2). inversion Hh; subst; [congruence|].
        exists h; auto.
    + exists b. split; [exact Hb|]. rewrite IH. split.
      * intros (h & Hh & H). exists h. split; [right|]; auto.
      * intros (h & Hh & H1 & H2). inversion Hh; subst; [congruence|].
        exists h; auto.
Qed.

Lemma is_matched_pair_loop_unmatched groups lhs_name subject :
  (∀ g, g ∈ groups → g lhs_name = false) →
  is_matched_pair_loop groups lhs_name subject = Ok false.
Proof.
  induction groups as [|g groups IH]; simpl; intros H; [reflexivity|].
  rewrite (H g) by left. apply IH. intros h Hh. apply H. now right.
Qed.

Lemma concrete_len_single e :
  concrete_len [e] = if is_concrete_element e then 1%nat else 0%nat.
Proof.
  unfold concrete_len. rewrite filter_cons, filter_nil.
  destruct (decide _) as [H|H]; destruct (is_concrete_element e);
    simpl; congruence.
Qed.

Lemma default_reducer_call lhs i b sole :
  (∀ e, b ≠ [e]) →
  default_reducer lhs i b sole =
    Ok (CallMethod (default_method_name lhs i sole) (range_args (concrete_len b))).
Proof.
  intros H. unfold default_reducer, default_method_name.
  destruct b as [|e [|e' b]]; try reflexivity. now destruct (H e).
Qed.

(** C4, counterexample.  In [Statement : [lookahead ∉ {}] IfStatement] the
    body has exactly one element that contributes a stack value, and both
    names end in [Statement]; the inferred reducer is nevertheless the
    method call, because the body has two elements. *)
Lemma default_reducer_lookahead_prefix :
  let lhs : Lhs := ("Statement", []) in
  let b := [ELookahead (mkLookaheadRule ∅ false); EStr "IfStatement"] in
  spec_identity_condition lhs b
  ∧ default_reducer lhs 0 b true = Ok (CallMethod "Statement" [AInt 0])
  ∧ default_reducer lhs 0 b true ≠ Ok (AInt 0).
Proof.
  simpl. split; [|split; [reflexivity|discriminate]].
  exists (EStr "IfStatement"), "IfStatement".
  split; [reflexivity|]. split; [reflexivity|].
  exists group_statement. split; [|split; reflexivity].
  unfold PRODUCTION_GROUPS. right; left.
Qed.

(** C4 (as amended).  Provided a one-element body whose element contributes
    a stack value is a symbol name or an [Nt] (or no production group matches
    the left-hand name), the inferred reducer is [0] exactly when the body
    consists of exactly one element, that element contributes a stack value,
    and the left-hand name and the element's name match the same production
    group; in every other case it is [CallMethod] over [(0, ..., nargs-1)]
    named after the nonterminal alone for a sole production and after the
    nonterminal, a space and the production index otherwise. *)
Theorem default_reducer_spec lhs i b sole :
  (∀ e, b = [e] → is_concrete_element e = true →
        is_Some (search_subject e)
        ∨ ∀ g, g ∈ PRODUCTION_GROUPS → g (fst lhs) = false) →
  (default_reducer lhs i b sole = Ok (AInt 0) ↔ identity_condition lhs b)
  ∧ (¬ identity_condition lhs b →
     default_reducer lhs i b sole =
       Ok (CallMethod (default_method_name lhs i sole)
                      (range_args (concrete_len b)))).
Proof.
  intros Hnamed.
  assert (Hcases :
    (identity_condition lhs b ∧ default_reducer lhs i b sole = Ok (AInt 0))
    ∨ (¬ identity_condition lhs b
       ∧ default_reducer lhs i b sole =
           Ok (CallMethod (default_method_name lhs i sole)
                          (range_args (concrete_len b))))).
  { destruct b as [|e [|e' b]].
    - right. split; [intros (e & s & H & _); discriminate|].
      now apply default_reducer_call.
    - unfold default_reducer. rewrite concrete_len_single.
      fold (default_method_name lhs i sole).
      destruct (is_concrete_element e) eqn:Ec; simpl.
      + destruct (Hnamed e eq_refl Ec) as [[s Hs]|Hun].
        * unfold is_matched_pair. rewrite Hs.
          destruct (is_matched_pair_loop_Some PRODUCTION_GROUPS (fst lhs) s)
            as (m & -> & Hm). simpl.
          destruct m.
          -- left. split; [|reflexivity].
             exists e, s. repeat split; auto. now apply Hm.
          -- right. split; [|reflexivity].
             intros (e0 & s0 & [= <-] & _ & Hs0 & Hg).
             rewrite Hs in Hs0; injection Hs0 as <-.
             apply Hm in Hg. discriminate.
        * unfold is_matched_pair.
          rewrite (is_matched_pair_loop_unmatched _ _ _ Hun). simpl.
          right. split; [|reflexivity].
          intros (e0 & s0 & _ & _ & _ & g & Hg & Hl & _).
          rewrite (Hun g Hg) in Hl. discriminate.
      + right. split; [|reflexivity].
        intros (e0 & s0 & [= <-] & Hc & _). congruence.
    - right. split; [intros (e0 & s & H & _); discriminate|].
      now apply default_reducer_call. }
  split.
  - destruct Hcases as [[Hid ->]|[Hn ->]]; split; auto; try discriminate.
    intros; contradiction.
  - intros Hn. destruct Hcases as [[Hid _]|[_ H]]; [contradiction|exact H].
Qed.

Lemma default_reducer_spec_witness :
  default_reducer ("Expression", []) 0 [EStr "PrimaryExpression"] true
  = Ok (AInt 0).
Proof.
  apply (default_reducer_spec ("Expression", []) 0 [EStr "PrimaryExpression"] true).
  - intros e [= <-] _. left. now exists "PrimaryExpression".
  - exists (EStr "PrimaryExpression"), "PrimaryExpression".
    repeat split. exists group_expression.
    split; [left|split; reflexivity].
Defined.

Lemma to_production_autogenerated lhs i rhs sole p :
  to_production lhs i rhs sole = Ok p →
  was_autogenerated rhs = true →
  (1 < length (body p))%nat →
  reducer p = CallMethod (default_method_name lhs i sole)
                         (range_args (concrete_len (body p))).
Proof.
  destruct rhs as [[b r] c]. unfold was_autogenerated, to_production. simpl.
  intros H Hr Hlen. destruct r; try discriminate Hr.
  apply bind_Ok_inv in H as (r & Hd & [= <-]). simpl in *.
  rewrite default_reducer_call in Hd; [congruence|].
  intros e ->. simpl in Hlen. lia.
Qed.

Lemma needs_asi_fallback lhs b r c code :
  needs_asi lhs (mkProduction (removelast b ++ [ErrorSymbol code])%list r c) = false.
Proof.
  unfold needs_asi. simpl. rewrite last_snoc.
  rewrite bool_decide_eq_false_2 by discriminate.
  apply andb_false_r.
Qed.

(** C5, counterexample.  The first of the two alternatives produced for
    [S : a ;] still ends in [;], so running the splitter on it splits it
    again. *)
Lemma asi_first_alternative_resplit :
  let lhs : Lhs := ("S", []) in
  ∃ q1 q2 r1 r2,
    nt_def_step lhs true 0 ([EStr "a"; EStr ";"], ANone, None) = Ok [q1; q2]
    ∧ needs_asi lhs q1 = true
    ∧ nt_def_step lhs true 0 (body q1, reducer q1, condition q1) = Ok [r1; r2].
Proof. simpl. do 4 eexists. repeat split. Qed.

(** C5 (as amended).  For a production that [needs_asi] accepts and whose
    reducer was auto-inferred or is a written [CallMethod], the split yields
    exactly two productions carrying one and the same reducer (an
    auto-inferred reducer with its last argument dropped, a written one
    unchanged); the splitter applied to the fallback alternative does not
    split it again, while the first alternative keeps its trailing [;] and
    is still accepted by [needs_asi]. *)
Theorem asi_split_shared_reducer lhs sole i rhs p :
  to_production lhs i rhs sole = Ok p →
  needs_asi lhs p = true →
  (was_autogenerated rhs = true ∨ ∃ m args, reducer p = CallMethod m args) →
  ∃ q1 q2 m args,
    nt_def_step lhs sole i rhs = Ok [q1; q2]
    ∧ reducer p = CallMethod m args
    ∧ reducer q1 = reducer q2
    ∧ reducer q1 = (if was_autogenerated rhs
                    then CallMethod m (removelast args) else reducer p)
    ∧ needs_asi lhs q2 = false
    ∧ (∀ j s, nt_def_step lhs s j (body q2, reducer q2, condition q2) = Ok [q2])
    ∧ needs_asi lhs q1 = true.
Proof.
  intros Hp Hasi Hr.
  assert (∃ m args, reducer p = CallMethod m args) as (m & args & Hm).
  { destruct Hr as [Hauto|Hr]; [|exact Hr].
    apply needs_asi_true in Hasi as (Hlen & _).
    eauto using to_production_autogenerated. }
  unfold nt_def_step at 1. rewrite Hp. simpl. rewrite Hasi.
  rewrite (apply_asi_CallMethod _ _ _ _ Hm). simpl.
  do 4 eexists. split; [reflexivity|]. simpl.
  split; [exact Hm|]. split; [reflexivity|]. split; [reflexivity|].
  split; [apply needs_asi_fallback|]. split; [|exact Hasi].
  intros j s. unfold nt_def_step, to_production. simpl.
  destruct (was_autogenerated rhs); [|rewrite Hm]; simpl;
    now rewrite needs_asi_fallback.
Qed.

Lemma asi_split_shared_reducer_witness :
  ∃ q1 q2,
    nt_def_step ("S", []) true 0 ([EStr "a"; EStr ";"], ANone, None) = Ok [q1; q2]
    ∧ reducer q1 = reducer q2
    ∧ needs_asi ("S", []) q2 = false.
Proof.
  destruct (asi_split_shared_reducer ("S", []) true 0
              ([EStr "a"; EStr ";"], ANone, None) _ eq_refl eq_refl
              (or_introl eq_refl))
    as (q1 & q2 & m & args & H1 & _ & H2 & _ & H3 & _).
  exists q1, q2. auto.
Defined.

End DesugarerFacts.

Module DictFacts.
Import Py.

Section Dict.
Context {K V : Type} `{EqDecision K}.
Implicit Types (d : list (K * V)) (k : K) (v : V).

Lemma dict_get_None d k : dict_get d k = None ↔ k ∉ dict_keys d.
Proof.
  induction d as [|[k' v'] d IH]; simpl.
  - split; [intros _ H'; inversion H'|reflexivity].
  - rewrite not_elem_of_cons. destruct (decide (k' = k)) as [->|Hne].
    + split; [discriminate|intros [? _]; congruence].
    + rewrite IH. split; [intros ?; split; congruence|tauto].
Qed.

Lemma dict_mem_false d k : dict_mem d k = false ↔ k ∉ dict_keys d.
Proof.
  unfold dict_mem. rewrite <- dict_get_None.
  destruct (dict_get d k); split; congruence.
Qed.

Lemma dict_mem_true d k : dict_mem d k = true ↔ k ∈ dict_keys d.
Proof.
  destruct (dict_mem d k) eqn:E.
  - split; [intros _|reflexivity].
    destruct (decide (k ∈ dict_keys d)) as [|Hn]; [assumption|].
    apply dict_mem_false in Hn. congruence.
  - apply dict_mem_false in E. split; [discriminate|contradiction].
Qed.

Lemma dict_set_fresh d k v : k ∉ dict_keys d → dict_set d k v = (d ++ [(k, v)])%list.
Proof.
  induction d as [|[k' v'] d IH]; simpl; [reflexivity|].
  rewrite not_elem_of_cons. intros [Hne Hd].
  destruct (decide (k' = k)); [congruence|]. now rewrite IH.
Qed.

Lemma dict_keys_app d1 d2 : dict_keys (d1 ++ d2)%list = (dict_keys d1 ++ dict_keys d2)%list.
Proof. unfold dict_keys. apply map_app. Qed.

Lemma dict_get_In d k v :
  NoDup (dict_keys d) → (k, v) ∈ d → dict_get d k = Some v.
Proof.
  induction d as [|[k' v'] d IH]; simpl; intros Hnd Hin; [inversion Hin|].
  apply NoDup_cons in Hnd as [Hk Hnd].
  apply elem_of_cons in Hin as [[= <- <-]|Hin].
  - now rewrite decide_True.
  - destruct (decide (k' = k)) as [->|]; [|auto].
    exfalso. apply Hk. unfold dict_keys.
    apply (list_elem_of_fmap_2 fst) in Hin. exact Hin.
Qed.

Lemma dict_get_Some_In d k v : dict_get d k = Some v → (k, v) ∈ d.
Proof.
  induction d as [|[k' v'] d IH]; simpl; [discriminate|].
  destruct (decide (k' = k)) as [->|].
  - intros [= ->]. left.
  - intros. right. auto.
Qed.
Lemma dict_get_set d k v k' :
  dict_get (dict_set d k v) k' = if decide (k = k') then Some v else dict_get d k'.
Proof.
  induction d as [|[k0 v0] d IH]; simpl.
  - destruct (decide (k = k')); reflexivity.
  - destruct (decide (k0 = k)) as [->|Hne]; simpl.
    + destruct (decide (k = k')); reflexivity.
    + rewrite IH. destruct (decide (k0 = k')) as [->|]; [|reflexivity].
      now rewrite decide_False by congruence.
Qed.

End Dict.
End DictFacts.

Module FinishGrammarFacts.
Import grammar parse_esgrammar Py DictFacts.

Lemma dict_keys_markers nt_defs : dict_keys (markers nt_defs) = names nt_defs.
Proof. unfold dict_keys, markers, names. rewrite map_map. reflexivity. Qed.

Lemma nt_grammars_inv nt_defs : ∀ acc r,
  foldM nt_grammars_step acc nt_defs = Ok r →
  r = (acc ++ markers nt_defs)%list
  ∧ NoDup (names nt_defs)
  ∧ ∀ n, n ∈ names nt_defs → n ∉ dict_keys acc.
Proof.
  induction nt_defs as [|[[n e] d] nt_defs IH]; simpl; intros acc r H.
  - injection H as <-. rewrite app_nil_r. repeat split; [constructor|].
    intros n Hn; inversion Hn.
  - apply bind_Ok_inv in H as (acc' & Hstep & H).
    unfold nt_grammars_step in Hstep.
    destruct (dict_mem acc n) eqn:Em; [discriminate|]. injection Hstep as <-.
    apply dict_mem_false in Em. rewrite (dict_set_fresh _ _ _ Em) in H.
    apply IH in H as (-> & Hnd & Hfresh).
    split; [now rewrite <- app_assoc|].
    split.
    + apply NoDup_cons. split; [|exact Hnd].
      intros Hin. apply (Hfresh n Hin).
      rewrite dict_keys_app. apply elem_of_app. right. left.
    + intros m Hm. apply elem_of_cons in Hm as [->|Hm]; [exact Em|].
      intros Hacc. apply (Hfresh m Hm).
      rewrite dict_keys_app. apply elem_of_app. now left.
Qed.

Lemma nt_grammars_intro nt_defs : ∀ acc,
  NoDup (names nt_defs) →
  (∀ n, n ∈ names nt_defs → n ∉ dict_keys acc) →
  foldM nt_grammars_step acc nt_defs = Ok (acc ++ markers nt_defs)%list.
Proof.
  induction nt_defs as [|[[n e] d] nt_defs IH]; simpl; intros acc Hnd Hfresh.
  - now rewrite app_nil_r.
  - apply NoDup_cons in Hnd as [Hn Hnd].
    assert (Em : n ∉ dict_keys acc) by (apply Hfresh; left).
    unfold nt_grammars_step.
    rewrite (proj2 (dict_mem_false acc n) Em). simpl.
    rewrite (dict_set_fresh _ _ _ Em), IH; auto.
    + now rewrite <- app_assoc.
    + intros m Hm. rewrite dict_keys_app, elem_of_app.
      intros [Hacc|Hsing].
      * apply (Hfresh m); [now right|exact Hacc].
      * apply list_elem_of_singleton in Hsing as ->. contradiction.
Qed.

Lemma marker_lookup nt_defs n e d :
  NoDup (names nt_defs) → (n, e, d) ∈ nt_defs →
  dict_get (markers nt_defs) n = Some e.
Proof.
  intros Hnd Hin. apply dict_get_In.
  - now rewrite dict_keys_markers.
  - unfold markers. apply (list_elem_of_fmap_2 (λ t : NtTriple, (fst (fst t), snd (fst t)))) in Hin.
    exact Hin.
Qed.

Lemma goal_grammars_mem ng goals eqs g e :
  mapM (goal_grammar ng) goals = Ok eqs →
  g ∈ goals → dict_get ng g = Some e → e ∈ eqs.
Proof.
  intros Em Hg He. apply mapM_Ok_Forall2 in Em.
  induction Em as [|x y xs ys Hxy _ IH]; [inversion Hg|].
  apply elem_of_cons in Hg as [->|Hg].
  - unfold goal_grammar in Hxy. rewrite He in Hxy. injection Hxy as <-. left.
  - right. auto.
Qed.

Lemma select_grammar_mixed ng goals g1 g2 e1 e2 :
  g1 ∈ goals → g2 ∈ goals →
  dict_get ng g1 = Some e1 → dict_get ng g2 = Some e2 → e1 ≠ e2 →
  raises (select_grammar ng goals).
Proof.
  intros Hg1 Hg2 H1 H2 Hne. unfold select_grammar.
  destruct (mapM (goal_grammar ng) goals) as [eqs|e] eqn:Em; [|apply raises_Raise].
  simpl. pose proof (λ g e, goal_grammars_mem _ _ _ g e Em) as Hin.
  pose proof (Hin _ _ Hg1 H1) as He1. pose proof (Hin _ _ Hg2 H2) as He2.
  assert (S1 : e1 ∈ elements (list_to_set eqs : gset string))
    by (apply elem_of_elements, elem_of_list_to_set, He1).
  assert (S2 : e2 ∈ elements (list_to_set eqs : gset string))
    by (apply elem_of_elements, elem_of_list_to_set, He2).
  destruct (elements (list_to_set eqs : gset string)) as [|x [|y l]];
    [inversion S1| |apply raises_Raise].
  apply list_elem_of_singleton in S1, S2. congruence.
Qed.

Lemma finish_grammar_tables_mixed nt_defs goals g1 g2 e1 e2 d1 d2 :
  g1 ∈ goals → g2 ∈ goals →
  (g1, e1, d1) ∈ nt_defs → (g2, e2, d2) ∈ nt_defs → e1 ≠ e2 →
  raises (finish_grammar_tables nt_defs goals true).
Proof.
  intros Hg1 Hg2 Hd1 Hd2 Hne. unfold finish_grammar_tables.
  destruct (foldM nt_grammars_step [] nt_defs) as [ng|e] eqn:Eng;
    [|apply raises_Raise].
  apply nt_grammars_inv in Eng as (-> & Hnd & _). simpl.
  destruct goals as [|g goals]; [inversion Hg1|]. simpl.
  destruct (select_grammar_mixed (markers nt_defs) (g :: goals) g1 g2 e1 e2)
    as [e He]; eauto using marker_lookup.
  rewrite He. apply raises_Raise.
Qed.

Lemma select_grammar_single ng goals sel :
  goals ≠ [] → (∀ g, g ∈ goals → dict_get ng g = Some sel) →
  select_grammar ng goals = Ok sel.
Proof.
  intros Hne Hall. unfold select_grammar.
  assert (Hm : mapM (goal_grammar ng) goals = Ok (replicate (length goals) sel)).
  { clear Hne. induction goals as [|g goals IH]; [reflexivity|].
    cbn [mapM length replicate].
    assert (goal_grammar ng g = Ok sel) as ->
      by (unfold goal_grammar; rewrite (Hall g) by left; reflexivity).
    cbn [mbind Result_bind].
    rewrite IH; [reflexivity|]. intros h Hh. apply Hall. now right. }
  rewrite Hm. simpl.
  assert (Hs : (list_to_set (replicate (length goals) sel) : gset string) = {[sel]}).
  { destruct goals as [|g goals]; [congruence|]. clear.
    simpl. induction (length goals) as [|n IH]; simpl; [set_solver|].
    rewrite IH. set_solver. }
  rewrite Hs, elements_singleton. reflexivity.
Qed.

Lemma nonterminals_step_NtDef sel acc_n acc_v n e d :
  n ∉ dict_keys acc_n →
  nonterminals_step (Some sel) (acc_n, acc_v) (n, e, DefNt d)
  = if negb (String.eqb e sel) && String.eqb sel ":"
    then Ok (acc_n, acc_v ∪ {[n]})
    else Ok ((acc_n ++ [(n, DefNt d)])%list, acc_v).
Proof.
  intros En. unfold nonterminals_step.
  destruct (negb (String.eqb e sel) && String.eqb sel ":"); [reflexivity|].
  now rewrite (dict_set_fresh _ _ _ En).
Qed.

Lemma names_cons n e d nt_defs : names ((n, e, d) :: nt_defs) = n :: names nt_defs.
Proof. reflexivity. Qed.

Lemma nonterminals_loop sel nt_defs : ∀ acc_n acc_v,
  Forall is_NtDef nt_defs →
  NoDup (names nt_defs) →
  (∀ n, n ∈ names nt_defs → n ∉ dict_keys acc_n) →
  foldM (nonterminals_step (Some sel)) (acc_n, acc_v) nt_defs
  = Ok ((acc_n ++ kept_nonterminals sel nt_defs)%list,
        if String.eqb sel ":" then acc_v ∪ foreign_names sel nt_defs else acc_v).
Proof.
  unfold kept_nonterminals, foreign_names.
  induction nt_defs as [|[[n e] d] nt_defs IH]; intros acc_n acc_v Hdef Hnd Hfresh.
  - cbn [foldM]. destruct (String.eqb sel ":"); rewrite ?filter_nil;
      cbn [map]; rewrite app_nil_r; [|reflexivity].
    f_equal. f_equal. set_solver.
  - apply Forall_cons in Hdef as [[d' Hd] Hdef]. cbn [snd] in Hd; subst d.
    rewrite names_cons in Hnd, Hfresh.
    apply NoDup_cons in Hnd as [Hn Hnd].
    assert (En : n ∉ dict_keys acc_n) by (apply Hfresh; left).
    assert (Hfresh' : ∀ m, m ∈ names nt_defs → m ∉ dict_keys (acc_n ++ [(n, DefNt d')])%list).
    { intros m Hm. rewrite dict_keys_app, elem_of_app.
      intros [Hacc|Hs]; [apply (Hfresh m); [now right|exact Hacc]|].
      apply list_elem_of_singleton in Hs as ->. contradiction. }
    cbn [foldM]. rewrite (nonterminals_step_NtDef _ _ _ _ _ _ En).
    rewrite !filter_cons. cbn [fst snd].
    destruct (String.eqb sel ":") eqn:Esel.
    + destruct (String.eqb e sel) eqn:Ee; cbn [negb andb mbind Result_bind].
      * apply String.eqb_eq in Ee as ->.
        rewrite decide_True by reflexivity.
        rewrite decide_False by (intros H; now apply H).
        rewrite IH by auto.
        rewrite ?Esel. cbn [map fst snd]. now rewrite <- app_assoc.
      * apply String.eqb_neq in Ee.
        rewrite decide_False by exact Ee.
        rewrite decide_True by exact Ee.
        rewrite IH; auto.
        -- rewrite ?Esel. cbn [map fst snd list_to_set]. f_equal. f_equal.
           set_solver.
        -- intros m Hm. apply Hfresh. now right.
    + rewrite andb_false_r. cbn [mbind Result_bind].
      rewrite IH by auto.
      rewrite ?Esel. cbn [map fst snd]. now rewrite <- app_assoc.
Qed.

Lemma finish_grammar_tables_single nt_defs goals sel :
  goals ≠ [] →
  NoDup (names nt_defs) →
  Forall is_NtDef nt_defs →
  (∀ g, g ∈ goals → ∃ d, (g, sel, d) ∈ nt_defs) →
  finish_grammar_tables nt_defs goals true
  = Ok (kept_nonterminals sel nt_defs,
        if String.eqb sel ":" then foreign_names sel nt_defs else ∅).
Proof.
  intros Hne Hnd Hdef Hgoals. unfold finish_grammar_tables.
  rewrite (nt_grammars_intro nt_defs []) by (auto; intros n _ H; inversion H).
  cbn [mbind Result_bind app].
  destruct goals as [|g goals]; [congruence|]. cbn [length Nat.eqb].
  rewrite (select_grammar_single _ _ sel); [|discriminate|].
  - cbn [mbind Result_bind].
    rewrite nonterminals_loop; auto; [|intros n _ H; inversion H].
    simpl. destruct (String.eqb sel ":"); [|reflexivity].
    f_equal. f_equal. set_solver.
  - intros h Hh. destruct (Hgoals h Hh) as [d Hd]. eauto using marker_lookup.
Qed.

Lemma elem_of_foreign_names sel nt_defs n :
  n ∈ foreign_names sel nt_defs ↔ ∃ e d, (n, e, d) ∈ nt_defs ∧ e ≠ sel.
Proof.
  unfold foreign_names. rewrite elem_of_list_to_set, list_elem_of_fmap.
  split.
  - intros ([[m e] d] & -> & H). apply list_elem_of_filter in H as [He H].
    exists e, d. auto.
  - intros (e & d & H & He). exists (n, e, d). split; [reflexivity|].
    apply list_elem_of_filter. auto.
Qed.

(** C7, counterexample.  With the lexical goal [Tok] (marker [::]) the
    syntactic nonterminal [Stmt] (marker [:]) is not folded into the
    variable terminals: it is handed to the constructor as a nonterminal
    and the variable-terminal set is empty. *)
Lemma finish_grammar_lexical_goal_keeps_syntactic :
  let d := DefNt (mkNtDef [] [] None) in
  let nt_defs : list NtTriple := [("Tok", "::", d); ("Stmt", ":", d)] in
  ∃ variable_terminals : gset string,
    finish_grammar (λ n g v s, Ok (n, g, v, s)) nt_defs ["Tok"] tt true
    = Ok ([("Tok", d); ("Stmt", d)], ["Tok"], variable_terminals, tt)
    ∧ "Stmt" ∉ variable_terminals.
Proof. simpl. exists ∅. split; [reflexivity|set_solver]. Qed.

(** C7 (as amended).  For a non-empty goal list and [single_grammar] set
    (the default): when two goals are defined under different markers,
    [finish_grammar] raises an error that does not depend on the [Grammar]
    constructor, which is never reached; when the triples are [NtDef]s with
    distinct names and every goal is defined under the one marker [sel], the
    constructor is called with the goals unchanged and, if [sel] is [:], with
    exactly the nonterminals of other markers as variable terminals and the
    rest as nonterminals, while for any other [sel] every triple stays a
    nonterminal and the variable-terminal set is empty. *)
Theorem finish_grammar_spec {G S : Type} (nt_defs : list NtTriple)
        (goals : list string) (synthetic_terminals : S) :
  goals ≠ [] →
  (∀ g1 g2 e1 e2 d1 d2,
      g1 ∈ goals → g2 ∈ goals →
      (g1, e1, d1) ∈ nt_defs → (g2, e2, d2) ∈ nt_defs → e1 ≠ e2 →
      ∃ exc, ∀ Grammar : _ → _ → _ → _ → Result G,
        finish_grammar Grammar nt_defs goals synthetic_terminals true = Raise exc)
  ∧ (∀ sel,
      NoDup (names nt_defs) → Forall is_NtDef nt_defs →
      (∀ g, g ∈ goals → ∃ d, (g, sel, d) ∈ nt_defs) →
      (∀ Grammar : _ → _ → _ → _ → Result G,
          finish_grammar Grammar nt_defs goals synthetic_terminals true
          = Grammar (kept_nonterminals sel nt_defs) goals
                    (if String.eqb sel ":" then foreign_names sel nt_defs else ∅)
                    synthetic_terminals)
      ∧ (∀ n, n ∈ foreign_names sel nt_defs
              ↔ ∃ e d, (n, e, d) ∈ nt_defs ∧ e ≠ sel)
      ∧ (sel = ":" →
         ∀ n d, (n, d) ∈ kept_nonterminals sel nt_defs ↔ (n, sel, d) ∈ nt_defs)).
Proof.
  intros Hne. split.
  - intros g1 g2 e1 e2 d1 d2 Hg1 Hg2 Hd1 Hd2 He.
    destruct (finish_grammar_tables_mixed _ _ _ _ _ _ _ _ Hg1 Hg2 Hd1 Hd2 He)
      as [exc Hexc].
    exists exc. intros Grammar. unfold finish_grammar. now rewrite Hexc.
  - intros sel Hnd Hdef Hgoals. split; [|split].
    + intros Grammar. unfold finish_grammar.
      now rewrite (finish_grammar_tables_single _ _ sel).
    + intros n. apply elem_of_foreign_names.
    + intros -> n d. unfold kept_nonterminals. cbn [String.eqb Ascii.eqb].
      simpl. rewrite list_elem_of_fmap. split.
      * intros ([[m e] d'] & [= -> ->] & H).
        apply list_elem_of_filter in H as [He H]. simpl in He. now subst e.
      * intros H. exists (n, ":", d). split; [reflexivity|].
        apply list_elem_of_filter. auto.
Qed.

Lemma finish_grammar_spec_witness :
  let d := DefNt (mkNtDef [] [] None) in
  let nt_defs : list NtTriple := [("Stmt", ":", d); ("Tok", "::", d)] in
  finish_grammar (λ n g v s, Ok (n, g, v, s)) nt_defs ["Stmt"] tt true
  = Ok (kept_nonterminals ":" nt_defs, ["Stmt"], foreign_names ":" nt_defs, tt)
  ∧ "Tok" ∈ foreign_names ":" nt_defs.
Proof.
  simpl.
  pose (d := DefNt (mkNtDef [] [] None)).
  pose (nt_defs := [("Stmt", ":", d); ("Tok", "::", d)] : list NtTriple).
  assert (Hnd : NoDup (names nt_defs)).
  { apply NoDup_cons. split; [|apply NoDup_cons; split; [|constructor]].
    - intros H. apply list_elem_of_singleton in H. discriminate H.
    - intros H. inversion H. }
  assert (Hdef : Forall is_NtDef nt_defs).
  { repeat constructor; eexists; reflexivity. }
  assert (Hg : ∀ g, g ∈ ["Stmt"] → ∃ d0, (g, ":", d0) ∈ nt_defs).
  { intros g H. apply list_elem_of_singleton in H as ->. exists d. left. }
  destruct (finish_grammar_spec
              (G := (list (string * DefOrList) * list string * gset string * unit)%type)
              nt_defs ["Stmt"] tt
              ltac:(discriminate)) as [_ H].
  destruct (H ":" Hnd Hdef Hg) as (Hcall & Hmem & _).
  split.
  - exact (Hcall (λ n g v s, Ok (n, g, v, s))).
  - apply Hmem. exists "::", d. split; [right; left|discriminate].
Defined.

End FinishGrammarFacts.

Module EmitFacts.
Import grammar emit Py DictFacts.

Lemma ordered_set_add_NoDup {A} `{EqDecision A} (acc : list A) x :
  NoDup acc → NoDup (ordered_set_add acc x).
Proof.
  intros Hnd. unfold ordered_set_add. destruct (decide (x ∈ acc)); [exact Hnd|].
  apply NoDup_app. split; [exact Hnd|]. split.
  - intros y Hy Hs. apply list_elem_of_singleton in Hs as ->. contradiction.
  - apply NoDup_singleton.
Qed.

Lemma ordered_set_NoDup {A} `{EqDecision A} (xs : list A) : NoDup (ordered_set xs).
Proof.
  unfold ordered_set. generalize (NoDup_nil_2 (A := A)). generalize (@nil A).
  induction xs as [|x xs IH]; simpl; intros acc Hacc; [exact Hacc|].
  apply IH. now apply ordered_set_add_NoDup.
Qed.

Lemma RustParserWriter_init_NoDup vt sts :
  NoDup (nonterminals (RustParserWriter_init vt sts)).
Proof. apply ordered_set_NoDup. Qed.

Section Backend.
Variable hex_ERROR : string.
Variable unicodedata_name : ascii → Result string.
Variable repr_str : string → string.

Lemma check_camel_case_step_eq seen nt cc :
  nonterminal_to_camel nt = Ok cc →
  check_camel_case_step repr_str seen nt
  = match dict_get seen cc with
    | Some other => Raise (ValueError (collision_message repr_str other nt cc))
    | None => Ok (dict_set seen cc nt)
    end.
Proof. unfold check_camel_case_step. now intros ->. Qed.

Lemma check_loop_spec nts : ∀ seen done,
  (∀ cc x, dict_get seen cc = Some x → x ∈ done ∧ nonterminal_to_camel x = Ok cc) →
  (∀ x, x ∈ done → ∃ cc, nonterminal_to_camel x = Ok cc ∧ dict_get seen cc = Some x) →
  NoDup (done ++ nts) →
  all_spelled nts →
  match foldM (check_camel_case_step repr_str) seen nts with
  | Ok _ =>
      ∀ x y cc, x ∈ (done ++ nts)%list → y ∈ (done ++ nts)%list →
                nonterminal_to_camel x = Ok cc → nonterminal_to_camel y = Ok cc →
                x = y
  | Raise e =>
      ∃ x y cc, e = ValueError (collision_message repr_str x y cc)
                ∧ x ∈ (done ++ nts)%list ∧ y ∈ (done ++ nts)%list ∧ x ≠ y
                ∧ nonterminal_to_camel x = Ok cc ∧ nonterminal_to_camel y = Ok cc
  end.
Proof.
  induction nts as [|nt nts IH]; intros seen done Hinv Hcov Hnd Hsp.
  - simpl. rewrite app_nil_r. intros x y cc Hx Hy Hcx Hcy.
    destruct (Hcov x Hx) as (cx & Hcx' & Hgx). destruct (Hcov y Hy) as (cy & Hcy' & Hgy).
    assert (cx = cc) by congruence. assert (cy = cc) by congruence. subst.
    congruence.
  - apply Forall_cons in Hsp as [[cc Hcc] Hsp].
    cbn [foldM]. rewrite (check_camel_case_step_eq _ _ _ Hcc).
    destruct (dict_get seen cc) as [other|] eqn:Eg.
    + destruct (Hinv cc other Eg) as [Hod Hoc].
      exists other, nt, cc. split; [reflexivity|].
      split; [apply elem_of_app; now left|].
      split; [apply elem_of_app; right; left|].
      split; [|auto].
      intros ->. apply NoDup_app in Hnd as (_ & Hdisj & _).
      apply (Hdisj nt Hod). left.
    + cbn [mbind Result_bind].
      specialize (IH (dict_set seen cc nt) (done ++ [nt])%list).
      rewrite <- !app_assoc in IH. cbn [app] in IH.
      apply IH; auto.
      * intros c x. rewrite dict_get_set. destruct (decide (cc = c)) as [<-|Hne].
        -- intros [= <-]. split; [apply elem_of_app; right; left|exact Hcc].
        -- intros Hg. destruct (Hinv c x Hg). split; [apply elem_of_app; now left|auto].
      * intros x Hx. apply elem_of_app in Hx as [Hx|Hx].
        -- destruct (Hcov x Hx) as (c & Hc & Hg). exists c. split; [exact Hc|].
           rewrite dict_get_set. destruct (decide (cc = c)) as [<-|]; [congruence|exact Hg].
        -- apply list_elem_of_singleton in Hx as ->. exists cc. split; [exact Hcc|].
           rewrite dict_get_set. now rewrite decide_True.
Qed.

Lemma check_camel_case_collision self out :
  NoDup (nonterminals self) → all_spelled (nonterminals self) →
  camel_collision (nonterminals self) →
  ∃ x y cc,
    check_camel_case repr_str self out = (out, Raise (ValueError (collision_message repr_str x y cc)))
    ∧ x ∈ nonterminals self ∧ y ∈ nonterminals self ∧ x ≠ y
    ∧ nonterminal_to_camel x = Ok cc ∧ nonterminal_to_camel y = Ok cc.
Proof.
  intros Hnd Hsp (a & b & c & Ha & Hb & Hab & Hca & Hcb).
  pose proof (check_loop_spec (nonterminals self) [] []) as H.
  cbn [app] in H. unfold check_camel_case, lift.
  destruct (foldM (check_camel_case_step repr_str) [] (nonterminals self)) as [seen|e] eqn:E.
  - exfalso. apply Hab. apply (H ltac:(discriminate) ltac:(intros ? Hx; inversion Hx)
                                 Hnd Hsp a b c); auto.
  - destruct (H ltac:(discriminate) ltac:(intros ? Hx; inversion Hx) Hnd Hsp)
      as (x & y & cc & -> & Hx).
    exists x, y, cc. split; [|exact Hx].
    unfold mbind, Emit_bind. rewrite ?E. reflexivity.
Qed.

Lemma check_camel_case_distinct self out :
  NoDup (nonterminals self) → all_spelled (nonterminals self) →
  ¬ camel_collision (nonterminals self) →
  check_camel_case repr_str self out = (out, Ok tt).
Proof.
  intros Hnd Hsp Hno.
  pose proof (check_loop_spec (nonterminals self) [] []) as H.
  cbn [app] in H. unfold check_camel_case, lift.
  destruct (foldM (check_camel_case_step repr_str) [] (nonterminals self)) as [seen|e] eqn:E.
  - unfold mbind, Emit_bind. rewrite ?E. reflexivity.
  - destruct (H ltac:(discriminate) ltac:(intros ? Hx; inversion Hx) Hnd Hsp)
      as (x & y & cc & _ & Hx & Hy & Hxy & Hcx & Hcy).
    exfalso. apply Hno. exists x, y, cc. auto.
Qed.

End Backend.

Example foo_bar_spellings :
  nonterminal_to_camel (IdStr "Foo_Bar") = Ok "FooBar"
  ∧ nonterminal_to_camel (IdStr "FooBar") = Ok "FooBar".
Proof. split; reflexivity. Qed.

(** C8, counterexample.  For the states whose continuation row holds
    [Foo_Bar] and [FooBar], [emit] aborts with the error naming both, but the
    text written by then already holds the [TerminalId] and [Token]
    declarations: the check does not come before every declaration. *)
Lemma check_camel_case_after_terminal_declarations :
  let self := RustParserWriter_init ∅
                [mkState [] [(IdStr "Foo_Bar", 1%nat); (IdStr "FooBar", 2%nat)] ""] in
  let nop : RustParserWriter → Emit unit := λ _, mret tt in
  let later := mkTypedSteps nop nop nop (λ _ _, mret tt) (λ _ _, mret tt) in
  ∃ out,
    emit "-0x1" (λ _, Raise (ValueError "no such name")) (λ s, "'" +:+ s +:+ "'")
         later self []
    = (out, Raise (ValueError
                     "Foo_Bar and FooBar have the same camel-case spelling (FooBar)"))
    ∧ ("pub enum TerminalId {" +:+ String newline "") ∈ out
    ∧ ("pub enum Token {" +:+ String newline "") ∈ out.
Proof.
  simpl. eexists. split; [vm_compute; reflexivity|].
  split; apply list_elem_of_In; simpl; tauto.
Qed.

(** C8 (as amended).  [emit] runs [check_camel_case] after the header, the
    [TerminalId] and [Token] declarations and the [ACTIONS] table have been
    written and before every later step.  For the nonterminal identities
    collected from the states (each with a string name): when two distinct
    identities have the same camel-case spelling, [emit] stops there with a
    [ValueError] whose message names two distinct colliding identities and
    their common spelling, whatever the later steps are; when all spellings
    are pairwise distinct the check passes and emission goes on with the
    later steps. *)
Theorem check_camel_case_spec hex_ERROR unicodedata_name repr_str vt sts out out1 :
  let self := RustParserWriter_init vt sts in
  all_spelled (nonterminals self) →
  emit_prelude hex_ERROR unicodedata_name repr_str self out = (out1, Ok tt) →
  (camel_collision (nonterminals self) →
   ∃ x y cc,
     x ∈ nonterminals self ∧ y ∈ nonterminals self ∧ x ≠ y
     ∧ nonterminal_to_camel x = Ok cc ∧ nonterminal_to_camel y = Ok cc
     ∧ ∀ later,
         emit hex_ERROR unicodedata_name repr_str later self out
         = (out1, Raise (ValueError (collision_message repr_str x y cc))))
  ∧ (¬ camel_collision (nonterminals self) →
     ∀ later,
       emit hex_ERROR unicodedata_name repr_str later self out
       = emit_rest later self out1).
Proof.
  intros self Hsp Hpre.
  pose proof (RustParserWriter_init_NoDup vt sts) as Hnd. fold self in Hnd.
  split.
  - intros Hcol.
    destruct (check_camel_case_collision repr_str self out1 Hnd Hsp Hcol)
      as (x & y & cc & Hchk & Hx & Hy & Hxy & Hcx & Hcy).
    exists x, y, cc. repeat (split; [assumption|]).
    intros later. unfold emit, mbind, Emit_bind at 1. rewrite Hpre.
    unfold Emit_bind at 1. now rewrite Hchk.
  - intros Hno later.
    pose proof (check_camel_case_distinct repr_str self out1 Hnd Hsp Hno) as Hchk.
    unfold emit, mbind, Emit_bind at 1. rewrite Hpre.
    unfold Emit_bind at 1. now rewrite Hchk.
Qed.

Lemma check_camel_case_spec_witness :
  let self := RustParserWriter_init ∅
                [mkState [] [(IdStr "Foo_Bar", 1%nat); (IdStr "FooBar", 2%nat)] ""] in
  ∃ out1 msg, ∀ later,
    emit "-0x1" (λ _, Raise (ValueError "no such name")) (λ s, "'" +:+ s +:+ "'")
         later self []
    = (out1, Raise (ValueError msg)).
Proof.
  intros self.
  assert (Hsp : all_spelled (nonterminals self)).
  { repeat constructor; eexists; reflexivity. }
  assert (Hcol : camel_collision (nonterminals self)).
  { exists (IdStr "Foo_Bar"), (IdStr "FooBar"), "FooBar".
    split; [left|]. split; [right; left|]. split; [discriminate|].
    split; reflexivity. }
  destruct (emit_prelude "-0x1" (λ _, Raise (ValueError "no such name"))
              (λ s, "'" +:+ s +:+ "'") self []) as [out1 r] eqn:Hpre.
  assert (Hr : r = Ok tt) by (vm_compute in Hpre; congruence).
  subst r.
  destruct (check_camel_case_spec _ _ _ ∅ _ [] out1 Hsp Hpre) as [H _].
  destruct (H Hcol) as (x & y & cc & _ & _ & _ & _ & _ & Hemit).
  exists out1, (collision_message (λ s, "'" +:+ s +:+ "'") x y cc). exact Hemit.
Defined.

End EmitFacts.

Module PyFacts.
Import Py.

Lemma chars_append s t : chars (s +:+ t) = (chars s ++ chars t)%list.
Proof. unfold chars. induction s as [|c s IH]; simpl; [reflexivity|now rewrite IH]. Qed.

Lemma str_chars s : str (chars s) = s.
Proof. apply string_of_list_ascii_of_string. Qed.

Lemma chars_str l : chars (str l) = l.
Proof. apply list_ascii_of_string_of_list_ascii. Qed.

Lemma identifier_char_not_space c :
  is_alpha c || is_digit c || is_underscore c = true → Ascii.eqb c " " = false.
Proof.
  intros H. destruct (Ascii.eqb_spec c " ") as [->|]; [|reflexivity].
  vm_compute in H. discriminate.
Qed.

Lemma isidentifier_no_space s :
  isidentifier s = true → forallb (λ c, negb (Ascii.eqb c " ")) (chars s) = true.
Proof.
  unfold isidentifier. destruct (chars s) as [|c rest]; [discriminate|].
  rewrite andb_true_iff. intros [Hc Hrest]. simpl. apply andb_true_iff. split.
  - rewrite identifier_char_not_space; [reflexivity|].
    apply orb_true_iff in Hc as [->| ->]; [reflexivity|apply orb_true_r].
  - apply forallb_forall. intros d Hd.
    rewrite forallb_forall in Hrest. rewrite identifier_char_not_space; auto.
Qed.

Lemma partition_chars_at_space a b :
  forallb (λ c, negb (Ascii.eqb c " ")) a = true →
  partition_chars (a ++ " "%char :: b) = (a, [" "%char], b).
Proof.
  induction a as [|c a IH]; simpl; [reflexivity|].
  rewrite andb_true_iff, negb_true_iff. intros [-> Ha]. now rewrite IH.
Qed.

Lemma partition_space_at_space s d :
  isidentifier s = true →
  partition_space (s +:+ " " +:+ d) = (s, " ", d).
Proof.
  intros Hs. unfold partition_space.
  rewrite !chars_append. change (chars " ") with [" "%char]. cbn [app].
  rewrite (partition_chars_at_space _ _ (isidentifier_no_space _ Hs)).
  now rewrite !str_chars.
Qed.

Lemma pretty_N_char_digit x : is_digit (pretty_N_char x) = true.
Proof. unfold pretty_N_char. repeat case_match; reflexivity. Qed.

Lemma pretty_N_go_digits x : ∀ s,
  forallb is_digit (chars s) = true →
  forallb is_digit (chars (pretty_N_go x s)) = true.
Proof.
  induction (N.lt_wf_0 x) as [x _ IH]. intros s Hs.
  assert (x = 0 ∨ 0 < x)%N as [->|Hx] by lia.
  - now rewrite pretty_N_go_0.
  - rewrite pretty_N_go_step by exact Hx. apply IH.
    + now apply N.div_lt.
    + simpl. now rewrite pretty_N_char_digit.
Qed.

Lemma pretty_N_go_nonempty x : ∀ s, s ≠ "" → pretty_N_go x s ≠ "".
Proof.
  induction (N.lt_wf_0 x) as [x _ IH]. intros s Hs.
  assert (x = 0 ∨ 0 < x)%N as [->|Hx] by lia.
  - now rewrite pretty_N_go_0.
  - rewrite pretty_N_go_step by exact Hx. apply IH; [now apply N.div_lt|discriminate].
Qed.

Lemma isdigit_str_of_nat i : isdigit (str_of_nat i) = true.
Proof.
  unfold str_of_nat, pretty, pretty_nat, pretty, pretty_N.
  destruct (decide (N.of_nat i = 0%N)) as [|Hne]; [reflexivity|].
  assert (Hd := pretty_N_go_digits (N.of_nat i) "" eq_refl).
  assert (Hn : pretty_N_go (N.of_nat i) "" ≠ "").
  { rewrite pretty_N_go_step by lia. apply pretty_N_go_nonempty. discriminate. }
  unfold isdigit. destruct (pretty_N_go (N.of_nat i) "") as [|c s] eqn:E;
    [congruence|exact Hd].
Qed.

End PyFacts.

Module GrammarFacts.
Import grammar Py DictFacts.

Lemma foldM_Ok_each {A S} (f : S → A → Result S) xs : ∀ s s',
  foldM f s xs = Ok s' → ∀ x, x ∈ xs → ∃ s1 s2, f s1 x = Ok s2.
Proof.
  induction xs as [|y xs IH]; simpl; intros s s' H x Hx; [inversion Hx|].
  apply bind_Ok_inv in H as (s1 & Hy & H).
  apply elem_of_cons in Hx as [->|Hx]; eauto.
Qed.

Lemma mapS_Ok_each {A B S} (f : A → S → Result (B * S)) xs : ∀ s r,
  mapS f xs s = Ok r → ∀ x, x ∈ xs → ∃ s1 r1, f x s1 = Ok r1.
Proof.
  induction xs as [|y xs IH]; simpl; intros s r H x Hx; [inversion Hx|].
  apply bind_Ok_inv in H as ([y' s1] & Hy & H).
  apply bind_Ok_inv in H as ([ys s2] & Hys & H).
  apply elem_of_cons in Hx as [->|Hx]; eauto.
Qed.

Lemma forM_Ok_each {A} (f : A → Result unit) xs :
  forM_ f xs = Ok tt → ∀ x, x ∈ xs → f x = Ok tt.
Proof.
  induction xs as [|y xs IH]; simpl; intros H x Hx; [inversion Hx|].
  apply bind_Ok_inv in H as ([] & Hy & H).
  apply elem_of_cons in Hx as [->|Hx]; auto.
Qed.

Lemma forM_Ok_intro {A} (f : A → Result unit) xs :
  (∀ x, x ∈ xs → f x = Ok tt) → forM_ f xs = Ok tt.
Proof.
  induction xs as [|y xs IH]; simpl; intros H; [reflexivity|].
  rewrite (H y) by left. simpl. apply IH. intros x Hx. apply H. now right.
Qed.

Lemma enumerate_mem {A} (l : list A) x : ∀ k,
  x ∈ l → ∃ i, (i, x) ∈ zip (seq k (length l)) l.
Proof.
  induction l as [|y l IH]; simpl; intros k Hx; [inversion Hx|].
  apply elem_of_cons in Hx as [->|Hx].
  - exists k. left.
  - destruct (IH (S k) Hx) as [i Hi]. exists i. now right.
Qed.

(** Induction on reduce expressions, through the argument lists. *)
Lemma Action_induction (P : Action → Prop) :
  (∀ n, P (AInt n)) →
  (∀ method args, Forall P args → P (CallMethod method args)) →
  P ANone →
  (∀ inner, P inner → P (ASome inner)) →
  P AAccept →
  ∀ a, P a.
Proof.
  intros Hint Hcall Hnone Hsome Hacc.
  fix IH 1. intros [n|method args| |inner|].
  - apply Hint.
  - apply Hcall. induction args as [|a args IHargs]; constructor; [apply IH|exact IHargs].
  - exact Hnone.
  - apply Hsome, IH.
  - exact Hacc.
Qed.

Lemma Action_eqb_eq a : ∀ b, Action_eqb a b = true ↔ a = b.
Proof.
  induction a as [n|method args IH| |inner IH|] using Action_induction;
    intros [m|method' args'| |inner'|]; simpl;
    try (split; [discriminate|congruence]); try tauto.
  - rewrite Z.eqb_eq. split; congruence.
  - rewrite andb_true_iff, String.eqb_eq.
    assert (Hargs :
      (fix all2 (xs ys : list Action) : bool :=
         match xs, ys with
         | [], [] => true
         | x :: xs', y :: ys' => Action_eqb x y && all2 xs' ys'
         | _, _ => false
         end) args args' = true ↔ args = args').
    { revert args'. induction IH as [|a args Ha _ IHargs]; intros [|b args'];
        try (split; [discriminate|congruence]); [tauto|].
      rewrite andb_true_iff, Ha, IHargs. split; [intros [-> ->]; reflexivity|].
      intros [= -> ->]. auto. }
    rewrite Hargs. split; [intros [-> ->]; reflexivity|intros [= -> ->]; auto].
  - rewrite IH. split; congruence.
Qed.

Lemma Action_eqb_accept a : Action_eqb a AAccept = true → a = AAccept.
Proof. apply Action_eqb_eq. Qed.

Lemma check_reduce_action_out_of_range rhs_body a :
  has_out_of_range_index rhs_body a = true →
  raises (check_reduce_action rhs_body a).
Proof.
  induction a as [n|method args IH| |inner IH|] using Action_induction;
    simpl; intros H; try discriminate.
  - apply negb_true_iff in H. rewrite H. apply raises_Raise.
  - destruct (check_method_name method) as [[]|e]; [|apply raises_Raise]. simpl.
    induction args as [|a args IHargs]; simpl in *; [discriminate|].
    apply Forall_cons in IH as [Ha IH].
    apply orb_true_iff in H as [H|H].
    + destruct (Ha H) as [e ->]. apply raises_Raise.
    + destruct (check_reduce_action rhs_body a) as [[]|e]; [|apply raises_Raise].
      simpl. auto.
  - auto.
Qed.

Lemma check_reduce_action_in_range rhs_body n :
  (0 ≤ n < Z.of_nat (concrete_len rhs_body))%Z →
  check_reduce_action rhs_body (AInt n) = Ok tt.
Proof.
  intros [H0 H1]. simpl.
  rewrite (proj2 (Z.leb_le 0 n) H0), (proj2 (Z.ltb_lt _ _) H1). reflexivity.
Qed.

Lemma validate_element_undefined nts ntp s2n e ctx ts :
  undefined_reference nts e → raises (validate_element nts ntp s2n e ctx ts).
Proof.
  intros (nt & He & Hk & Hn).
  apply dict_mem_false in Hk, Hn.
  assert (Huse : ∀ c, raises (validate_nt_use nts ntp nt c)).
  { intros c. unfold validate_nt_use. rewrite Hk, Hn. apply raises_Raise. }
  destruct He as [-> | ->]; simpl;
    destruct (Huse ctx) as [exc ->]; apply raises_Raise.
Qed.

Lemma copy_rhs_Ok_action nts ntp s2n nt sole ctx i p ts r :
  copy_rhs nts ntp s2n nt sole ctx (i, RProduction p) ts = Ok r →
  action p = AAccept ∨ check_reduce_action (body p) (action p) = Ok tt.
Proof.
  unfold copy_rhs. cbn [mbind Result_bind]. intros H.
  apply bind_Ok_inv in H as ([] & _ & H).
  apply bind_Ok_inv in H as ([] & Hact & _).
  destruct (Action_eqb (action p) AAccept) eqn:E.
  - left. now apply Action_eqb_accept.
  - right. exact Hact.
Qed.

Lemma copy_rhs_Ok_elements nts ntp s2n nt sole ctx i rhs ts r :
  copy_rhs nts ntp s2n nt sole ctx (i, rhs) ts = Ok r →
  ∀ e, e ∈ rhs_body rhs → ∃ ts1 r1, validate_element nts ntp s2n e ctx ts1 = Ok r1.
Proof.
  unfold copy_rhs. intros H e He.
  apply bind_Ok_inv in H as (p & Hp & H).
  assert (Hb : body p = rhs_body rhs).
  { destruct rhs as [l|q]; simpl in *.
    - apply bind_Ok_inv in Hp as (a & _ & [= <-]). reflexivity.
    - now injection Hp as <-. }
  apply bind_Ok_inv in H as ([] & _ & H).
  apply bind_Ok_inv in H as ([] & _ & H).
  apply bind_Ok_inv in H as ([b ts'] & Hm & _).
  rewrite Hb in Hm.
  apply (mapS_Ok_each _ _ _ _ Hm e He).
Qed.

Lemma validate_nt_Ok_rhs nts gs vt kan ntp s2n key value ts r :
  validate_nt nts gs vt kan ntp s2n (key, value) ts = Ok r →
  ∀ rhs, rhs ∈ raw_rhs_list value →
  ∃ sole ctx i ts1 r1, copy_rhs nts ntp s2n key sole ctx (i, rhs) ts1 = Ok r1.
Proof.
  unfold validate_nt. intros H rhs Hrhs.
  apply bind_Ok_inv in H as ([] & _ & H).
  apply bind_Ok_inv in H as ([] & _ & H).
  apply bind_Ok_inv in H as ([d ts'] & Hc & _).
  unfold copy_nt_def in Hc.
  apply bind_Ok_inv in Hc as ([l ts''] & Hm & _).
  destruct (enumerate_mem _ _ 0%nat Hrhs) as [i Hi].
  destruct (mapS_Ok_each _ _ _ _ Hm _ Hi) as (ts1 & r1 & H1).
  eauto 10.
Qed.

Section Construct.
Context {NtTypes Methods : Type}.
Variable infer_types :
  gset string → gset string → list (Key * NtDef) → Result (NtTypes * Methods).

Lemma Grammar_init_Ok_validate nts goal_nts vt type_info g :
  Grammar_init infer_types nts goal_nts vt type_info = Ok g →
  ∀ item, item ∈ nts →
  ∃ gs vts kan ntp s2n ts r, validate_nt nts gs vts kan ntp s2n item ts = Ok r.
Proof.
  unfold Grammar_init. intros H item Hitem.
  apply bind_Ok_inv in H as (first & _ & H).
  apply bind_Ok_inv in H as ([ntp s2n] & _ & H).
  apply bind_Ok_inv in H as ([acc ts] & Hv & _).
  destruct (foldM_Ok_each _ _ _ _ Hv item Hitem) as ([acc1 ts1] & s2 & Hs).
  unfold validate_step in Hs.
  apply bind_Ok_inv in Hs as (r & Hr & _). eauto 10.
Qed.

Lemma Grammar_init_Ok_copy_rhs nts goal_nts vt type_info g rhs :
  Grammar_init infer_types nts goal_nts vt type_info = Ok g →
  rhs_in nts rhs →
  ∃ ntp s2n key sole ctx i ts r, copy_rhs nts ntp s2n key sole ctx (i, rhs) ts = Ok r.
Proof.
  intros H (key & value & Hitem & Hrhs).
  destruct (Grammar_init_Ok_validate _ _ _ _ _ H _ Hitem)
    as (gs & vts & kan & ntp & s2n & ts & r & Hv).
  destruct (validate_nt_Ok_rhs _ _ _ _ _ _ _ _ _ _ Hv rhs Hrhs)
    as (sole & ctx & i & ts1 & r1 & Hc).
  eauto 10.
Qed.

(** C6.  Construction fails for every grammar with a production whose
    reduce action holds an integer reference, at the top or nested in
    [CallMethod] arguments or [Some], outside [0, n), where [n] counts the
    body elements other than lookahead rules and the error token; an integer
    reference inside the range passes [check_reduce_action]. *)
Theorem reduce_index_out_of_range_rejected nts goal_nts vt type_info p :
  rhs_in nts (RProduction p) →
  has_out_of_range_index (body p) (action p) = true →
  raises (Grammar_init infer_types nts goal_nts vt type_info)
  ∧ ∀ rhs_body n,
      (0 ≤ n < Z.of_nat (concrete_len rhs_body))%Z →
      check_reduce_action rhs_body (AInt n) = Ok tt.
Proof.
  intros Hin Hbad. split; [|apply check_reduce_action_in_range].
  apply not_Ok_raises. intros g Hg.
  destruct (Grammar_init_Ok_copy_rhs _ _ _ _ _ _ Hg Hin)
    as (ntp & s2n & key & sole & ctx & i & ts & r & Hc).
  apply copy_rhs_Ok_action in Hc as [Hacc|Hchk].
  - rewrite Hacc in Hbad. discriminate.
  - destruct (check_reduce_action_out_of_range _ _ Hbad) as [e He]. congruence.
Qed.

End Construct.

Lemma concrete_len_skips_lookahead_and_error r :
  concrete_len [ELookahead r; EStr "a"; ErrorToken] = 1%nat.
Proof. reflexivity. Qed.

Lemma reduce_index_out_of_range_rejected_witness :
  let p := mkProduction [ELookahead (mkLookaheadRule ∅ false); EStr "x"; ErrorToken]
                        (CallMethod "f" [ASome (AInt 1)]) None in
  raises (Grammar_init (λ _ _ _, Ok (tt, tt))
            [(KName (NameStr "a"), RawList [RProduction p])] None [] None).
Proof.
  intros p.
  apply (reduce_index_out_of_range_rejected (λ _ _ _, Ok (tt, tt))
           [(KName (NameStr "a"), RawList [RProduction p])] None [] None p).
  - exists (KName (NameStr "a")), (RawList [RProduction p]). split; left.
  - reflexivity.
Defined.

Section Validation.
Context {NtTypes Methods : Type}.
Variable infer_types :
  gset string → gset string → list (Key * NtDef) → Result (NtTypes * Methods).

Lemma undefined_reference_rejected nts goal_nts vt type_info rhs e :
  rhs_in nts rhs → e ∈ rhs_body rhs → undefined_reference nts e →
  raises (Grammar_init infer_types nts goal_nts vt type_info).
Proof.
  intros Hin He Hun. apply not_Ok_raises. intros g Hg.
  destruct (Grammar_init_Ok_copy_rhs _ _ _ _ _ _ _ Hg Hin)
    as (ntp & s2n & key & sole & ctx & i & ts & r & Hc).
  destruct (copy_rhs_Ok_elements _ _ _ _ _ _ _ _ _ _ Hc e He) as (ts1 & r1 & Hv).
  destruct (validate_element_undefined nts ntp s2n e ctx ts1 Hun) as [exc Hexc].
  congruence.
Qed.

End Validation.

(** C1, counterexample.  The grammar [a ::= x] with [a] also listed as a
    variable terminal has no nonterminal reference, no arguments and no
    reduce index, so it meets the three stated conditions; construction
    raises all the same. *)
Lemma well_formed_input_rejected :
  let nts := [(KName (NameStr "a"), RawList [RList [EStr "x"]])] in
  spec_well_formed nts
  ∧ Grammar_init (λ _ _ _, Ok (tt, tt)) nts (Some [GStr "a"]) ["a"] None
    = Raise (TypeError "invalid grammar: both a nonterminal and a variable terminal").
Proof.
  intros nts. split; [|reflexivity].
  assert (Hrhs : ∀ rhs, rhs_in nts rhs → rhs = RList [EStr "x"]).
  { intros rhs (key & value & Hitem & Hrhs).
    apply list_elem_of_singleton in Hitem. injection Hitem as -> ->.
    now apply list_elem_of_singleton in Hrhs. }
  split; [|split].
  - intros rhs e Hin He (nt & Hnt & _).
    rewrite (Hrhs rhs Hin) in He. apply list_elem_of_singleton in He as ->.
    destruct Hnt; discriminate.
  - intros rhs nt ps Hin Href _. rewrite (Hrhs rhs Hin) in Href.
    destruct Href as [H|H]; apply list_elem_of_singleton in H; discriminate.
  - intros p Hin. apply Hrhs in Hin. discriminate.
Qed.

(** *** The constructor succeeds on well-formed input *)

Lemma declared_params_snoc done key value name ps :
  declared_params (done ++ [(key, value)]) name ps
  ↔ declared_params done name ps
    ∨ (key_name key = name ∧ key_param_names key value = ps).
Proof.
  unfold declared_params. split.
  - intros (k & v & Hin & Hn & Hp). apply elem_of_app in Hin as [Hin|Hin].
    + left. eauto.
    + apply list_elem_of_singleton in Hin. injection Hin as -> ->. now right.
  - intros [(k & v & Hin & Hn & Hp)|[Hn Hp]].
    + exists k, v. split; [apply elem_of_app; now left|auto].
    + exists key, value. split; [apply elem_of_app; right; left|auto].
Qed.

Lemma declared_params_app_l done todo name ps :
  declared_params done name ps → declared_params (done ++ todo) name ps.
Proof.
  intros (k & v & Hin & H). exists k, v. split; [apply elem_of_app; now left|exact H].
Qed.

Lemma key_scan_step_eq kan ntp s2n key value :
  is_KNt key = kan →
  key_scan_step kan (ntp, s2n) (key, value)
  = (ntp' ← match dict_get ntp (key_name key) with
            | Some known =>
                if decide (known = key_param_names key value) then Ok ntp
                else Raise (ValueError "conflicting parameter name lists for nt")
            | None => Ok (dict_set ntp (key_name key) (key_param_names key value))
            end;
     Ok (ntp',
         if bool_decide (key_param_names key value = [])
            && negb (dict_mem s2n (key_name key))
         then dict_set s2n (key_name key) (mkNt (key_name key) [])
         else s2n)).
Proof.
  intros <-. unfold key_scan_step. rewrite eqb_reflx. cbn [negb].
  destruct (dict_get ntp (key_name key)) as [known|]; [|reflexivity].
  destruct (decide _); reflexivity.
Qed.

Lemma key_scan_spec nts kan :
  (∀ key, key ∈ dict_keys nts → is_KNt key = kan) →
  (∀ name ps1 ps2, declared_params nts name ps1 →
                   declared_params nts name ps2 → ps1 = ps2) →
  ∀ todo done ntp s2n,
    nts = (done ++ todo)%list →
    (∀ name ps, dict_get ntp name = Some ps ↔ declared_params done name ps) →
    (∀ name nt, dict_get s2n name = Some nt
                ↔ nt = mkNt name [] ∧ declared_params done name []) →
    ∃ ntp' s2n',
      foldM (key_scan_step kan) (ntp, s2n) todo = Ok (ntp', s2n')
      ∧ (∀ name ps, dict_get ntp' name = Some ps ↔ declared_params nts name ps)
      ∧ (∀ name nt, dict_get s2n' name = Some nt
                    ↔ nt = mkNt name [] ∧ declared_params nts name []).
Proof.
  intros Htypes Hcons.
  induction todo as [|[key value] todo IH]; intros done ntp s2n Hnts Hp Hs.
  - rewrite app_nil_r in Hnts. subst done. exists ntp, s2n. auto.
  - assert (Hnts' : nts = ((done ++ [(key, value)]) ++ todo)%list)
      by (now rewrite <- app_assoc).
    assert (Hdecl : declared_params nts (key_name key) (key_param_names key value)).
    { rewrite Hnts'. apply declared_params_app_l, declared_params_snoc. now right. }
    assert (Hk : is_KNt key = kan).
    { apply Htypes. rewrite Hnts. unfold dict_keys. rewrite map_app.
      apply elem_of_app. right. left. }
    cbn [foldM]. rewrite (key_scan_step_eq _ _ _ _ _ Hk).
    set (name := key_name key) in *. set (pn := key_param_names key value) in *.
    (* the new [nt_params] *)
    assert (Hntp : ∃ ntp1,
      match dict_get ntp name with
      | Some known => if decide (known = pn) then Ok ntp
                      else Raise (ValueError "conflicting parameter name lists for nt")
      | None => Ok (dict_set ntp name pn)
      end = Ok ntp1
      ∧ ∀ n ps, dict_get ntp1 n = Some ps
                ↔ declared_params (done ++ [(key, value)]) n ps).
    { destruct (dict_get ntp name) as [known|] eqn:Eg.
      - assert (known = pn) as ->.
        { apply (Hcons name); [|exact Hdecl].
          rewrite Hnts. apply declared_params_app_l. now apply Hp. }
        rewrite decide_True by reflexivity. exists ntp. split; [reflexivity|].
        intros n ps. rewrite declared_params_snoc, Hp. split; [now left|].
        intros [H|[<- <-]]; [exact H|]. now apply Hp.
      - exists (dict_set ntp name pn). split; [reflexivity|].
        intros n ps. rewrite declared_params_snoc, dict_get_set.
        destruct (decide (name = n)) as [<-|Hne].
        + split.
          * intros [= <-]. now right.
          * intros [H|[_ <-]]; [|reflexivity].
            apply Hp in H. congruence.
        + rewrite Hp. split; [now left|]. intros [H|[H _]]; [exact H|contradiction]. }
    destruct Hntp as (ntp1 & -> & Hp1). cbn [mbind Result_bind].
    (* the new [str_to_nt] *)
    match goal with
    | |- context [foldM _ (ntp1, ?x) todo] => set (s2n1 := x)
    end.
    apply (IH (done ++ [(key, value)])%list ntp1 s2n1 Hnts' Hp1).
    intros n nt. subst s2n1. rewrite declared_params_snoc.
    destruct (bool_decide (pn = [])) eqn:Epn; cbn [andb].
    + apply bool_decide_eq_true in Epn.
      destruct (dict_mem s2n name) eqn:Em; cbn [negb].
      * rewrite Hs. split; [intros [? ?]; auto|].
        intros [-> [H|[<- _]]]; [auto|].
        unfold dict_mem in Em. destruct (dict_get s2n name) as [x|] eqn:Ex;
          [|discriminate].
        apply Hs in Ex as [_ Hd]. auto.
      * rewrite dict_get_set.
        destruct (decide (name = n)) as [<-|Hne].
        -- split; [intros [= <-]; split; [reflexivity|now right]|].
           now intros [-> _].
        -- rewrite Hs. split; [intros [? ?]; auto|].
           intros [-> [H|[H _]]]; [auto|contradiction].
    + apply bool_decide_eq_false in Epn.
      rewrite Hs. split; [intros [? ?]; auto|].
      intros [-> [H|[_ H]]]; [auto|contradiction].
Qed.

Lemma mapS_total {A B S} (f : A → S → Result (B * S)) xs :
  Forall (λ x, ∀ s, ∃ r, f x s = Ok r) xs → ∀ s, ∃ r, mapS f xs s = Ok r.
Proof.
  induction 1 as [|x xs Hx _ IH]; intros s; simpl; [eauto|].
  destruct (Hx s) as [[y s1] ->]. cbn [mbind Result_bind].
  destruct (IH s1) as [[ys s2] ->]. cbn [mbind Result_bind]. eauto.
Qed.

Lemma mapS_length {A B S} (f : A → S → Result (B * S)) xs : ∀ s ys s',
  mapS f xs s = Ok (ys, s') → length ys = length xs.
Proof.
  induction xs as [|x xs IH]; simpl; intros s ys s' H.
  - now injection H as <- <-.
  - apply bind_Ok_inv in H as ([y s1] & _ & H).
    apply bind_Ok_inv in H as ([ys1 s2] & Hm & [= <- <-]).
    simpl. f_equal. eauto.
Qed.

Lemma check_method_name_valid method :
  valid_method_name method = true → check_method_name method = Ok tt.
Proof.
  unfold valid_method_name, check_method_name.
  destruct (isidentifier method); [reflexivity|]. simpl.
  destruct (partition_space method) as [[name space] pn]. now intros ->.
Qed.

Lemma check_reduce_action_ok rhs_body a :
  action_ok rhs_body a = true → check_reduce_action rhs_body a = Ok tt.
Proof.
  induction a as [n|method args IH| |inner IH|] using Action_induction;
    simpl; intros H; try discriminate; auto.
  - now rewrite H.
  - apply andb_true_iff in H as [Hm Hargs].
    rewrite (check_method_name_valid _ Hm). cbn [mbind Result_bind].
    apply forM_Ok_intro. intros a Ha.
    rewrite Forall_forall in IH. apply IH; [exact Ha|].
    rewrite forallb_forall in Hargs. apply Hargs. now apply list_elem_of_In.
Qed.

Lemma range_args_ok rhs_body k :
  (k ≤ concrete_len rhs_body)%nat →
  forallb (action_ok rhs_body) (range_args k) = true.
Proof.
  intros Hk. apply forallb_forall. intros a Ha. unfold range_args in Ha.
  apply in_map_iff in Ha as (j & <- & Hj). apply in_seq in Hj. simpl.
  apply andb_true_iff. split; [apply Z.leb_le|apply Z.ltb_lt]; lia.
Qed.

Lemma default_action_ok s i sole symbols :
  isidentifier s = true →
  ∃ a, default_action (KName (NameStr s)) i sole symbols = Ok a
       ∧ action_ok symbols a = true.
Proof.
  intros Hs. unfold default_action.
  destruct ((length symbols =? 1)%nat && (concrete_len symbols =? 1)%nat) eqn:E.
  - exists (AInt 0). split; [reflexivity|].
    apply andb_true_iff in E as [_ E]. apply Nat.eqb_eq in E. simpl. now rewrite E.
  - eexists. split; [reflexivity|]. simpl.
    rewrite range_args_ok by lia. rewrite andb_true_r.
    unfold valid_method_name. destruct sole; [now rewrite Hs|].
    rewrite (PyFacts.partition_space_at_space _ _ Hs).
    rewrite Hs, PyFacts.isdigit_str_of_nat. apply orb_true_r.
Qed.

Lemma default_action_single key i sole symbols :
  length symbols = 1%nat → concrete_len symbols = 1%nat →
  default_action key i sole symbols = Ok (AInt 0)
  ∧ action_ok symbols (AInt 0) = true.
Proof.
  intros Hl Hc. unfold default_action. rewrite Hl, Hc. simpl. now rewrite Hc.
Qed.

Section Validated.
Variable nts : list (Key * RawDef).
Variable ntp : list (NtName * list string).
Variable s2n : list (NtName * Nt).
Hypothesis ntp_spec :
  ∀ name ps, dict_get ntp name = Some ps ↔ declared_params nts name ps.
Hypothesis s2n_spec :
  ∀ name nt, dict_get s2n name = Some nt
             ↔ nt = mkNt name [] ∧ declared_params nts name [].

Lemma validate_nt_use_ok ctx nt :
  nt_use_ok nts ctx nt → validate_nt_use nts ntp nt ctx = Ok tt.
Proof using ntp_spec.
  intros (Hkey & Hargs & Hvars). unfold validate_nt_use.
  assert (Hm : negb (dict_mem nts (KNt nt))
               && negb (dict_mem nts (KName (nt_name nt))) = false).
  { destruct Hkey as [H|H]; apply dict_mem_true in H; rewrite H;
      [reflexivity|apply andb_false_r]. }
  rewrite Hm. cbn [mbind Result_bind].
  assert (Hp : match dict_get ntp (nt_name nt) with
               | Some expected =>
                   if decide (map fst (nt_args nt) = expected) then Ok tt
                   else Raise (ValueError "invalid grammar: wrong arguments passed")
               | None => Ok tt
               end = Ok tt).
  { destruct (dict_get ntp (nt_name nt)) as [expected|] eqn:E; [|reflexivity].
    apply ntp_spec, Hargs in E. now rewrite decide_True. }
  rewrite Hp. cbn [mbind Result_bind].
  apply forM_Ok_intro. intros [param a] Ha. unfold check_var_arg. simpl.
  destruct a as [b|v]; [reflexivity|].
  now rewrite (bool_decide_eq_true_2 _ (Hvars _ _ Ha)).
Qed.

Lemma validate_symbol_ok ctx e ts :
  symbol_ok nts ctx e → ∃ r, validate_element nts ntp s2n e ctx ts = Ok r.
Proof using ntp_spec s2n_spec.
  destruct e as [s|inner|nt|r| |code|repr]; simpl; try contradiction.
  - intros Hs. destruct (dict_get ntp (NameStr s)) as [ps|] eqn:E; [|eauto].
    apply ntp_spec in E. pose proof (Hs _ E) as ->.
    rewrite bool_decide_eq_true_2 by reflexivity.
    assert (Hd : dict_get s2n (NameStr s) = Some (mkNt (NameStr s) []))
      by (now apply s2n_spec).
    rewrite Hd. eauto.
  - intros Hnt. rewrite (validate_nt_use_ok _ _ Hnt). simpl. eauto.
Qed.

Lemma validate_element_ok ctx e ts :
  element_ok nts ctx e → ∃ r, validate_element nts ntp s2n e ctx ts = Ok r.
Proof using ntp_spec s2n_spec.
  destruct e as [s|inner|nt|r| |code|repr]; try contradiction;
    try (apply validate_symbol_ok); try (simpl; eauto; fail).
  cbn [element_ok]. intros Hin.
  destruct (validate_symbol_ok ctx inner ts Hin) as [[e' ts'] He].
  destruct inner; try contradiction; cbn [validate_element] in *;
    rewrite He; simpl; eauto.
Qed.

Lemma copy_rhs_ok key sole ctx i rhs ts :
  rhs_ok nts key ctx rhs →
  (∀ s, key = KName (NameStr s) → isidentifier s = true) →
  ∃ r, copy_rhs nts ntp s2n key sole ctx (i, rhs) ts = Ok r.
Proof using ntp_spec s2n_spec.
  intros [Hel Hrhs] Hkey. unfold copy_rhs.
  assert (Hp : ∃ p,
    match rhs with
    | RList symbols =>
        action ← default_action key i sole symbols;
        Ok (mkProduction symbols action None)
    | RProduction p => Ok p
    end = Ok p
    ∧ body p = rhs_body rhs
    ∧ (∀ param value, condition p = Some (param, value) → param ∈ ctx)
    ∧ (action p = AAccept ∨ action_ok (body p) (action p) = true)).
  { destruct rhs as [symbols|p].
    - destruct Hrhs as [[Hl Hc]|[s ->]].
      + destruct (default_action_single key i sole symbols Hl Hc) as [-> Ha].
        eexists. split; [reflexivity|]. simpl. split; [reflexivity|].
        split; [discriminate|now right].
      + destruct (default_action_ok s i sole symbols (Hkey s eq_refl)) as (a & -> & Ha).
        eexists. split; [reflexivity|]. simpl. split; [reflexivity|].
        split; [discriminate|now right].
    - exists p. destruct Hrhs. auto. }
  destruct Hp as (p & -> & Hb & Hcond & Hact). cbn [mbind Result_bind].
  assert (Hc : match condition p with
               | Some (param, _) =>
                   if bool_decide (param ∈ ctx) then Ok tt
                   else Raise (TypeError "invalid grammar: undefined parameter")
               | None => Ok tt
               end = Ok tt).
  { destruct (condition p) as [[param value]|]; [|reflexivity].
    now rewrite (bool_decide_eq_true_2 _ (Hcond _ _ eq_refl)). }
  rewrite Hc. cbn [mbind Result_bind].
  assert (Ha : (if Action_eqb (action p) AAccept then Ok tt
                else check_reduce_action (body p) (action p)) = Ok tt).
  { destruct Hact as [->|Hok]; [reflexivity|].
    rewrite (check_reduce_action_ok _ _ Hok). now destruct (Action_eqb _ _). }
  rewrite Ha. cbn [mbind Result_bind].
  destruct (mapS_total (λ e, validate_element nts ntp s2n e ctx) (body p)) with (s := ts)
    as [[b ts'] ->].
  - rewrite Hb. eapply Forall_impl; [exact Hel|].
    intros e He s. now apply validate_element_ok.
  - simpl. eauto.
Qed.

Lemma copy_nt_def_ok key value ts :
  (∀ rhs, rhs ∈ raw_rhs_list value → rhs_ok nts key (raw_params value) rhs) →
  (∀ s, key = KName (NameStr s) → isidentifier s = true) →
  ∃ r, copy_nt_def nts ntp s2n key value ts = Ok r.
Proof using ntp_spec s2n_spec.
  intros Hrhs Hkey. unfold copy_nt_def. fold (raw_params value).
  destruct (mapS_total
              (copy_rhs nts ntp s2n key (length (raw_rhs_list value) =? 1)%nat
                        (raw_params value))
              (zip (seq 0 (length (raw_rhs_list value))) (raw_rhs_list value)))
    with (s := ts) as [[l ts'] ->].
  - apply Forall_forall. intros [i rhs] Hin s.
    apply copy_rhs_ok; [|exact Hkey]. apply Hrhs.
    apply (list_elem_of_fmap_2 snd) in Hin. rewrite snd_zip in Hin; [exact Hin|].
    rewrite length_seq. lia.
  - simpl. eauto.
Qed.

End Validated.

Lemma Production_eqb_refl_accept b :
  Production_eqb (mkProduction b AAccept None) (mkProduction b AAccept None) = true.
Proof.
  unfold Production_eqb. simpl.
  now rewrite !bool_decide_eq_true_2 by reflexivity.
Qed.

Lemma Production_eqb_body_ne b1 b2 a c :
  b1 ≠ b2 → Production_eqb (mkProduction b1 a c) (mkProduction b2 a c) = false.
Proof.
  intros H. unfold Production_eqb. simpl.
  now rewrite (bool_decide_eq_false_2 _ H).
Qed.

Lemma init_forms_accepted g form :
  form ∈ init_forms g →
  differs_from_all (map RProduction form) (init_forms g) = Ok false.
Proof.
  unfold init_forms. intros H.
  apply elem_of_cons in H as [->|H]; [|apply elem_of_cons in H as [->|H]];
    [| |apply list_elem_of_singleton in H as ->];
    cbn [differs_from_all rhs_list_ne map length Nat.eqb items_ne mbind Result_bind].
  - now rewrite Production_eqb_refl_accept.
  - rewrite (Production_eqb_body_ne [EOptional (ENt g)] [ENt g]) by discriminate.
    cbn [mbind Result_bind]. now rewrite Production_eqb_refl_accept.
  - now rewrite !Production_eqb_refl_accept.
Qed.

Section ValidatedKeys.
Variable nts : list (Key * RawDef).
Variable gs : list Goal.
Variable vt : gset string.
Variable ntp : list (NtName * list string).
Variable s2n : list (NtName * Nt).
Hypothesis ntp_spec :
  ∀ name ps, dict_get ntp name = Some ps ↔ declared_params nts name ps.
Hypothesis s2n_spec :
  ∀ name nt, dict_get s2n name = Some nt
             ↔ nt = mkNt name [] ∧ declared_params nts name [].

Lemma check_name_ok name ts :
  name_ok nts gs vt name → check_name nts gs vt ntp s2n name ts = Ok tt.
Proof using ntp_spec.
  destruct name as [s|g]; simpl.
  - intros [Hid Hvt]. unfold check_str_key. rewrite Hid. simpl.
    now rewrite (bool_decide_eq_false_2 _ Hvt).
  - intros [Huse Hgoal]. unfold check_init_key. simpl.
    rewrite (validate_nt_use_ok nts ntp ntp_spec _ _ Huse). simpl.
    now rewrite (bool_decide_eq_true_2 _ Hgoal).
Qed.

Lemma check_nt_key_ok key value ts :
  key_ok nts gs vt key value →
  check_nt_key nts gs vt (is_KNt key) ntp s2n key ts = Ok tt.
Proof using ntp_spec.
  destruct key as [name|[name args]]; simpl.
  - intros [Hname _]. now apply check_name_ok.
  - intros [Hname Hargs]. rewrite (check_name_ok _ _ Hname). simpl.
    apply forM_Ok_intro. intros [param a] Ha.
    destruct (Hargs _ _ Ha) as [b ->]. reflexivity.
Qed.

Lemma validate_nt_ok key value ts :
  key_ok nts gs vt key value →
  (∀ rhs, rhs ∈ raw_rhs_list value → rhs_ok nts key (raw_params value) rhs) →
  ∃ d ts', validate_nt nts gs vt (is_KNt key) ntp s2n (key, value) ts
           = Ok (key, d, ts').
Proof using ntp_spec s2n_spec.
  intros Hkey Hrhs. unfold validate_nt.
  rewrite (check_nt_key_ok _ _ _ Hkey). cbn [mbind Result_bind].
  assert (Hform :
    match key with
    | KName (InitNt g) =>
        match value with
        | RawNtDef _ rhs_list =>
            bad ← differs_from_all rhs_list (init_forms g);
            if bad : bool
            then Raise (ValueError "invalid grammar: not one of the expected forms")
            else Ok tt
        | RawList _ =>
            Raise (TypeError "invalid grammar: key must map to value of type NtDef")
        end
    | _ => Ok tt
    end = Ok tt).
  { destruct key as [[s|g]|nt]; try reflexivity.
    destruct Hkey as [_ (ps & form & -> & Hform)].
    now rewrite (init_forms_accepted _ _ Hform). }
  rewrite Hform. cbn [mbind Result_bind].
  destruct (copy_nt_def_ok nts ntp s2n ntp_spec s2n_spec key value ts Hrhs) as [[d ts'] ->].
  - intros s ->. destruct Hkey as [[Hid _] _]. exact Hid.
  - simpl. eauto.
Qed.

Lemma resolve_goal_ok kan goal :
  goal_ok nts kan goal → resolve_goal nts kan s2n goal = Ok (goal_nt goal).
Proof using s2n_spec.
  destruct goal as [s|nt]; simpl.
  - intros Hd.
    assert (H : dict_get s2n (NameStr s) = Some (mkNt (NameStr s) []))
      by (now apply s2n_spec).
    now rewrite H.
  - intros H. destruct kan; apply dict_mem_true in H; now rewrite H.
Qed.

End ValidatedKeys.

Lemma validate_step_eq nts gs vt kan ntp s2n acc ts item :
  validate_step nts gs vt kan ntp s2n (acc, ts) item
  = (r ← validate_nt nts gs vt kan ntp s2n item ts;
     Ok (dict_set acc (fst (fst r)) (snd (fst r)), snd r)).
Proof.
  unfold validate_step.
  destruct (validate_nt nts gs vt kan ntp s2n item ts) as [[[nt d] ts']|e];
    reflexivity.
Qed.

Lemma validate_loop_ok nts gs vt kan ntp s2n todo : ∀ acc ts,
  (∀ key value, (key, value) ∈ todo → ∀ ts0,
     ∃ d ts', validate_nt nts gs vt kan ntp s2n (key, value) ts0 = Ok (key, d, ts')) →
  NoDup (dict_keys acc ++ dict_keys todo) →
  ∃ acc' ts',
    foldM (validate_step nts gs vt kan ntp s2n) (acc, ts) todo = Ok (acc', ts')
    ∧ dict_keys acc' = (dict_keys acc ++ dict_keys todo)%list.
Proof.
  induction todo as [|[key value] todo IH]; intros acc ts Hall Hnd.
  - exists acc, ts. split; [reflexivity|]. simpl. now rewrite app_nil_r.
  - cbn [foldM]. rewrite validate_step_eq.
    destruct (Hall key value ltac:(left) ts) as (d & ts1 & ->).
    cbn [mbind Result_bind fst snd].
    assert (Hfresh : key ∉ dict_keys acc).
    { apply NoDup_app in Hnd as (_ & Hdisj & _). intros Hin.
      apply (Hdisj key Hin). left. }
    rewrite (dict_set_fresh _ _ _ Hfresh).
    destruct (IH (acc ++ [(key, d)])%list ts1) as (acc' & ts' & Hf & Hk).
    + intros k v Hin. apply Hall. now right.
    + rewrite dict_keys_app. simpl. rewrite <- app_assoc. exact Hnd.
    + exists acc', ts'. split; [exact Hf|].
      rewrite Hk, dict_keys_app. simpl. now rewrite <- app_assoc.
Qed.

Lemma init_step_eq nts kan s2n acc l goal :
  init_step nts kan s2n (acc, l) goal
  = (nt ← resolve_goal nts kan s2n goal;
     Ok (if dict_mem acc (init_key kan nt) then acc
         else dict_set acc (init_key kan nt) (accept_def nt),
         (l ++ [mkNt (InitNt nt) []])%list)).
Proof. reflexivity. Qed.

Lemma init_loop_ok nts kan s2n goal_nts : ∀ acc l,
  (∀ goal, goal ∈ goal_nts → resolve_goal nts kan s2n goal = Ok (goal_nt goal)) →
  ∃ items,
    foldM (init_step nts kan s2n) (acc, l) goal_nts
    = Ok ((acc ++ items)%list,
          (l ++ map (λ goal, mkNt (InitNt (goal_nt goal)) []) goal_nts)%list)
    ∧ NoDup (dict_keys items)
    ∧ (∀ k, k ∈ dict_keys items
            ↔ (k ∉ dict_keys acc)
              ∧ ∃ goal, goal ∈ goal_nts ∧ k = init_key kan (goal_nt goal))
    ∧ (∀ k d, (k, d) ∈ items →
              ∃ goal, goal ∈ goal_nts ∧ k = init_key kan (goal_nt goal)
                      ∧ d = accept_def (goal_nt goal)).
Proof.
  induction goal_nts as [|goal rest IH]; intros acc l Hres.
  - exists []. cbn [foldM map]. rewrite !app_nil_r. split; [reflexivity|].
    split; [constructor|]. split.
    + intros k. split; [intros H; inversion H|].
      intros (_ & g & Hg & _). inversion Hg.
    + intros k d H. inversion H.
  - cbn [foldM]. rewrite init_step_eq, (Hres goal) by left.
    cbn [mbind Result_bind].
    set (k0 := init_key kan (goal_nt goal)).
    assert (Hres' : ∀ g, g ∈ rest → resolve_goal nts kan s2n g = Ok (goal_nt g))
      by (intros g Hg; apply Hres; now right).
    destruct (dict_mem acc k0) eqn:Em.
    + apply dict_mem_true in Em.
      destruct (IH acc (l ++ [mkNt (InitNt (goal_nt goal)) []])%list Hres')
        as (items & Hf & Hnd & Hkeys & Hdefs).
      exists items. split; [rewrite Hf, <- app_assoc; reflexivity|].
      split; [exact Hnd|]. split.
      * intros k. rewrite Hkeys. split.
        -- intros (Hk & g & Hg & ->). split; [exact Hk|]. exists g. split; [now right|reflexivity].
        -- intros (Hk & g & Hg & ->). split; [exact Hk|].
           apply elem_of_cons in Hg as [->|Hg]; [contradiction|]. eauto.
      * intros k d Hin. destruct (Hdefs k d Hin) as (g & Hg & H).
        exists g. split; [now right|exact H].
    + apply dict_mem_false in Em. rewrite (dict_set_fresh _ _ _ Em).
      destruct (IH (acc ++ [(k0, accept_def (goal_nt goal))])%list
                   (l ++ [mkNt (InitNt (goal_nt goal)) []])%list Hres')
        as (items & Hf & Hnd & Hkeys & Hdefs).
      exists ((k0, accept_def (goal_nt goal)) :: items).
      split; [rewrite Hf, <- !app_assoc; reflexivity|].
      assert (Hk0 : k0 ∉ dict_keys items).
      { intros Hin. apply Hkeys in Hin as [Hn _]. apply Hn.
        rewrite dict_keys_app. apply elem_of_app. right. left. }
      split; [simpl; apply NoDup_cons; auto|]. split.
      * intros k. simpl. rewrite elem_of_cons, Hkeys, dict_keys_app, elem_of_app.
        split.
        -- intros [->|(Hn & g & Hg & ->)].
           ++ split; [exact Em|]. exists goal. split; [left|reflexivity].
           ++ split; [tauto|]. exists g. split; [now right|reflexivity].
        -- intros (Hn & g & Hg & ->).
           destruct (decide (init_key kan (goal_nt g) = k0)) as [Heq|Hne]; [now left|].
           right. split.
           ++ intros [H|H]; [contradiction|].
              apply list_elem_of_singleton in H. contradiction.
           ++ apply elem_of_cons in Hg as [->|Hg]; [contradiction|]. eauto.
      * intros k d Hin. apply elem_of_cons in Hin as [[= -> ->]|Hin].
        -- exists goal. split; [left|auto].
        -- destruct (Hdefs k d Hin) as (g & Hg & H). exists g. split; [now right|exact H].
Qed.

Lemma first_key_in_keys (nts : list (Key * RawDef)) key value rest :
  nts = (key, value) :: rest → first_key_is_nt nts = is_KNt key.
Proof. now intros ->. Qed.

Section Soundness.
Context {NtTypes Methods : Type}.
Variable infer_types :
  gset string → gset string → list (Key * NtDef) → Result (NtTypes * Methods).

Lemma Grammar_init_well_formed nts goal_nts vt type_info :
  well_formed nts (effective_goals nts goal_nts) (list_to_set vt) →
  (type_info = None → ∀ a b c, ∃ info, infer_types a b c = Ok info) →
  ∃ g extra,
    Grammar_init infer_types nts goal_nts vt type_info = Ok g
    ∧ dict_keys (nonterminals g) = (dict_keys nts ++ extra)%list
    ∧ NoDup extra
    ∧ (∀ k, k ∈ extra
            ↔ (k ∉ dict_keys nts)
              ∧ ∃ goal, goal ∈ effective_goals nts goal_nts
                        ∧ k = init_key (first_key_is_nt nts) (goal_nt goal))
    ∧ (∀ goal, goal ∈ effective_goals nts goal_nts →
               init_key (first_key_is_nt nts) (goal_nt goal) ∉ dict_keys nts →
               dict_get (nonterminals g)
                        (init_key (first_key_is_nt nts) (goal_nt goal))
               = Some (accept_def (goal_nt goal)))
    ∧ init_nts g = map (λ goal, mkNt (InitNt (goal_nt goal)) [])
                       (effective_goals nts goal_nts).
Proof.
  intros [Hne Hnd Htypes Hparams Hkeys Hrhs Hgoals] Hinfer.
  set (gs := effective_goals nts goal_nts) in *.
  set (vts := list_to_set vt : gset string) in *.
  assert (∃ key0 value0 rest, nts = (key0, value0) :: rest)
    as (key0 & value0 & rest & Ents)
    by (destruct nts as [|[key0 value0] rest]; [congruence|eauto]).
  assert (Hfirst : first_key_is_nt nts = is_KNt key0) by (now rewrite Ents).
  clear Hne.
  destruct (key_scan_spec nts (is_KNt key0)) with (todo := nts) (done := @nil (Key * RawDef))
    (ntp := @nil (NtName * list string)) (s2n := @nil (NtName * Nt))
    as (ntp & s2n & Hscan & Hntp & Hs2n).
  { intros key Hk. rewrite <- Hfirst. now apply Htypes. }
  { exact Hparams. }
  { reflexivity. }
  { intros name ps. split; [discriminate|]. intros (k & v & H & _). inversion H. }
  { intros name nt. split; [discriminate|]. intros (_ & k & v & H & _). inversion H. }
  destruct (validate_loop_ok nts gs vts (is_KNt key0) ntp s2n nts [] vts)
    as (acc & ts & Hval & Hacc).
  { intros key value Hin ts0.
    assert (Hk : is_KNt key = is_KNt key0).
    { rewrite <- Hfirst. apply Htypes. apply (list_elem_of_fmap_2 fst) in Hin. exact Hin. }
    rewrite <- Hk. apply validate_nt_ok; eauto. }
  { exact Hnd. }
  cbn [dict_keys map app] in Hacc. fold (dict_keys nts) in Hacc.
  assert (Hti : ∃ info,
    match type_info with
    | Some info => Ok info
    | None => infer_types vts ts acc
    end = Ok info).
  { destruct type_info as [info|]; [eauto|]. now apply Hinfer. }
  destruct Hti as [info Hti].
  destruct (init_loop_ok nts (is_KNt key0) s2n gs acc [])
    as (items & Hinit & Hnd' & Hitems & Hdefs).
  { intros goal Hg. apply resolve_goal_ok; [exact Hs2n|].
    rewrite <- Hfirst. now apply Hgoals. }
  exists (mkGrammar vts ts (acc ++ items) (fst info) (snd info)
                    (map (λ goal, mkNt (InitNt (goal_nt goal)) []) gs)),
         (dict_keys items).
  split.
  { assert (Hf : match nts with
                  | [] => Raise StopIteration
                  | (key, _) :: _ => Ok key
                  end = Ok key0) by (now rewrite Ents).
    unfold Grammar_init. fold gs. fold vts. rewrite Hf.
    cbn [mbind Result_bind]. rewrite Hscan. cbn [mbind Result_bind].
    rewrite Hval. cbn [mbind Result_bind]. rewrite Hti. cbn [mbind Result_bind].
    rewrite Hinit. reflexivity. }
  cbn [nonterminals init_nts]. rewrite dict_keys_app, Hacc, Hfirst.
  split; [reflexivity|]. split; [exact Hnd'|].
  split; [intros k; rewrite Hitems, Hacc; reflexivity|].
  split; [|reflexivity].
  intros goal Hg Hfresh.
  assert (Hin : init_key (is_KNt key0) (goal_nt goal) ∈ dict_keys items).
  { apply Hitems. rewrite Hacc. eauto. }
  unfold dict_keys in Hin. apply list_elem_of_fmap in Hin as ([k d] & Hk & Hin).
  simpl in Hk. subst k.
  destruct (Hdefs _ _ Hin) as (g' & _ & Hk' & ->).
  assert (Hgoal : accept_def (goal_nt g') = accept_def (goal_nt goal)).
  { unfold init_key in Hk'. destruct (is_KNt key0); injection Hk' as ->; reflexivity. }
  rewrite <- Hgoal. apply dict_get_In; [|apply elem_of_app; now right].
  rewrite dict_keys_app, Hacc. apply NoDup_app. split; [exact Hnd|].
  split; [|exact Hnd'].
  intros k Hk1 Hk2. apply Hitems in Hk2 as [Hn _]. rewrite Hacc in Hn. contradiction.
Qed.

(** C1 (as amended).  Construction fails on every raw dictionary of which a
    production body holds a reference, bare or optional, to an undefined
    nonterminal.  It succeeds on every input that is well formed in the sense
    of [well_formed] (keys of one kind, named by identifiers that are not
    variable terminals; one parameter list per name; references that resolve,
    with matching argument names and variables in scope; valid conditions,
    method names and reduce indices; init nonterminals of an expected shape;
    defined goals) and for which type information is given or inferred.  The
    keys of the result are then the input keys followed by one key per goal
    whose init nonterminal is not already a key, each defined by the single
    production [goal] with action ['accept'], and [init_nts] lists the init
    nonterminal of every goal in order. *)
Theorem validation_soundness nts goal_nts vt type_info :
  (∀ rhs e, rhs_in nts rhs → e ∈ rhs_body rhs → undefined_reference nts e →
            raises (Grammar_init infer_types nts goal_nts vt type_info))
  ∧ (well_formed nts (effective_goals nts goal_nts) (list_to_set vt) →
     (type_info = None → ∀ a b c, ∃ info, infer_types a b c = Ok info) →
     ∃ g extra,
       Grammar_init infer_types nts goal_nts vt type_info = Ok g
       ∧ dict_keys (nonterminals g) = (dict_keys nts ++ extra)%list
       ∧ NoDup extra
       ∧ (∀ k, k ∈ extra
               ↔ (k ∉ dict_keys nts)
                 ∧ ∃ goal, goal ∈ effective_goals nts goal_nts
                           ∧ k = init_key (first_key_is_nt nts) (goal_nt goal))
       ∧ (∀ goal, goal ∈ effective_goals nts goal_nts →
                  init_key (first_key_is_nt nts) (goal_nt goal) ∉ dict_keys nts →
                  dict_get (nonterminals g)
                           (init_key (first_key_is_nt nts) (goal_nt goal))
                  = Some (accept_def (goal_nt goal)))
       ∧ init_nts g = map (λ goal, mkNt (InitNt (goal_nt goal)) [])
                          (effective_goals nts goal_nts)).
Proof.
  split; [intros rhs e; apply undefined_reference_rejected|].
  apply Grammar_init_well_formed.
Qed.

End Soundness.

Lemma validation_soundness_witness :
  let value :=
    RawList [RList [EStr "x"];
             RProduction (mkProduction [EStr "a"; EStr "+"; EStr "x"]
                                       (CallMethod "add" [AInt 0; AInt 2]) None)] in
  let nts := [(KName (NameStr "a"), value)] in
  ∃ g extra,
    Grammar_init (λ _ _ _, Ok (tt, tt)) nts None ["x"] None = Ok g
    ∧ dict_keys (nonterminals g) = (dict_keys nts ++ extra)%list
    ∧ init_nts g = [mkNt (InitNt (mkNt (NameStr "a") [])) []].
Proof.
  intros value nts.
  assert (Hitem : ∀ k v, (k, v) ∈ nts → k = KName (NameStr "a") ∧ v = value).
  { intros k v H. apply list_elem_of_singleton in H. injection H as -> ->. auto. }
  assert (Hdecl : ∀ name ps, declared_params nts name ps → name = NameStr "a" ∧ ps = []).
  { intros name ps (k & v & Hin & <- & <-).
    destruct (Hitem _ _ Hin) as [-> ->]. auto. }
  assert (Hsym : ∀ s, symbol_ok nts [] (EStr s)).
  { intros s ps Hd. now destruct (Hdecl _ _ Hd). }
  assert (Hwf : well_formed nts (effective_goals nts None) (list_to_set ["x"])).
  { split.
    - discriminate.
    - apply NoDup_singleton.
    - intros k Hk. apply list_elem_of_singleton in Hk as ->. reflexivity.
    - intros name ps1 ps2 H1 H2.
      destruct (Hdecl _ _ H1) as [_ ->]. now destruct (Hdecl _ _ H2) as [_ ->].
    - intros k v Hin. destruct (Hitem _ _ Hin) as [-> _].
      split; [|exact I]. split; [reflexivity|]. set_solver.
    - intros k v rhs Hin Hrhs. destruct (Hitem _ _ Hin) as [-> ->].
      cbn [value raw_rhs_list] in Hrhs.
      apply elem_of_cons in Hrhs as [->|Hrhs];
        [|apply list_elem_of_singleton in Hrhs as ->]; split; simpl.
      + repeat constructor. apply Hsym.
      + left. split; reflexivity.
      + repeat constructor; apply Hsym.
      + split; [discriminate|]. right. reflexivity.
    - intros goal Hg. apply list_elem_of_singleton in Hg as ->.
      exists (KName (NameStr "a")), value.
      split; [left|]. split; reflexivity. }
  destruct (validation_soundness (λ _ _ _, Ok (tt, tt)) nts None ["x"] None)
    as [_ H].
  destruct (H Hwf) as (g & extra & Hg & Hk & _ & _ & _ & Hi).
  - intros _ a b c. eauto.
  - exists g, extra. auto.
Defined.

(** *** with_nonterminals *)

Lemma init_loop_shape nts kan s2n goal_nts : ∀ acc l acc' l',
  foldM (init_step nts kan s2n) (acc, l) goal_nts = Ok (acc', l') →
  ∃ gs, l' = (l ++ map (λ goal, mkNt (InitNt goal) []) gs)%list.
Proof.
  induction goal_nts as [|goal rest IH]; cbn [foldM]; intros acc l acc' l' H.
  - injection H as <- <-. exists []. simpl. now rewrite app_nil_r.
  - apply bind_Ok_inv in H as ([acc1 l1] & Hstep & H).
    rewrite init_step_eq in Hstep.
    apply bind_Ok_inv in Hstep as (nt & _ & [= <- <-]).
    apply IH in H as (gs & ->). exists (nt :: gs). now rewrite <- app_assoc.
Qed.

Lemma init_loop_init_nts nts kan s2n gs : ∀ acc l acc' l',
  foldM (init_step nts kan s2n) (acc, l) (map GNt gs) = Ok (acc', l') →
  l' = (l ++ map (λ goal, mkNt (InitNt goal) []) gs)%list.
Proof.
  induction gs as [|goal gs IH]; cbn [foldM map]; intros acc l acc' l' H.
  - injection H as <- <-. now rewrite app_nil_r.
  - apply bind_Ok_inv in H as ([acc1 l1] & Hstep & H).
    rewrite init_step_eq in Hstep.
    apply bind_Ok_inv in Hstep as (nt & Hres & [= <- <-]).
    unfold resolve_goal in Hres.
    destruct (if kan then _ else _); [|discriminate]. injection Hres as <-.
    apply IH in H as ->. now rewrite <- app_assoc.
Qed.

Lemma goals_of_init_nts {NtTypes Methods} (g : @Grammar NtTypes Methods) gs :
  init_nts g = map (λ goal, mkNt (InitNt goal) []) gs → goals g = Ok gs.
Proof.
  unfold goals. intros ->. induction gs as [|goal gs IH]; simpl; [reflexivity|].
  now rewrite IH.
Qed.

Section WithNonterminals.
Context {NtTypes Methods : Type}.
Variable infer_types :
  gset string → gset string → list (Key * NtDef) → Result (NtTypes * Methods).

Lemma Grammar_init_goals nts goal_nts vt type_info g :
  Grammar_init infer_types nts goal_nts vt type_info = Ok g →
  ∃ gs, goals g = Ok gs.
Proof.
  unfold Grammar_init. intros H.
  apply bind_Ok_inv in H as (first & _ & H).
  apply bind_Ok_inv in H as ([ntp s2n] & _ & H).
  apply bind_Ok_inv in H as ([acc ts] & _ & H).
  apply bind_Ok_inv in H as (info & _ & H).
  apply bind_Ok_inv in H as ([acc' l'] & Hinit & [= <-]).
  apply init_loop_shape in Hinit as (gs & ->).
  exists gs. now apply goals_of_init_nts.
Qed.

Lemma Grammar_init_type_info nts gs vt info g :
  Grammar_init infer_types nts (Some (map GNt gs)) vt (Some info) = Ok g →
  nt_types g = fst info ∧ methods g = snd info
  ∧ variable_terminals g = list_to_set vt
  ∧ init_nts g = map (λ goal, mkNt (InitNt goal) []) gs.
Proof.
  unfold Grammar_init. intros H.
  apply bind_Ok_inv in H as (first & _ & H).
  apply bind_Ok_inv in H as ([ntp s2n] & _ & H).
  apply bind_Ok_inv in H as ([acc ts] & _ & H).
  cbn [mbind Result_bind] in H.
  apply bind_Ok_inv in H as ([acc' l'] & Hinit & [= <-]).
  cbn [effective_goals] in Hinit.
  apply init_loop_init_nts in Hinit. simpl. auto.
Qed.

(** C9.  For a grammar [g] returned by the constructor, [g.goals()] is
    defined; [g.with_nonterminals(m)] returns a grammar for every mapping [m]
    that is well formed with respect to the goals and the variable terminals
    of [g]; and whenever it returns a grammar, that grammar has the [nt_types]
    and [methods] of [g], the goals and the variable terminals of [g], and is
    the same whatever the type-inference function is: inference is not
    run. *)
Theorem with_nonterminals_preserves nts0 goal_nts0 vt0 type_info0
        (g : @Grammar NtTypes Methods) m :
  Grammar_init infer_types nts0 goal_nts0 vt0 type_info0 = Ok g →
  ∃ gs,
    goals g = Ok gs
    ∧ (well_formed m (map GNt gs) (variable_terminals g) →
       ∃ g', with_nonterminals infer_types g m = Ok g')
    ∧ (∀ g', with_nonterminals infer_types g m = Ok g' →
             nt_types g' = nt_types g
             ∧ methods g' = methods g
             ∧ goals g' = goals g
             ∧ variable_terminals g' = variable_terminals g
             ∧ ∀ other_infer_types, with_nonterminals other_infer_types g m = Ok g').
Proof.
  intros Hg. destruct (Grammar_init_goals _ _ _ _ _ Hg) as [gs Hgs].
  exists gs. split; [exact Hgs|]. unfold with_nonterminals. rewrite Hgs.
  cbn [mbind Result_bind]. split.
  - intros Hwf.
    destruct (Grammar_init_well_formed infer_types m (Some (map GNt gs))
                (elements (variable_terminals g))
                (Some (nt_types g, methods g))) as (g' & extra & Hg' & _).
    + cbn [effective_goals]. now rewrite list_to_set_elements_L.
    + discriminate.
    + eauto.
  - intros g' H.
    pose proof (Grammar_init_type_info _ _ _ _ _ H) as (Ht & Hm & Hv & Hi).
    split; [exact Ht|]. split; [exact Hm|].
    split; [now apply goals_of_init_nts|].
    split; [rewrite Hv; apply list_to_set_elements_L|].
    intros other. exact H.
Qed.

End WithNonterminals.

Lemma with_nonterminals_preserves_witness :
  let infer : gset string → gset string → list (Key * NtDef) → Result (unit * unit) :=
    λ _ _ _, Ok (tt, tt) in
  let e := mkNt (NameStr "e") [] in
  let g :=
    mkGrammar {["NUM"]} {["NUM"]}
              [(KName (NameStr "e"), mkNtDef [] [mkProduction [EStr "NUM"] (AInt 0) None]);
               (KName (InitNt e), accept_def e)]
              tt tt [mkNt (InitNt e) []] in
  let m := [(KName (NameStr "e"),
             RawList [RList [EStr "NUM"]; RList [EStr "e"; EStr "+"; EStr "NUM"]])] in
  Grammar_init infer [(KName (NameStr "e"), RawList [RList [EStr "NUM"]])]
               None ["NUM"] None = Ok g
  ∧ ∃ g', with_nonterminals infer g m = Ok g'
          ∧ goals g' = goals g ∧ variable_terminals g' = variable_terminals g.
Proof.
  intros infer e g m.
  assert (Hg : Grammar_init infer [(KName (NameStr "e"), RawList [RList [EStr "NUM"]])]
                            None ["NUM"] None = Ok g) by (vm_compute; reflexivity).
  split; [exact Hg|].
  destruct (with_nonterminals infer g m) as [g'|exc] eqn:E;
    [|vm_compute in E; discriminate E].
  exists g'. split; [reflexivity|].
  destruct (with_nonterminals_preserves infer _ _ _ _ g m Hg) as (gs & _ & _ & H).
  destruct (H g' E) as (_ & _ & Hgoals & Hvt & _).
  split; assumption.
Defined.

End GrammarFacts.

(** ** The lookahead algebra and the lookahead rules of the builder *)

Module LookaheadAlgebra.
Import grammar parse_esgrammar.

(** X1.  [lookahead_intersect] is commutative, associative and idempotent,
    and [None] (no restriction) is its neutral element: restrictions met on
    a path can be combined in any order and grouping. *)
Theorem lookahead_intersect_semilattice a b c :
  lookahead_intersect a b = lookahead_intersect b a
  ∧ lookahead_intersect (lookahead_intersect a b) c
    = lookahead_intersect a (lookahead_intersect b c)
  ∧ lookahead_intersect a a = a
  ∧ lookahead_intersect None a = a
  ∧ lookahead_intersect a None = a.
Proof.
  repeat split.
  - destruct a as [[sa [|]]|], b as [[sb [|]]|]; simpl; try reflexivity;
      do 2 f_equal; set_solver.
  - destruct a as [[sa [|]]|], b as [[sb [|]]|], c as [[sc [|]]|]; simpl;
      try reflexivity; do 2 f_equal; set_solver.
  - destruct a as [[sa [|]]|]; simpl; try reflexivity; do 2 f_equal; set_solver.
  - now destruct a.
Qed.

(** X2.  [la_not_in_set] returns a rule exactly when every exclusion is one
    token long, and raises [ValueError] otherwise; the rule it returns
    admits a token exactly when the token is none of the excluded ones. *)
Theorem la_not_in_set_spec lookahead_exclusions :
  (Forall (λ excl, length excl = 1%nat) lookahead_exclusions
   ∧ ∃ rule, la_not_in_set lookahead_exclusions = Ok rule
             ∧ ∀ t, lookahead_contains (Some rule) t = true
                    ↔ [t] ∉ lookahead_exclusions)
  ∨ (¬ Forall (λ excl, length excl = 1%nat) lookahead_exclusions
     ∧ la_not_in_set lookahead_exclusions
       = Raise (ValueError "unsupported: lookahead > 1 token")).
Proof.
  unfold la_not_in_set.
  destruct (forallb _ lookahead_exclusions) eqn:E.
  - left. rewrite forallb_forall in E.
    assert (Hall : Forall (λ excl : list string, length excl = 1%nat) lookahead_exclusions).
    { apply Forall_forall. intros excl Hin. apply Nat.eqb_eq, E.
      now apply list_elem_of_In. }
    split; [exact Hall|]. eexists. split; [reflexivity|].
    intros t. simpl. rewrite negb_true_iff, bool_decide_eq_false.
    rewrite elem_of_list_to_set, list_elem_of_fmap.
    split.
    + intros Hn Hin. apply Hn. exists [t]. auto.
    + intros Hn (excl & -> & Hin). apply Hn.
      rewrite Forall_forall in Hall. pose proof (Hall _ Hin) as Hl.
      destruct excl as [|x [|y excl]]; try discriminate. exact Hin.
  - right. split; [|reflexivity]. intros Hall.
    assert (forallb (λ excl : list string, (length excl =? 1)%nat) lookahead_exclusions = true);
      [|congruence].
    apply forallb_forall. intros excl Hin. apply Nat.eqb_eq.
    rewrite Forall_forall in Hall. apply Hall. now apply list_elem_of_In.
Qed.

End LookaheadAlgebra.

(** ** The builder methods of parse_esgrammar.py *)

Module BuilderFacts.
Import grammar parse_esgrammar Py.

Lemma size_list_to_set_le (l : list string) :
  (size (list_to_set l : gset string) ≤ length l)%nat.
Proof.
  induction l as [|x l IH]; simpl; [reflexivity|].
  rewrite size_union_alt.
  rewrite size_singleton.
  assert (size (list_to_set l ∖ {[x]} : gset string) ≤ size (list_to_set l : gset string))%nat
    by (apply subseteq_size; set_solver).
  lia.
Qed.

Lemma size_list_to_set_NoDup (l : list string) :
  size (list_to_set l : gset string) = length l ↔ NoDup l.
Proof.
  split; [|apply size_list_to_set].
  induction l as [|x l IH]; simpl; intros H; [constructor|].
  destruct (decide (x ∈ l)) as [Hin|Hin].
  - assert (({[x]} ∪ list_to_set l : gset string) = list_to_set l) as E by set_solver.
    rewrite E in H. pose proof (size_list_to_set_le l). lia.
  - rewrite size_union in H by set_solver. rewrite size_singleton in H.
    constructor; [exact Hin|]. apply IH. lia.
Qed.

(** X3.  [nonterminal_apply] returns the application [Nt(name, args)]
    exactly when the parameter names of [args] are pairwise distinct; a
    parameter passed twice raises [ValueError]. *)
Theorem nonterminal_apply_spec name args :
  (NoDup (map fst args) ∧ nonterminal_apply name args = Ok (mkNt (NameStr name) args))
  ∨ (¬ NoDup (map fst args)
     ∧ nonterminal_apply name args
       = Raise (ValueError "parameter passed multiple times")).
Proof.
  unfold nonterminal_apply.
  destruct (size (list_to_set (map fst args) : gset string) =? length args)%nat eqn:E.
  - left. split; [|reflexivity]. apply Nat.eqb_eq in E.
    apply size_list_to_set_NoDup. now rewrite length_map.
  - right. split; [|reflexivity]. apply Nat.eqb_neq in E. intros Hnd.
    apply size_list_to_set_NoDup in Hnd. rewrite length_map in Hnd. contradiction.
Qed.

Lemma one_of_step lhs sole i t :
  ∃ p, nt_def_step lhs sole i ([EStr t], ANone, None) = Ok [p]
       ∧ body p = [EStr t] ∧ condition p = None
       ∧ (reducer p = AInt 0 ∨ ∃ m, reducer p = CallMethod m [AInt 0]).
Proof.
  assert (Hr : ∃ r, default_reducer lhs i [EStr t] sole = Ok r
                    ∧ (r = AInt 0 ∨ ∃ m, r = CallMethod m [AInt 0])).
  { unfold default_reducer, is_matched_pair. cbv zeta.
    change (concrete_len [EStr t]) with 1%nat. cbn [Nat.eqb search_subject].
    destruct (DesugarerFacts.is_matched_pair_loop_Some PRODUCTION_GROUPS (fst lhs) t)
      as (b & -> & _).
    destruct b; cbn [mbind Result_bind]; eauto. }
  destruct Hr as (r & Hr & Hshape).
  unfold nt_def_step, to_production. cbn [was_autogenerated fst snd].
  rewrite Hr. cbn [mbind Result_bind].
  assert (needs_asi lhs (mkProduction [EStr t] r None) = false) as ->
    by (unfold needs_asi; simpl; now rewrite andb_false_r).
  exists (mkProduction [EStr t] r None). split; [reflexivity|]. auto.
Qed.

Lemma one_of_loop lhs sole ts : ∀ i,
  ∃ prods,
    nt_def_loop lhs sole i (map (λ t, ([EStr t], ANone, None) : Fragment) ts) = Ok prods
    ∧ map body prods = map (λ t, [EStr t]) ts
    ∧ Forall (λ p, condition p = None
                   ∧ (reducer p = AInt 0 ∨ ∃ m, reducer p = CallMethod m [AInt 0]))
             prods.
Proof.
  induction ts as [|t ts IH]; intros i; simpl.
  - exists []. auto.
  - destruct (one_of_step lhs sole i t) as (p & -> & Hb & Hc & Hr).
    destruct (IH (S i)) as (prods & -> & Hbs & Hall). simpl.
    exists (p :: prods). split; [reflexivity|]. simpl. rewrite Hb, Hbs. auto.
Qed.

(** X4.  [nt_def_one_of] never raises and never applies the ASI split, not
    even to the terminal [;]: it returns one production per listed terminal,
    in order, whose body is that terminal alone, without condition, and
    whose reducer is [$0] or a method call on [$0]. *)
Theorem nt_def_one_of_spec nt_type nt_lhs eq terminals :
  ∃ prods,
    nt_def_one_of nt_type nt_lhs eq terminals
    = Ok (fst nt_lhs, eq, mkNtDef (snd nt_lhs) prods nt_type)
    ∧ map body prods = map (λ t, [EStr t]) terminals
    ∧ Forall (λ p, condition p = None
                   ∧ (reducer p = AInt 0 ∨ ∃ m, reducer p = CallMethod m [AInt 0]))
             prods.
Proof.
  unfold nt_def_one_of, nt_def.
  destruct (one_of_loop nt_lhs
              (length (map (λ t, ([EStr t], ANone, None) : Fragment) terminals) =? 1)%nat
              terminals 0%nat) as (prods & -> & Hb & Hall).
  exists prods. destruct nt_lhs as [name args]. simpl. auto.
Qed.

Lemma nt_def_step_bodies lhs sole i rhs ps :
  nt_def_step lhs sole i rhs = Ok ps →
  map body ps = asi_bodies lhs (fst (fst rhs))
  ∧ Forall (λ p, condition p = snd rhs) ps.
Proof.
  unfold nt_def_step, asi_bodies. intros H.
  apply bind_Ok_inv in H as (p & Hp & H).
  apply DesugarerFacts.to_production_body in Hp as [Hb Hc].
  assert (Hn : needs_asi lhs p = needs_asi lhs (mkProduction (fst (fst rhs)) ANone None)).
  { unfold needs_asi. simpl. now rewrite Hb. }
  rewrite <- Hn. destruct (needs_asi lhs p).
  - unfold apply_asi in H. destruct (reducer p); try discriminate.
    injection H as <-. simpl. rewrite Hb. auto.
  - injection H as <-. simpl. rewrite Hb. auto.
Qed.

Lemma nt_def_loop_bodies lhs sole rhs_list : ∀ i prods,
  nt_def_loop lhs sole i rhs_list = Ok prods →
  map body prods = concat (map (λ rhs : Fragment, asi_bodies lhs (fst (fst rhs))) rhs_list).
Proof.
  induction rhs_list as [|rhs rest IH]; simpl; intros i prods H.
  - now injection H as <-.
  - apply bind_Ok_inv in H as (ps & Hps & H).
    apply bind_Ok_inv in H as (qs & Hqs & [= <-]).
    rewrite map_app. f_equal; [|eauto].
    now apply nt_def_step_bodies in Hps as [-> _].
Qed.

(** X5.  Whenever [nt_def] returns, the definition carries the name, marker,
    parameters and type it was given, and the bodies of its productions are,
    in the order of the right-hand sides, each fragment's body followed,
    where the ASI condition holds of it, by that body with the final [;]
    replaced by the recovery symbol. *)
Theorem nt_def_bodies nt_type lhs eq rhs_list name marker d :
  nt_def nt_type lhs eq rhs_list = Ok (name, marker, d) →
  name = fst lhs ∧ marker = eq ∧ params d = snd lhs ∧ parse_esgrammar.nt_type d = nt_type
  ∧ map body (parse_esgrammar.rhs_list d)
    = concat (map (λ rhs : Fragment, asi_bodies lhs (fst (fst rhs))) rhs_list).
Proof.
  unfold nt_def. intros H.
  apply bind_Ok_inv in H as (prods & Hloop & H).
  destruct lhs as [n args]. injection H as <- <- <-. simpl.
  repeat split. eapply nt_def_loop_bodies, Hloop.
Qed.

Lemma nt_def_bodies_witness :
  let lhs : Lhs := ("S", []) in
  let rhs_list : list Fragment :=
    [([EStr "x"; EStr ";"], ANone, None); ([EStr "y"], AInt 0, None)] in
  ∃ d, nt_def None lhs ":" rhs_list = Ok ("S", ":", d)
       ∧ map body (parse_esgrammar.rhs_list d)
         = [[EStr "x"; EStr ";"]; [EStr "x"; ErrorSymbol "asi"]; [EStr "y"]].
Proof.
  intros lhs rhs_list. eexists. split; [reflexivity|].
  refine (proj2 (proj2 (proj2 (proj2
            (nt_def_bodies None lhs ":" rhs_list "S" ":" _ eq_refl))))).
Defined.

End BuilderFacts.

(** ** Integers as text: [str], [int] and the match references *)

Module IntTextFacts.
Import grammar parse_esgrammar Py.












End IntTextFacts.

(** ** finish_grammar: what is refused, and the multi-grammar mode *)

Module AssemblyFacts.
Import grammar parse_esgrammar Py DictFacts FinishGrammarFacts.

Lemma mapM_raises {A B} (f : A → Result B) xs x :
  x ∈ xs → raises (f x) → raises (mapM f xs).
Proof.
  intros Hx [e He]. induction xs as [|y xs IH]; [inversion Hx|]. simpl.
  apply elem_of_cons in Hx as [<-|Hx].
  - rewrite He. apply raises_Raise.
  - destruct (f y) as [b|e']; [|apply raises_Raise]. simpl.
    destruct (IH Hx) as [e' ->]. apply raises_Raise.
Qed.

Lemma finish_grammar_tables_rejects nt_defs goals single_grammar :
  ¬ NoDup (names nt_defs)
  ∨ goals = []
  ∨ (single_grammar = true ∧ ∃ goal, goal ∈ goals ∧ goal ∉ names nt_defs) →
  raises (finish_grammar_tables nt_defs goals single_grammar).
Proof.
  intros H. unfold finish_grammar_tables.
  destruct (foldM nt_grammars_step [] nt_defs) as [ng|e] eqn:E; [|apply raises_Raise].
  apply nt_grammars_inv in E as (-> & Hnd & _). cbn [mbind Result_bind app].
  destruct H as [H|[->|(-> & goal & Hin & Hmiss)]]; [contradiction|apply raises_Raise|].
  destruct goals as [|g0 goals]; [inversion Hin|]. cbn [length Nat.eqb mbind Result_bind].
  assert (Hsel : raises (select_grammar (markers nt_defs) (g0 :: goals))).
  { unfold select_grammar.
    destruct (mapM_raises (goal_grammar (markers nt_defs)) (g0 :: goals) goal Hin)
      as [e ->]; [|apply raises_Raise].
    unfold goal_grammar.
    rewrite (proj2 (dict_get_None (markers nt_defs) goal)); [apply raises_Raise|].
    now rewrite dict_keys_markers. }
  destruct Hsel as [e ->]. apply raises_Raise.
Qed.

(** X7.  [finish_grammar] raises, whatever the [Grammar] constructor would
    do, when two definitions share a name, when the list of goals is empty,
    or when [single_grammar] is set and some goal has no definition. *)
Theorem finish_grammar_rejects {G S : Type} (nt_defs : list NtTriple)
        (goals : list string) (synthetic_terminals : S) (single_grammar : bool) :
  ¬ NoDup (names nt_defs)
  ∨ goals = []
  ∨ (single_grammar = true ∧ ∃ goal, goal ∈ goals ∧ goal ∉ names nt_defs) →
  ∀ Grammar : _ → _ → _ → _ → Result G,
    raises (finish_grammar Grammar nt_defs goals synthetic_terminals single_grammar).
Proof.
  intros H Grammar. unfold finish_grammar.
  destruct (finish_grammar_tables_rejects nt_defs goals single_grammar H) as [e ->].
  apply raises_Raise.
Qed.

Lemma finish_grammar_rejects_witness :
  let d := DefNt (mkNtDef [] [] None) in
  raises (finish_grammar (λ n g v s, Ok (n, g, v, s))
            [("Stmt", ":", d); ("Stmt", "::", d)] ["Stmt"] tt false)
  ∧ raises (finish_grammar (λ n g v s, Ok (n, g, v, s))
              [("Stmt", ":", d)] ["Expr"] tt true).
Proof.
  intros d. split.
  - apply (finish_grammar_rejects [("Stmt", ":", d); ("Stmt", "::", d)] ["Stmt"] tt false).
    left. intros Hnd. apply NoDup_cons in Hnd as [Hn _]. apply Hn. left.
  - apply (finish_grammar_rejects [("Stmt", ":", d)] ["Expr"] tt true).
    right. right. split; [reflexivity|]. exists "Expr". split; [left|].
    intros Hin. apply list_elem_of_singleton in Hin. discriminate.
Defined.

Lemma nonterminals_loop_all nt_defs : ∀ acc_n acc_v,
  Forall is_NtDef nt_defs →
  NoDup (names nt_defs) →
  (∀ n, n ∈ names nt_defs → n ∉ dict_keys acc_n) →
  foldM (nonterminals_step None) (acc_n, acc_v) nt_defs
  = Ok ((acc_n ++ map (λ t : NtTriple, (fst (fst t), snd t)) nt_defs)%list, acc_v).
Proof.
  induction nt_defs as [|[[n e] d] nt_defs IH]; intros acc_n acc_v Hdef Hnd Hfresh.
  - cbn [foldM map]. now rewrite app_nil_r.
  - apply Forall_cons in Hdef as [[d' Hd] Hdef]. cbn [snd] in Hd; subst d.
    rewrite names_cons in Hnd, Hfresh.
    apply NoDup_cons in Hnd as [Hn Hnd].
    assert (En : n ∉ dict_keys acc_n) by (apply Hfresh; left).
    cbn [foldM].
    change (nonterminals_step None (acc_n, acc_v) (n, e, DefNt d'))
      with (Ok (dict_set acc_n n (DefNt d'), acc_v)
            : Result (list (string * DefOrList) * gset string)).
    rewrite (dict_set_fresh _ _ _ En). cbn [mbind Result_bind].
    rewrite IH; auto.
    + cbn [map fst snd]. now rewrite <- app_assoc.
    + intros m Hm. rewrite dict_keys_app, elem_of_app.
      intros [Hacc|Hs]; [apply (Hfresh m); [now right|exact Hacc]|].
      apply list_elem_of_singleton in Hs as ->. contradiction.
Qed.

(** X8.  With [single_grammar] false the markers play no role: for
    definitions built by [nt_def] under pairwise distinct names and a
    non-empty goal list, [finish_grammar] hands every definition, in order,
    to the [Grammar] constructor with the goals as given and no variable
    terminal, and returns what the constructor returns. *)
Theorem finish_grammar_multi {G S : Type} (nt_defs : list NtTriple)
        (goals : list string) (synthetic_terminals : S) :
  goals ≠ [] → NoDup (names nt_defs) → Forall is_NtDef nt_defs →
  ∀ Grammar : _ → _ → _ → _ → Result G,
    finish_grammar Grammar nt_defs goals synthetic_terminals false
    = Grammar (map (λ t : NtTriple, (fst (fst t), snd t)) nt_defs) goals ∅
              synthetic_terminals.
Proof.
  intros Hne Hnd Hdef Grammar. unfold finish_grammar, finish_grammar_tables.
  rewrite (nt_grammars_intro nt_defs []) by (auto; intros n _ H; inversion H).
  cbn [mbind Result_bind app].
  destruct goals as [|g goals]; [congruence|]. cbn [length Nat.eqb mbind Result_bind].
  rewrite nonterminals_loop_all; auto. intros n _ H; inversion H.
Qed.

Lemma finish_grammar_multi_witness :
  let d := DefNt (mkNtDef [] [] None) in
  finish_grammar (λ n g v s, Ok (n, g, v, s))
    [("Stmt", ":", d); ("Tok", "::", d)] ["Stmt"; "Tok"] tt false
  = Ok ([("Stmt", d); ("Tok", d)], ["Stmt"; "Tok"], ∅, tt).
Proof.
  intros d.
  apply (finish_grammar_multi [("Stmt", ":", d); ("Tok", "::", d)] ["Stmt"; "Tok"] tt).
  - discriminate.
  - repeat constructor; set_solver.
  - repeat constructor; eexists; reflexivity.
Defined.

End AssemblyFacts.

(** ** Names: camel case, snake case and method names *)

Module NamingFacts.
Import grammar emit Py.



Lemma chr_lower_underscore c :
  Ascii.eqb "_" c = false → Ascii.eqb "_" (chr_lower c) = false.
Proof.
  destruct c as [[|] [|] [|] [|] [|] [|] [|] [|]]; vm_compute; congruence.
Qed.

Lemma chr_upper_underscore c :
  Ascii.eqb "_" c = false → Ascii.eqb "_" (chr_upper c) = false.
Proof.
  destruct c as [[|] [|] [|] [|] [|] [|] [|] [|]]; vm_compute; congruence.
Qed.






Lemma existsb_rev {A} (f : A → bool) l : existsb f (rev l) = existsb f l.
Proof.
  induction l as [|x l IH]; simpl; [reflexivity|].
  rewrite existsb_app, IH. simpl. rewrite orb_false_r. apply orb_comm.
Qed.

Lemma split_chars_no_sep sep l : ∀ cur,
  existsb (Ascii.eqb sep) cur = false →
  Forall (λ part, existsb (Ascii.eqb sep) part = false) (split_chars sep cur l).
Proof.
  induction l as [|c l IH]; intros cur Hcur; simpl.
  - constructor; [|constructor]. rewrite existsb_rev. exact Hcur.
  - destruct (Ascii.eqb c sep) eqn:E.
    + constructor; [now rewrite existsb_rev|]. now apply IH.
    + apply IH. simpl. rewrite Hcur, orb_false_r.
      rewrite Ascii.eqb_sym. exact E.
Qed.

Lemma capitalize_no_underscore s :
  contains_chr "_" s = false → contains_chr "_" (capitalize s) = false.
Proof.
  unfold contains_chr, capitalize. destruct (chars s) as [|c rest]; [reflexivity|].
  rewrite PyFacts.chars_str. cbn [existsb]. intros H.
  apply orb_false_iff in H as [Hc Hrest].
  rewrite (chr_upper_underscore _ Hc). cbn [orb].
  induction rest as [|d rest IH]; [reflexivity|].
  cbn [existsb map] in *. apply orb_false_iff in Hrest as [Hd Hrest].
  rewrite (chr_lower_underscore _ Hd). cbn [orb]. auto.
Qed.

Lemma join_no_underscore words :
  Forall (λ w, contains_chr "_" w = false) words →
  contains_chr "_" (join words) = false.
Proof.
  unfold contains_chr. induction 1 as [|w words Hw _ IH]; simpl; [reflexivity|].
  rewrite PyFacts.chars_append, existsb_app, Hw. exact IH.
Qed.

(** X10.  The camel-case spelling of any text holds no underscore. *)
Theorem to_camel_case_no_underscore ident :
  contains_chr "_" (to_camel_case ident) = false.
Proof.
  unfold to_camel_case. destruct (contains_chr "_" ident) eqn:E.
  - apply join_no_underscore. apply Forall_forall. intros w Hw.
    apply list_elem_of_fmap in Hw as (part & -> & Hpart).
    apply capitalize_no_underscore. unfold split in Hpart.
    apply list_elem_of_fmap in Hpart as (p & -> & Hp).
    unfold contains_chr. rewrite PyFacts.chars_str.
    pose proof (split_chars_no_sep "_"%char (chars ident) [] eq_refl) as Hall.
    rewrite Forall_forall in Hall. now apply Hall.
  - destruct (islower ident); [now apply capitalize_no_underscore|exact E].
Qed.

End NamingFacts.

(** ** Method names and reduce expressions in the emitted code *)

Module MethodNameFacts.
Import grammar emit Py.


Lemma partition_chars_no_space a :
  forallb (λ c, negb (Ascii.eqb c " ")) a = true → partition_chars a = (a, [], []).
Proof.
  induction a as [|c a IH]; simpl; [reflexivity|].
  rewrite andb_true_iff, negb_true_iff. intros [-> Ha]. now rewrite IH.
Qed.






(** X12.  The Rust name of a synthesized method: for a nonterminal whose
    name is an identifier, the method [nt] is spelled as the snake case of
    the name, and the method [nt i] as that spelling followed by [_p] and
    the index. *)
Theorem method_name_to_rust_default lhs i :
  isidentifier (fst lhs) = true →
  method_name_to_rust (parse_esgrammar.default_method_name lhs i true)
  = Ok (to_snek_case (fst lhs))
  ∧ method_name_to_rust (parse_esgrammar.default_method_name lhs i false)
    = Ok (to_snek_case (fst lhs) +:+ "_p" +:+ str_of_nat i).
Proof.
  intros Hid. unfold parse_esgrammar.default_method_name, method_name_to_rust. split.
  - unfold partition_space.
    rewrite (partition_chars_no_space _ (PyFacts.isidentifier_no_space _ Hid)).
    now rewrite PyFacts.str_chars.
  - now rewrite (PyFacts.partition_space_at_space _ _ Hid).
Qed.

Lemma method_name_to_rust_default_witness :
  method_name_to_rust "IfStatement 1" = Ok "if_statement_p1".
Proof.
  exact (proj2 (method_name_to_rust_default ("IfStatement", []) 1 eq_refl)).
Defined.

Lemma compile_args args :
  Forall (λ a, ∃ s, write_python_parser_action a = Ok s) args →
  ∃ l, (fix go (args : list Action) : Result (list string) :=
          match args with
          | [] => Ok []
          | x :: rest =>
              y ← write_python_parser_action x;
              ys ← go rest;
              Ok (y :: ys)
          end) args = Ok l.
Proof.
  induction 1 as [|a args [s Hs] _ [l IH]]; [eauto|].
  rewrite Hs. cbn [mbind Result_bind]. rewrite IH. cbn [mbind Result_bind]. eauto.
Qed.

(** X13.  A reduce expression that passes [check_reduce_action] is compiled
    to Python by [write_python_parser] without failing the assertion of its
    last branch. *)
Theorem checked_action_compiles rhs_body a :
  check_reduce_action rhs_body a = Ok tt →
  ∃ text, write_python_parser_action a = Ok text.
Proof.
  induction a as [n|method args IH| |inner IH|] using GrammarFacts.Action_induction;
    cbn [check_reduce_action write_python_parser_action]; intros H;
    try discriminate; eauto.
  apply bind_Ok_inv in H as ([] & _ & H).
  destruct (compile_args args) as [l Hl].
  - rewrite Forall_forall in IH |- *. intros a Ha. apply IH; [exact Ha|].
    now apply (GrammarFacts.forM_Ok_each _ _ H).
  - rewrite Hl. cbn [mbind Result_bind]. eauto.
Qed.

Lemma checked_action_compiles_witness :
  ∃ text,
    write_python_parser_action (CallMethod "expr 1" [AInt 0; ASome (AInt 1); ANone])
    = Ok text.
Proof.
  apply (checked_action_compiles [EStr "a"; EStr "b"]). reflexivity.
Defined.

End MethodNameFacts.

(** ** The [NonterminalId] enum written after the camel-case check *)

Module NonterminalIdFacts.
Import grammar emit Py DictFacts EmitFacts.

Lemma check_loop_Ok_spelled repr_str nts : ∀ seen r,
  foldM (check_camel_case_step repr_str) seen nts = Ok r → all_spelled nts.
Proof.
  induction nts as [|nt nts IH]; intros seen r H; [constructor|].
  cbn [foldM] in H. apply bind_Ok_inv in H as (seen' & Hstep & H).
  constructor; [|eapply IH, H].
  unfold check_camel_case_step in Hstep.
  apply bind_Ok_inv in Hstep as (cc & Hcc & _). eauto.
Qed.

Lemma all_spelled_names nts :
  all_spelled nts → ∃ names, Forall2 (λ nt cc, nonterminal_to_camel nt = Ok cc) nts names.
Proof.
  induction 1 as [|nt nts [cc Hcc] _ [names IH]]; [exists []; constructor|].
  exists (cc :: names). now constructor.
Qed.

Lemma Forall2_NoDup_inj {A B} (f : A → Result B) xs ys :
  Forall2 (λ x y, f x = Ok y) xs ys →
  NoDup xs →
  (∀ x y c, x ∈ xs → y ∈ xs → f x = Ok c → f y = Ok c → x = y) →
  NoDup ys.
Proof.
  induction 1 as [|x y xs ys Hxy Hall IH]; intros Hnd Hinj; [constructor|].
  apply NoDup_cons in Hnd as [Hx Hnd]. constructor.
  - intros Hy. apply list_elem_of_lookup in Hy as [i Hi].
    destruct (Forall2_lookup_r _ _ _ _ _ Hall Hi) as (x' & Hx' & Hfx').
    apply Hx. rewrite (Hinj x x' y); [eapply list_elem_of_lookup_2, Hx'|left| |exact Hxy|exact Hfx'].
    right. eapply list_elem_of_lookup_2, Hx'.
  - apply IH; [exact Hnd|]. intros a b c Ha Hb. apply Hinj; now right.
Qed.

Lemma variants_written nts : ∀ names k out,
  Forall2 (λ nt cc, nonterminal_to_camel nt = Ok cc) nts names →
  for_each (λ '(i, nt),
      name ← lift (nonterminal_to_camel nt);
      write 1 (name +:+ " = " +:+ str_of_nat i +:+ ","))
    (zip (seq k (length nts)) nts) out
  = ((out ++ map (λ '(i, name), line 1 (name +:+ " = " +:+ str_of_nat i +:+ ","))
                 (zip (seq k (length names)) names))%list, Ok tt).
Proof.
  induction nts as [|nt nts IH]; intros names k out H.
  - apply Forall2_nil_inv_l in H as ->. simpl. now rewrite app_nil_r.
  - apply Forall2_cons_inv_l in H as (cc & names' & Hcc & Hall & ->).
    cbn [length seq zip zip_with for_each map].
    unfold mbind at 1, Emit_bind at 1.
    unfold mbind at 1, Emit_bind at 1, lift at 1. rewrite Hcc.
    unfold write at 1, out_write at 1.
    rewrite (IH _ (S k) _ Hall). now rewrite <- app_assoc.
Qed.

(** X14.  For a writer built by [RustParserWriter.__init__]: once
    [check_camel_case] has passed, every nonterminal has a camel-case
    spelling, the spellings are pairwise distinct, and [nonterminal_id]
    writes the enum [NonterminalId] with exactly these spellings as its
    variants, numbered in order, without raising. *)
Theorem nonterminal_id_variants_distinct repr_str vt sts out out' :
  let self := RustParserWriter_init vt sts in
  check_camel_case repr_str self out = (out', Ok tt) →
  ∃ names,
    mapM nonterminal_to_camel (nonterminals self) = Ok names
    ∧ NoDup names
    ∧ ∀ out1,
        nonterminal_id self out1
        = ((out1
            ++ [line 0 "#[derive(Clone, Copy, Debug, PartialEq)]";
                line 0 "pub enum NonterminalId {"]
            ++ map (λ '(i, name), line 1 (name +:+ " = " +:+ str_of_nat i +:+ ","))
                   (enumerate names)
            ++ [line 0 "}"; line 0 ""])%list, Ok tt).
Proof.
  intros self Hcheck.
  assert (Hnd : NoDup (nonterminals self)) by apply RustParserWriter_init_NoDup.
  unfold check_camel_case, lift in Hcheck.
  unfold mbind at 1, Emit_bind at 1 in Hcheck.
  destruct (foldM (check_camel_case_step repr_str) [] (nonterminals self))
    as [seen|e] eqn:E; [|discriminate].
  pose proof (check_loop_Ok_spelled _ _ _ _ E) as Hsp.
  pose proof (check_loop_spec repr_str (nonterminals self) [] []
                ltac:(discriminate) ltac:(intros ? Hx; inversion Hx) Hnd Hsp) as Hinj.
  rewrite E in Hinj. cbn [app] in Hinj.
  destruct (all_spelled_names _ Hsp) as [names Hnames].
  exists names. split; [now apply mapM_Ok_intro|].
  split; [eapply Forall2_NoDup_inj; eauto|].
  intros out1. unfold nonterminal_id, enumerate.
  unfold mbind at 1, Emit_bind at 1. unfold write at 1, out_write at 1.
  unfold mbind at 1, Emit_bind at 1. unfold write at 1, out_write at 1.
  unfold mbind at 1, Emit_bind at 1. rewrite (variants_written _ _ _ _ Hnames).
  unfold mbind at 1, Emit_bind at 1. unfold write at 1, out_write at 1.
  unfold write, out_write, line. rewrite <- !app_assoc. reflexivity.
Qed.

Lemma nonterminal_id_variants_distinct_witness :
  let sts := [mkState [] [(IdStr "expr", 1%nat); (IdStr "stmt_list", 2%nat)] ""] in
  ∃ names,
    mapM nonterminal_to_camel (nonterminals (RustParserWriter_init ∅ sts)) = Ok names
    ∧ NoDup names.
Proof.
  intros sts.
  destruct (nonterminal_id_variants_distinct (λ s, s) ∅ sts [] [] eq_refl)
    as (names & Hn & Hd & _).
  exists names. split; assumption.
Defined.

End NonterminalIdFacts.

(** ** The constructor accepts exactly the well-formed dictionaries *)

Module ConstructorFacts.
Import grammar Py DictFacts GrammarFacts.

Lemma key_scan_inv nts kan :
  ∀ todo done ntp s2n ntp' s2n',
    nts = (done ++ todo)%list →
    (∀ name ps, dict_get ntp name = Some ps ↔ declared_params done name ps) →
    (∀ name nt, dict_get s2n name = Some nt
                ↔ nt = mkNt name [] ∧ declared_params done name []) →
    foldM (key_scan_step kan) (ntp, s2n) todo = Ok (ntp', s2n') →
    (∀ key, key ∈ dict_keys todo → is_KNt key = kan)
    ∧ (∀ name ps, dict_get ntp' name = Some ps ↔ declared_params nts name ps)
    ∧ (∀ name nt, dict_get s2n' name = Some nt
                  ↔ nt = mkNt name [] ∧ declared_params nts name []).
Proof.
  induction todo as [|[key value] todo IH]; intros done ntp s2n ntp' s2n' Hnts Hp Hs H.
  - rewrite app_nil_r in Hnts. subst done. injection H as <- <-.
    split; [intros key Hk; inversion Hk|auto].
  - assert (Hnts' : nts = ((done ++ [(key, value)]) ++ todo)%list)
      by (now rewrite <- app_assoc).
    cbn [foldM] in H. apply bind_Ok_inv in H as ([ntp1 s2n1] & Hstep & H).
    assert (Hk : is_KNt key = kan).
    { unfold key_scan_step in Hstep.
      destruct (Bool.eqb (is_KNt key) kan) eqn:E; [|discriminate].
      now apply eqb_prop in E. }
    rewrite (key_scan_step_eq _ _ _ _ _ Hk) in Hstep.
    set (name := key_name key) in *. set (pn := key_param_names key value) in *.
    apply bind_Ok_inv in Hstep as (ntp2 & Hntp & Hstep).
    injection Hstep as -> <-.
    assert (Hp1 : ∀ n ps, dict_get ntp1 n = Some ps
                          ↔ declared_params (done ++ [(key, value)]) n ps).
    { intros n ps. rewrite declared_params_snoc.
      destruct (dict_get ntp name) as [known|] eqn:Eg.
      - destruct (decide (known = pn)) as [->|]; [|discriminate].
        injection Hntp as <-. rewrite Hp. split; [now left|].
        intros [Hd|[<- <-]]; [exact Hd|]. now apply Hp.
      - injection Hntp as <-. rewrite dict_get_set.
        destruct (decide (name = n)) as [<-|Hne].
        + split.
          * intros [= <-]. now right.
          * intros [Hd|[_ <-]]; [|reflexivity]. apply Hp in Hd. congruence.
        + rewrite Hp. split; [now left|]. intros [Hd|[Hd _]]; [exact Hd|contradiction]. }
    match type of H with
    | foldM _ (_, ?x) _ = _ => set (s2n1 := x) in *
    end.
    assert (Hs1 : ∀ n nt, dict_get s2n1 n = Some nt
                          ↔ nt = mkNt n [] ∧ declared_params (done ++ [(key, value)]) n []);
      [|destruct (IH (done ++ [(key, value)])%list _ _ _ _ Hnts' Hp1 Hs1 H)
          as (Htypes & Hp' & Hs')].
    + intros n nt. subst s2n1. rewrite declared_params_snoc.
      destruct (bool_decide (pn = [])) eqn:Epn; cbn [andb].
      * apply bool_decide_eq_true in Epn.
        destruct (dict_mem s2n name) eqn:Em; cbn [negb].
        -- rewrite Hs. split; [intros [? ?]; auto|].
           intros [-> [Hd|[<- _]]]; [auto|].
           unfold dict_mem in Em. destruct (dict_get s2n name) as [x|] eqn:Ex;
             [|discriminate].
           apply Hs in Ex as [_ Hd]. auto.
        -- rewrite dict_get_set.
           destruct (decide (name = n)) as [<-|Hne].
           ++ split; [intros [= <-]; split; [reflexivity|now right]|].
              now intros [-> _].
           ++ rewrite Hs. split; [intros [? ?]; auto|].
              intros [-> [Hd|[Hd _]]]; [auto|contradiction].
      * apply bool_decide_eq_false in Epn.
        rewrite Hs. split; [intros [? ?]; auto|].
        intros [-> [Hd|[_ Hd]]]; [auto|contradiction].
    + split; [|auto]. intros k Hin. cbn [dict_keys map fst] in Hin.
      apply elem_of_cons in Hin as [->|Hin]; [exact Hk|now apply Htypes].
Qed.

Lemma check_method_name_inv method :
  check_method_name method = Ok tt → valid_method_name method = true.
Proof.
  unfold valid_method_name, check_method_name.
  destruct (isidentifier method); [reflexivity|]. simpl.
  destruct (partition_space method) as [[name space] pn].
  now destruct (_ && _).
Qed.

Lemma check_reduce_action_inv rhs_body a :
  check_reduce_action rhs_body a = Ok tt → action_ok rhs_body a = true.
Proof.
  induction a as [n|method args IH| |inner IH|] using Action_induction;
    simpl; intros H; try discriminate; auto.
  - now destruct (_ && _).
  - apply bind_Ok_inv in H as ([] & Hm & Hargs).
    rewrite (check_method_name_inv _ Hm). cbn [andb].
    apply forallb_forall. intros a Ha. apply list_elem_of_In in Ha.
    rewrite Forall_forall in IH. apply IH; [exact Ha|].
    now apply (forM_Ok_each _ _ Hargs).
Qed.

Lemma Production_eqb_eq p q : Production_eqb p q = true → p = q.
Proof.
  unfold Production_eqb. rewrite !andb_true_iff.
  intros [[Hb Ha] Hc]. apply bool_decide_eq_true in Hb, Hc.
  apply Action_eqb_eq in Ha. destruct p, q. simpl in *. congruence.
Qed.

Lemma items_ne_false xs : ∀ ys,
  length xs = length ys → items_ne xs ys = Ok false → xs = map RProduction ys.
Proof.
  induction xs as [|x xs IH]; intros [|y ys] Hl H; try discriminate; [reflexivity|].
  simpl in *. destruct x as [l|p]; [discriminate|].
  destruct (Production_eqb p y) eqn:E; [|discriminate].
  apply Production_eqb_eq in E as ->. f_equal. apply IH; [lia|exact H].
Qed.

Lemma differs_from_all_inv rhs_list forms :
  differs_from_all rhs_list forms = Ok false →
  ∃ form, form ∈ forms ∧ rhs_list = map RProduction form.
Proof.
  induction forms as [|form forms IH]; simpl; intros H; [discriminate|].
  apply bind_Ok_inv in H as (ne & Hne & H). destruct ne.
  - destruct (IH H) as (f & Hf & Heq). exists f. split; [now right|exact Heq].
  - exists form. split; [left|]. unfold rhs_list_ne in Hne.
    destruct (length rhs_list =? length form)%nat eqn:El; [|discriminate].
    apply Nat.eqb_eq in El. now apply items_ne_false.
Qed.

Section Inversion.
Variable nts : list (Key * RawDef).
Variable gs : list Goal.
Variable vt : gset string.
Variable ntp : list (NtName * list string).
Variable s2n : list (NtName * Nt).
Hypothesis ntp_spec :
  ∀ name ps, dict_get ntp name = Some ps ↔ declared_params nts name ps.
Hypothesis s2n_spec :
  ∀ name nt, dict_get s2n name = Some nt
             ↔ nt = mkNt name [] ∧ declared_params nts name [].

Lemma validate_nt_use_inv ctx nt :
  validate_nt_use nts ntp nt ctx = Ok tt → nt_use_ok nts ctx nt.
Proof using ntp_spec.
  unfold validate_nt_use. intros H.
  apply bind_Ok_inv in H as ([] & Hmem & H).
  apply bind_Ok_inv in H as ([] & Hargs & Hvars).
  split; [|split].
  - destruct (dict_mem nts (KNt nt)) eqn:E1; [left; now apply dict_mem_true|].
    destruct (dict_mem nts (KName (nt_name nt))) eqn:E2;
      [right; now apply dict_mem_true|discriminate].
  - intros ps Hd. apply ntp_spec in Hd. rewrite Hd in Hargs.
    now destruct (decide _).
  - intros param v Hin. pose proof (forM_Ok_each _ _ Hvars _ Hin) as Hv.
    unfold check_var_arg in Hv. simpl in Hv.
    destruct (bool_decide (v ∈ ctx)) eqn:E; [|discriminate].
    now apply bool_decide_eq_true in E.
Qed.

Lemma validate_symbol_inv ctx e ts r :
  match e with EStr _ | ENt _ => True | _ => False end →
  validate_element nts ntp s2n e ctx ts = Ok r → symbol_ok nts ctx e.
Proof using ntp_spec.
  destruct e as [s|inner|nt|rule| |code|repr]; try contradiction; intros _ H.
  - cbn [validate_element] in H. cbn [symbol_ok]. intros ps Hd.
    apply ntp_spec in Hd. rewrite Hd in H.
    destruct (bool_decide (ps = [])) eqn:E; [|discriminate].
    now apply bool_decide_eq_true in E.
  - cbn [validate_element] in H. apply bind_Ok_inv in H as ([] & Huse & _).
    now apply validate_nt_use_inv.
Qed.

Lemma validate_element_inv ctx e ts r :
  validate_element nts ntp s2n e ctx ts = Ok r → element_ok nts ctx e.
Proof using ntp_spec.
  destruct e as [s|inner|nt|rule| |code|repr]; intros H; try discriminate;
    try exact I; try (eapply validate_symbol_inv; [exact I|exact H]).
  cbn [element_ok].
  destruct inner as [s|inner'|nt|rule| |code|repr]; try discriminate;
    cbn [validate_element] in H;
    apply bind_Ok_inv in H as ([e' ts'] & Hin & _);
    (eapply validate_symbol_inv; [exact I|exact Hin]).
Qed.

Lemma copy_rhs_inv key sole ctx i rhs ts r :
  copy_rhs nts ntp s2n key sole ctx (i, rhs) ts = Ok r → rhs_ok nts key ctx rhs.
Proof using ntp_spec.
  unfold copy_rhs. intros H.
  apply bind_Ok_inv in H as (p & Hp & H).
  apply bind_Ok_inv in H as ([] & Hcond & H).
  apply bind_Ok_inv in H as ([] & Hact & H).
  apply bind_Ok_inv in H as ([b ts'] & Hm & _).
  assert (Hb : body p = rhs_body rhs).
  { destruct rhs as [l|q]; simpl in *.
    - apply bind_Ok_inv in Hp as (a & _ & [= <-]). reflexivity.
    - now injection Hp as <-. }
  split.
  - apply Forall_forall. intros e He. rewrite <- Hb in He.
    destruct (mapS_Ok_each _ _ _ _ Hm e He) as (ts1 & r1 & Hv).
    eapply validate_element_inv, Hv.
  - destruct rhs as [symbols|q].
    + apply bind_Ok_inv in Hp as (a & Ha & _). unfold default_action in Ha.
      destruct ((length symbols =? 1)%nat && (concrete_len symbols =? 1)%nat) eqn:E.
      * left. apply andb_true_iff in E as [E1 E2].
        apply Nat.eqb_eq in E1, E2. auto.
      * right. destruct key as [[s|g]|nt]; [eauto| |]; now destruct sole.
    + injection Hp as <-. split.
      * intros param value Ec. rewrite Ec in Hcond.
        destruct (bool_decide (param ∈ ctx)) eqn:E; [|discriminate].
        now apply bool_decide_eq_true in E.
      * destruct (Action_eqb (action q) AAccept) eqn:E.
        -- left. now apply Action_eqb_accept.
        -- right. now apply check_reduce_action_inv.
Qed.

Lemma copy_nt_def_inv key value ts r :
  copy_nt_def nts ntp s2n key value ts = Ok r →
  ∀ rhs, rhs ∈ raw_rhs_list value → rhs_ok nts key (raw_params value) rhs.
Proof using ntp_spec.
  unfold copy_nt_def. fold (raw_params value). intros H rhs Hrhs.
  apply bind_Ok_inv in H as ([l ts'] & Hm & _).
  destruct (enumerate_mem _ _ 0%nat Hrhs) as [i Hi].
  destruct (mapS_Ok_each _ _ _ _ Hm _ Hi) as (ts1 & r1 & H1).
  eapply copy_rhs_inv, H1.
Qed.

Lemma check_name_inv name ts :
  check_name nts gs vt ntp s2n name ts = Ok tt → name_ok nts gs vt name.
Proof using ntp_spec.
  destruct name as [s|g]; simpl.
  - unfold check_str_key. destruct (isidentifier s); [|discriminate]. simpl.
    destruct (bool_decide (s ∈ vt)) eqn:E; [discriminate|].
    apply bool_decide_eq_false in E. auto.
  - unfold check_init_key. intros H.
    apply bind_Ok_inv in H as ([e' ts'] & Hv & H).
    cbn [validate_element] in Hv. apply bind_Ok_inv in Hv as ([] & Huse & _).
    destruct (bool_decide (GNt g ∈ gs)) eqn:E; [|discriminate].
    apply bool_decide_eq_true in E. split; [now apply validate_nt_use_inv|exact E].
Qed.

Lemma validate_nt_inv kan key value ts r :
  validate_nt nts gs vt kan ntp s2n (key, value) ts = Ok r →
  key_ok nts gs vt key value
  ∧ ∀ rhs, rhs ∈ raw_rhs_list value → rhs_ok nts key (raw_params value) rhs.
Proof using ntp_spec.
  unfold validate_nt. intros H.
  apply bind_Ok_inv in H as ([] & Hkey & H).
  apply bind_Ok_inv in H as ([] & Hform & H).
  apply bind_Ok_inv in H as ([d ts'] & Hc & _).
  split; [|eapply copy_nt_def_inv, Hc].
  destruct key as [name|[name args]]; cbn [key_ok check_nt_key nt_name nt_args] in *.
  - split; [eapply check_name_inv, Hkey|].
    destruct name as [s|g]; [exact I|].
    destruct value as [l|ps l]; [discriminate|].
    apply bind_Ok_inv in Hform as (bad & Hbad & Hform).
    destruct bad; [discriminate|].
    destruct (differs_from_all_inv _ _ Hbad) as (form & Hin & ->). eauto.
  - apply bind_Ok_inv in Hkey as ([] & _ & Hkey).
    apply bind_Ok_inv in Hkey as ([] & Hname & Hargs).
    split; [eapply check_name_inv, Hname|].
    intros param a Hin. pose proof (forM_Ok_each _ _ Hargs _ Hin) as Ha.
    unfold check_bool_arg in Ha. simpl in Ha. destruct a as [b|v]; [eauto|discriminate].
Qed.

Lemma resolve_goal_inv kan goal nt :
  resolve_goal nts kan s2n goal = Ok nt →
  goal_ok nts kan goal ∧ nt = goal_nt goal.
Proof using s2n_spec.
  destruct goal as [s|g]; simpl.
  - destruct (dict_get s2n (NameStr s)) as [x|] eqn:E; [|discriminate].
    intros [= ->]. apply s2n_spec in E as [-> Hd]. auto.
  - destruct kan.
    + destruct (dict_mem nts (KNt g)) eqn:E; [|discriminate].
      intros [= ->]. apply dict_mem_true in E. auto.
    + destruct (dict_mem nts (KName (nt_name g))) eqn:E; [|discriminate].
      intros [= ->]. apply dict_mem_true in E. auto.
Qed.

End Inversion.

Section Acceptance.
Context {NtTypes Methods : Type}.
Variable infer_types :
  gset string → gset string → list (Key * NtDef) → Result (NtTypes * Methods).

(** The values the constructor computes on the way to a grammar. *)
Lemma Grammar_init_inv nts goal_nts vt type_info g :
  Grammar_init infer_types nts goal_nts vt type_info = Ok g →
  ∃ key0 value0 rest ntp s2n acc,
    nts = (key0, value0) :: rest
    ∧ foldM (key_scan_step (is_KNt key0)) ([], []) nts = Ok (ntp, s2n)
    ∧ foldM (validate_step nts (effective_goals nts goal_nts) (list_to_set vt)
                           (is_KNt key0) ntp s2n)
            ([], list_to_set vt) nts = Ok (acc, terminals g)
    ∧ foldM (init_step nts (is_KNt key0) s2n) (acc, []) (effective_goals nts goal_nts)
      = Ok (nonterminals g, init_nts g)
    ∧ variable_terminals g = list_to_set vt.
Proof.
  unfold Grammar_init. intros H.
  apply bind_Ok_inv in H as (first & Hfirst & H).
  destruct nts as [|[key0 value0] rest]; [discriminate|].
  injection Hfirst as <-.
  apply bind_Ok_inv in H as ([ntp s2n] & Hscan & H).
  apply bind_Ok_inv in H as ([acc ts] & Hv & H).
  apply bind_Ok_inv in H as (info & _ & H).
  apply bind_Ok_inv in H as ([acc' l] & Hi & H).
  injection H as <-. simpl. eauto 12.
Qed.

Lemma Grammar_init_Ok_well_formed nts goal_nts vt type_info g :
  NoDup (dict_keys nts) →
  Grammar_init infer_types nts goal_nts vt type_info = Ok g →
  well_formed nts (effective_goals nts goal_nts) (list_to_set vt).
Proof.
  intros Hnd H.
  destruct (Grammar_init_inv _ _ _ _ _ H)
    as (key0 & value0 & rest & ntp & s2n & acc & Ents & Hscan & Hv & Hi & _).
  assert (Hfirst : first_key_is_nt nts = is_KNt key0) by (now rewrite Ents).
  destruct (key_scan_inv nts (is_KNt key0) nts [] [] [] ntp s2n eq_refl)
    as (Htypes & Hp & Hs); [| |exact Hscan|].
  { intros name ps. split; [discriminate|]. intros (k & v & Hin & _). inversion Hin. }
  { intros name nt. split; [discriminate|]. intros [_ (k & v & Hin & _)]. inversion Hin. }
  assert (Hvalid : ∀ key value, (key, value) ∈ nts →
            key_ok nts (effective_goals nts goal_nts) (list_to_set vt) key value
            ∧ ∀ rhs, rhs ∈ raw_rhs_list value → rhs_ok nts key (raw_params value) rhs).
  { intros key value Hin.
    destruct (foldM_Ok_each _ _ _ _ Hv _ Hin) as ([acc1 ts1] & s2 & Hstep).
    rewrite validate_step_eq in Hstep. apply bind_Ok_inv in Hstep as (r & Hr & _).
    eapply validate_nt_inv; [exact Hp|exact Hr]. }
  split.
  - rewrite Ents. discriminate.
  - exact Hnd.
  - intros key Hk. rewrite Hfirst. now apply Htypes.
  - intros name ps1 ps2 H1 H2. apply Hp in H1, H2. congruence.
  - intros key value Hin. now apply Hvalid.
  - intros key value rhs Hin. now apply Hvalid.
  - intros goal Hg. rewrite Hfirst.
    destruct (foldM_Ok_each _ _ _ _ Hi _ Hg) as ([acc1 l1] & s2 & Hstep).
    rewrite init_step_eq in Hstep. apply bind_Ok_inv in Hstep as (nt & Hr & _).
    eapply resolve_goal_inv; [exact Hs|exact Hr].
Qed.


End Acceptance.


Lemma init_loop_resolved nts kan s2n goals :
  (∀ name nt, dict_get s2n name = Some nt
              ↔ nt = mkNt name [] ∧ declared_params nts name []) →
  ∀ acc l acc' l',
    foldM (init_step nts kan s2n) (acc, l) goals = Ok (acc', l') →
    l' = (l ++ map (λ goal, mkNt (InitNt (goal_nt goal)) []) goals)%list.
Proof.
  intros Hs. induction goals as [|goal goals IH]; cbn [foldM map];
    intros acc l acc' l' H.
  - injection H as <- <-. now rewrite app_nil_r.
  - apply bind_Ok_inv in H as ([acc1 l1] & Hstep & H).
    rewrite init_step_eq in Hstep.
    apply bind_Ok_inv in Hstep as (nt & Hres & [= <- <-]).
    apply (resolve_goal_inv nts s2n Hs) in Hres as [_ ->].
    apply IH in H as ->. now rewrite <- app_assoc.
Qed.

Section Goals.
Context {NtTypes Methods : Type}.
Variable infer_types :
  gset string → gset string → list (Key * NtDef) → Result (NtTypes * Methods).

Lemma Grammar_init_goals_resolved nts goal_nts vt type_info g :
  Grammar_init infer_types nts goal_nts vt type_info = Ok g →
  goals g = Ok (map goal_nt (effective_goals nts goal_nts)).
Proof.
  intros H.
  destruct (Grammar_init_inv _ _ _ _ _ _ H)
    as (key0 & value0 & rest & ntp & s2n & acc & Ents & Hscan & Hv & Hi & Hvt).
  destruct (key_scan_inv nts (is_KNt key0) nts [] [] [] ntp s2n eq_refl)
    as (_ & Hp & Hs); [| |exact Hscan|].
  { intros name ps. split; [discriminate|]. intros (k & v & Hin & _). inversion Hin. }
  { intros name nt. split; [discriminate|]. intros [_ (k & v & Hin & _)]. inversion Hin. }
  apply (init_loop_resolved _ _ _ _ Hs) in Hi. cbn [app] in Hi.
  apply goals_of_init_nts. rewrite Hi, map_map. reflexivity.
Qed.

(** X16.  On every grammar the constructor returns, [goals()] returns the
    goals the grammar was built for, in order and as [Nt]s: the given goals,
    a name standing for the nonterminal without arguments, or the first key
    of the dictionary when no goal was given. *)
Theorem goals_of_constructed_grammar nts goal_nts vt type_info g :
  Grammar_init infer_types nts goal_nts vt type_info = Ok g →
  goals g = Ok (map goal_nt (effective_goals nts goal_nts)).
Proof. apply Grammar_init_goals_resolved. Qed.

End Goals.

Lemma goals_of_constructed_grammar_witness :
  let nts := [(KName (NameStr "a"), RawList [RList [EStr "x"]]);
              (KName (NameStr "b"), RawList [RList [EStr "a"]])] in
  ∃ g, Grammar_init (λ _ _ _, Ok (tt, tt)) nts (Some [GStr "b"; GStr "a"]) [] None = Ok g
       ∧ goals g = Ok [mkNt (NameStr "b") []; mkNt (NameStr "a") []].
Proof.
  intros nts. eexists. split; [reflexivity|].
  apply (goals_of_constructed_grammar (λ _ _ _, Ok (tt, tt)) nts
           (Some [GStr "b"; GStr "a"]) [] None).
  reflexivity.
Defined.

End ConstructorFacts.

(** ** What validation establishes of the grammar it returns *)

Module ClosedFacts.
Import grammar Py DictFacts GrammarFacts ConstructorFacts.

Lemma concrete_len_cons e b :
  concrete_len (e :: b)
  = ((if is_concrete_element e then 1 else 0) + concrete_len b)%nat.
Proof.
  unfold concrete_len. rewrite filter_cons.
  destruct (decide _) as [H|H]; destruct (is_concrete_element e); simpl; congruence.
Qed.

Lemma action_ok_concrete_len b b' a :
  concrete_len b = concrete_len b' → action_ok b a = action_ok b' a.
Proof.
  intros Hl.
  induction a as [n|method args IH| |inner IH|] using Action_induction; simpl; auto.
  - now rewrite Hl.
  - f_equal. induction IH as [|a args Ha _ IHargs]; simpl; [reflexivity|].
    now rewrite Ha, IHargs.
Qed.

Lemma closed_element_mono keys ts ts' e :
  ts ⊆ ts' → closed_element keys ts e → closed_element keys ts' e.
Proof.
  intros Hsub. destruct e as [s|inner|nt|rule| |code|repr]; simpl; auto.
  - intros [Hs Hk]. split; [set_solver|exact Hk].
  - destruct inner; auto. intros [Hs Hk]. split; [set_solver|exact Hk].
Qed.

Lemma closed_element_keys keys keys' ts e :
  (∀ k, k ∈ keys → k ∈ keys') →
  (∀ k, k ∈ keys' → k ∈ keys ∨ ∃ g, key_name k = InitNt g) →
  closed_element keys ts e → closed_element keys' ts e.
Proof.
  intros Hin Hout.
  assert (Hstr : ∀ s, (∀ k, k ∈ keys → key_name k ≠ NameStr s) →
                      ∀ k, k ∈ keys' → key_name k ≠ NameStr s).
  { intros s Hs k Hk. destruct (Hout k Hk) as [Hk'|[g Hg]]; [now apply Hs|].
    rewrite Hg. discriminate. }
  destruct e as [s|inner|nt|rule| |code|repr]; simpl; auto.
  - intros [Hs Hk]. eauto.
  - destruct inner; auto.
    + intros [Hs Hk]. eauto.
    + intros [H|H]; auto.
  - intros [H|H]; auto.
Qed.

Lemma closed_production_mono keys ts ts' ps p :
  ts ⊆ ts' → closed_production keys ts ps p → closed_production keys ts' ps p.
Proof.
  intros Hsub (Hb & Ha & Hc). split; [|auto].
  eapply Forall_impl; [exact Hb|]. intros e. now apply closed_element_mono.
Qed.

Lemma declared_nil_key nts s :
  declared_params nts (NameStr s) [] →
  KNt (mkNt (NameStr s) []) ∈ dict_keys nts ∨ KName (NameStr s) ∈ dict_keys nts.
Proof.
  intros (key & value & Hin & Hn & Hp).
  apply (list_elem_of_fmap_2 fst) in Hin. cbn [fst] in Hin.
  destruct key as [n|[n args]]; simpl in *.
  - right. now subst n.
  - left. subst n. apply map_eq_nil in Hp. now subst args.
Qed.

(** A state-threading loop whose steps only enlarge the set of terminals:
    a property that survives enlarging holds of every result at the end. *)
Lemma mapS_out {A B} (f : A → gset string → Result (B * gset string))
      (P : gset string → B → Prop) :
  (∀ s s' y, s ⊆ s' → P s y → P s' y) →
  ∀ xs s ys s',
    (∀ x s1 y s2, x ∈ xs → f x s1 = Ok (y, s2) → s1 ⊆ s2 ∧ P s2 y) →
    mapS f xs s = Ok (ys, s') →
    s ⊆ s' ∧ Forall (P s') ys.
Proof.
  intros Hmono. induction xs as [|x xs IH]; simpl; intros s ys s' Hf H.
  - injection H as <- <-. split; [reflexivity|constructor].
  - apply bind_Ok_inv in H as ([y s1] & Hy & H).
    apply bind_Ok_inv in H as ([ys1 s2] & Hys & [= <- <-]).
    destruct (Hf x s y s1 ltac:(left) Hy) as [Hs1 Py].
    destruct (IH s1 ys1 s2) as [Hs2 Pys]; [|exact Hys|].
    + intros x' a y' b Hx'. apply Hf. now right.
    + split; [set_solver|]. constructor; [|exact Pys]. eapply Hmono; eauto.
Qed.

Lemma dict_set_elem {K V} `{EqDecision K} (d : list (K * V)) k v item :
  item ∈ dict_set d k v → item ∈ d ∨ item = (k, v).
Proof.
  induction d as [|[k0 v0] d IH]; simpl.
  - intros H. apply list_elem_of_singleton in H. now right.
  - destruct (decide (k0 = k)) as [->|Hne]; intros H;
      apply elem_of_cons in H as [->|H]; auto.
    + left. now right.
    + left. left.
    + destruct (IH H) as [Hd|Hd]; [left; now right|now right].
Qed.

Lemma dict_set_keys {K V} `{EqDecision K} (d : list (K * V)) k v k' :
  k' ∈ dict_keys (dict_set d k v) ↔ k' ∈ dict_keys d ∨ k' = k.
Proof.
  induction d as [|[k0 v0] d IH]; simpl.
  - rewrite list_elem_of_singleton. split; [now right|]. intros [H|H]; [inversion H|exact H].
  - destruct (decide (k0 = k)) as [->|Hne]; cbn [dict_keys map fst] in *;
      rewrite !elem_of_cons.
    + split; [now left|]. intros [H|H]; auto.
    + rewrite IH. tauto.
Qed.

Section Outputs.
Variable nts : list (Key * RawDef).
Variable gs : list Goal.
Variable vt : gset string.
Variable ntp : list (NtName * list string).
Variable s2n : list (NtName * Nt).
Hypothesis ntp_spec :
  ∀ name ps, dict_get ntp name = Some ps ↔ declared_params nts name ps.
Hypothesis s2n_spec :
  ∀ name nt, dict_get s2n name = Some nt
             ↔ nt = mkNt name [] ∧ declared_params nts name [].

Lemma validate_symbol_out ctx e ts e' ts' :
  match e with EStr _ | ENt _ => True | _ => False end →
  validate_element nts ntp s2n e ctx ts = Ok (e', ts') →
  ts ⊆ ts'
  ∧ is_concrete_element e' = true
  ∧ closed_element (dict_keys nts) ts' e'
  ∧ closed_element (dict_keys nts) ts' (EOptional e').
Proof using ntp_spec s2n_spec.
  destruct e as [s|inner|nt|rule| |code|repr]; try contradiction; intros _ H;
    cbn [validate_element] in H.
  - destruct (dict_get ntp (NameStr s)) as [ps|] eqn:E.
    + destruct (bool_decide (ps = [])); [|discriminate].
      destruct (dict_get s2n (NameStr s)) as [nt|] eqn:E2; [|discriminate].
      injection H as <- <-. apply s2n_spec in E2 as [-> Hd].
      apply declared_nil_key in Hd. simpl. auto.
    + injection H as <- <-.
      assert (Hc : s ∈ ts ∪ {[s]} ∧ ∀ k, k ∈ dict_keys nts → key_name k ≠ NameStr s).
      { split; [set_solver|]. intros k Hk Hn.
        apply list_elem_of_fmap in Hk as ([k' v] & -> & Hin). cbn [fst] in Hn.
        assert (Hd : declared_params nts (NameStr s) (key_param_names k' v))
          by (exists k', v; auto).
        apply ntp_spec in Hd. congruence. }
      simpl. split; [set_solver|auto].
  - apply bind_Ok_inv in H as ([] & Huse & [= <- <-]).
    apply (validate_nt_use_inv nts ntp ntp_spec) in Huse as [Hk _].
    simpl. auto.
Qed.

Lemma validate_element_out ctx e ts e' ts' :
  validate_element nts ntp s2n e ctx ts = Ok (e', ts') →
  ts ⊆ ts'
  ∧ is_concrete_element e' = is_concrete_element e
  ∧ closed_element (dict_keys nts) ts' e'.
Proof using ntp_spec s2n_spec.
  destruct e as [s|inner|nt|rule| |code|repr]; intros H; try discriminate.
  - destruct (validate_symbol_out ctx (EStr s) ts e' ts' I H) as (? & ? & ? & _). auto.
  - destruct inner as [s|inner'|nt|rule| |code|repr]; try discriminate;
      cbn [validate_element] in H;
      apply bind_Ok_inv in H as ([i' ts1] & Hin & [= <- <-]).
    + destruct (validate_symbol_out ctx (EStr s) ts i' ts1 I Hin) as (? & ? & _ & ?).
      auto.
    + destruct (validate_symbol_out ctx (ENt nt) ts i' ts1 I Hin) as (? & ? & _ & ?).
      auto.
  - destruct (validate_symbol_out ctx (ENt nt) ts e' ts' I H) as (? & ? & ? & _). auto.
  - injection H as <- <-. simpl. auto.
  - injection H as <- <-. simpl. auto.
Qed.

Lemma validate_body_concrete ctx b : ∀ ts b' ts',
  mapS (λ e, validate_element nts ntp s2n e ctx) b ts = Ok (b', ts') →
  concrete_len b' = concrete_len b.
Proof using ntp_spec s2n_spec.
  induction b as [|e b IH]; simpl; intros ts b' ts' H.
  - now injection H as <- <-.
  - apply bind_Ok_inv in H as ([e' ts1] & He & H).
    apply bind_Ok_inv in H as ([b1 ts2] & Hb & [= <- <-]).
    apply validate_element_out in He as (_ & Hc & _).
    rewrite !concrete_len_cons, Hc. f_equal. eauto.
Qed.

Lemma copy_rhs_out key sole ctx i rhs ts p' ts' :
  copy_rhs nts ntp s2n key sole ctx (i, rhs) ts = Ok (p', ts') →
  ts ⊆ ts' ∧ closed_production (dict_keys nts) ts' ctx p'.
Proof using ntp_spec s2n_spec.
  unfold copy_rhs. intros H.
  apply bind_Ok_inv in H as (p & Hp & H).
  apply bind_Ok_inv in H as ([] & Hcond & H).
  apply bind_Ok_inv in H as ([] & Hact & H).
  apply bind_Ok_inv in H as ([b ts1] & Hm & [= <- <-]).
  pose proof (validate_body_concrete _ _ _ _ _ Hm) as Hlen.
  apply (mapS_out _ (closed_element (dict_keys nts))) in Hm as [Hsub Hall].
  - split; [exact Hsub|]. split; [exact Hall|]. cbn [body action condition]. split.
    + destruct (Action_eqb (action p) AAccept) eqn:E.
      * left. now apply Action_eqb_accept.
      * right. rewrite (action_ok_concrete_len _ _ _ Hlen).
        now apply check_reduce_action_inv.
    + intros param value Ec. rewrite Ec in Hcond.
      destruct (bool_decide (param ∈ ctx)) eqn:E; [|discriminate].
      now apply bool_decide_eq_true in E.
  - intros s s' y. apply closed_element_mono.
  - intros e s1 e' s2 _ He. apply validate_element_out in He as (? & _ & ?). auto.
Qed.

Lemma copy_nt_def_out key value ts d ts' :
  copy_nt_def nts ntp s2n key value ts = Ok (d, ts') →
  ts ⊆ ts'
  ∧ Forall (closed_production (dict_keys nts) ts' (params d)) (rhs_list d).
Proof using ntp_spec s2n_spec.
  unfold copy_nt_def. fold (raw_params value). intros H.
  apply bind_Ok_inv in H as ([l ts1] & Hm & [= <- <-]). cbn [params rhs_list].
  apply (mapS_out _ (λ ts p, closed_production (dict_keys nts) ts (raw_params value) p))
    in Hm; [exact Hm| |].
  - intros s s' y. apply closed_production_mono.
  - intros [i rhs] s1 p s2 _ Hc. now apply copy_rhs_out in Hc.
Qed.

Lemma validate_nt_out kan key value ts k d ts' :
  validate_nt nts gs vt kan ntp s2n (key, value) ts = Ok (k, d, ts') →
  k = key ∧ ts ⊆ ts'
  ∧ Forall (closed_production (dict_keys nts) ts' (params d)) (rhs_list d).
Proof using ntp_spec s2n_spec.
  unfold validate_nt. intros H.
  apply bind_Ok_inv in H as ([] & _ & H).
  apply bind_Ok_inv in H as ([] & _ & H).
  apply bind_Ok_inv in H as ([d1 ts1] & Hc & [= <- <- <-]).
  apply copy_nt_def_out in Hc. tauto.
Qed.

Lemma validate_loop_out kan todo : ∀ acc ts acc' ts',
  foldM (validate_step nts gs vt kan ntp s2n) (acc, ts) todo = Ok (acc', ts') →
  (∀ k d, (k, d) ∈ acc →
          Forall (closed_production (dict_keys nts) ts (params d)) (rhs_list d)) →
  ts ⊆ ts'
  ∧ (∀ k d, (k, d) ∈ acc' →
            Forall (closed_production (dict_keys nts) ts' (params d)) (rhs_list d))
  ∧ (∀ k, k ∈ dict_keys acc' ↔ k ∈ dict_keys acc ∨ k ∈ dict_keys todo).
Proof using ntp_spec s2n_spec.
  induction todo as [|[key value] todo IH]; cbn [foldM]; intros acc ts acc' ts' H Hacc.
  - injection H as <- <-. split; [reflexivity|]. split; [exact Hacc|].
    intros k. split; [now left|]. intros [Hk|Hk]; [exact Hk|inversion Hk].
  - apply bind_Ok_inv in H as ([acc1 ts1] & Hstep & H).
    rewrite validate_step_eq in Hstep.
    apply bind_Ok_inv in Hstep as ([[k d] ts2] & Hv & [= <- <-]). cbn [fst snd] in *.
    apply validate_nt_out in Hv as (-> & Hsub & Hd).
    apply IH in H as (Hsub' & Hall & Hkeys).
    + split; [set_solver|]. split; [exact Hall|].
      intros k. rewrite Hkeys, dict_set_keys. cbn [dict_keys map fst].
      rewrite elem_of_cons. tauto.
    + intros k d' Hin. apply dict_set_elem in Hin as [Hin|[= -> ->]]; [|exact Hd].
      eapply Forall_impl; [exact (Hacc _ _ Hin)|].
      intros p. now apply closed_production_mono.
Qed.

Lemma init_loop_out kan goals : ∀ acc l acc' l',
  foldM (init_step nts kan s2n) (acc, l) goals = Ok (acc', l') →
  (∀ k d, (k, d) ∈ acc' →
          (k, d) ∈ acc
          ∨ ∃ goal, d = accept_def goal
                    ∧ (KNt goal ∈ dict_keys nts ∨ KName (nt_name goal) ∈ dict_keys nts))
  ∧ (∀ k, k ∈ dict_keys acc → k ∈ dict_keys acc')
  ∧ (∀ k, k ∈ dict_keys acc' → k ∈ dict_keys acc ∨ ∃ g, key_name k = InitNt g).
Proof using s2n_spec.
  induction goals as [|goal goals IH]; cbn [foldM]; intros acc l acc' l' H.
  - injection H as <- <-. auto.
  - apply bind_Ok_inv in H as ([acc1 l1] & Hstep & H).
    rewrite init_step_eq in Hstep.
    apply bind_Ok_inv in Hstep as (nt & Hres & [= <- <-]).
    apply (resolve_goal_inv nts s2n s2n_spec) in Hres as [Hok ->].
    assert (Hkey : KNt (goal_nt goal) ∈ dict_keys nts
                   ∨ KName (nt_name (goal_nt goal)) ∈ dict_keys nts).
    { destruct goal as [s|g]; simpl in *; [now apply declared_nil_key|].
      destruct kan; auto. }
    assert (Hname : ∃ g, key_name (init_key kan (goal_nt goal)) = InitNt g)
      by (unfold init_key; destruct kan; simpl; eauto).
    apply IH in H as (Hdefs & Hin & Hout).
    split; [|split].
    + intros k d Hkd. destruct (Hdefs k d Hkd) as [Hacc1|Hnew]; [|now right].
      destruct (dict_mem acc (init_key kan (goal_nt goal))); [now left|].
      apply dict_set_elem in Hacc1 as [Hacc|[= -> ->]]; [now left|].
      right. exists (goal_nt goal). auto.
    + intros k Hk. apply Hin.
      destruct (dict_mem acc (init_key kan (goal_nt goal))); [exact Hk|].
      apply dict_set_keys. now left.
    + intros k Hk. destruct (Hout k Hk) as [Hacc1|Hnew]; [|now right].
      destruct (dict_mem acc (init_key kan (goal_nt goal))); [now left|].
      apply dict_set_keys in Hacc1 as [Hacc| ->]; [now left|now right].
Qed.

End Outputs.

Lemma closed_production_keys keys keys' ts ps p :
  (∀ k, k ∈ keys → k ∈ keys') →
  (∀ k, k ∈ keys' → k ∈ keys ∨ ∃ g, key_name k = InitNt g) →
  closed_production keys ts ps p → closed_production keys' ts ps p.
Proof.
  intros Hin Hout (Hb & Ha & Hc). split; [|auto].
  eapply Forall_impl; [exact Hb|]. intros e. now apply closed_element_keys.
Qed.

Section Closed.
Context {NtTypes Methods : Type}.
Variable infer_types :
  gset string → gset string → list (Key * NtDef) → Result (NtTypes * Methods).

Lemma Grammar_init_closed nts goal_nts vt type_info g :
  Grammar_init infer_types nts goal_nts vt type_info = Ok g →
  closed_grammar g.
Proof.
  intros H.
  destruct (Grammar_init_inv _ _ _ _ _ _ H)
    as (key0 & value0 & rest & ntp & s2n & acc & Ents & Hscan & Hv & Hi & Hvt).
  destruct (key_scan_inv nts (is_KNt key0) nts [] [] [] ntp s2n eq_refl)
    as (_ & Hp & Hs); [| |exact Hscan|].
  { intros name ps. split; [discriminate|]. intros (k & v & Hin & _). inversion Hin. }
  { intros name nt. split; [discriminate|]. intros [_ (k & v & Hin & _)]. inversion Hin. }
  apply (validate_loop_out nts _ _ ntp s2n Hp Hs) in Hv as (Hsub & Hacc & Hkeys);
    [|intros k d Hin; inversion Hin].
  apply (init_loop_out nts s2n Hs) in Hi as (Hdefs & Hin & Hout).
  assert (Hnts : ∀ k, k ∈ dict_keys nts → k ∈ dict_keys (nonterminals g)).
  { intros k Hk. apply Hin, Hkeys. now right. }
  assert (Hback : ∀ k, k ∈ dict_keys (nonterminals g) →
                       k ∈ dict_keys nts ∨ ∃ g0, key_name k = InitNt g0).
  { intros k Hk. destruct (Hout k Hk) as [Hk'|Hk']; [|now right].
    apply Hkeys in Hk' as [Hk'|Hk']; [inversion Hk'|now left]. }
  split; [now rewrite Hvt|].
  intros key d p Hkd Hpd. destruct (Hdefs key d Hkd) as [Hold|(goal & -> & Hgoal)].
  - eapply closed_production_keys; [exact Hnts|exact Hback|].
    pose proof (Hacc key d Hold) as Hall. rewrite Forall_forall in Hall. now apply Hall.
  - apply list_elem_of_singleton in Hpd as ->.
    split; [|split; [now left|discriminate]].
    constructor; [|constructor]. simpl. destruct Hgoal; auto.
Qed.

(** X17.  Every grammar returned by [Grammar.__init__] is closed: its
    variable terminals are terminals, and in every production of every
    definition, the synthesized init nonterminals included, each string
    element is a terminal that names no nonterminal, each nonterminal
    element is defined in the grammar, the action is ['accept'] or a reduce
    expression valid for the validated body, and the condition tests a
    parameter of the definition. *)
Theorem constructed_grammar_closed nts goal_nts vt type_info g :
  Grammar_init infer_types nts goal_nts vt type_info = Ok g →
  closed_grammar g.
Proof. apply Grammar_init_closed. Qed.

End Closed.

Lemma constructed_grammar_closed_witness :
  let nts := [(KName (NameStr "a"), RawList [RList [EStr "a"; EStr "x"]; RList []])] in
  ∃ g, Grammar_init (λ _ _ _, Ok (tt, tt)) nts None ["y"] None = Ok g
       ∧ closed_grammar g.
Proof.
  intros nts. eexists. split; [reflexivity|].
  apply (constructed_grammar_closed (λ _ _ _, Ok (tt, tt)) nts None ["y"] None).
  reflexivity.
Defined.

End ClosedFacts.

(** ** The terminals of a constructed grammar *)

Module TerminalFacts.
Import grammar Py DictFacts GrammarFacts ConstructorFacts ClosedFacts.

Lemma dict_strings_app G1 G2 :
  dict_strings (G1 ++ G2) = dict_strings G1 ∪ dict_strings G2.
Proof. unfold dict_strings. now rewrite map_app, union_list_app_L. Qed.

Section Strings.
Variable nts : list (Key * RawDef).
Variable gs : list Goal.
Variable vt : gset string.
Variable kan : bool.
Variable ntp : list (NtName * list string).
Variable s2n : list (NtName * Nt).

Lemma validate_element_strings ctx e ts e' ts' :
  validate_element nts ntp s2n e ctx ts = Ok (e', ts') →
  ts' = ts ∪ element_strings e'.
Proof.
  assert (Hsym : ∀ e e' ts', match e with EStr _ | ENt _ => True | _ => False end →
            validate_element nts ntp s2n e ctx ts = Ok (e', ts') →
            ts' = ts ∪ element_strings e' ∧ ts' = ts ∪ element_strings (EOptional e')).
  { clear e e' ts'. intros e e' ts' He H.
    destruct e as [s|inner|nt|rule| |code|repr]; try contradiction;
      cbn [validate_element] in H.
    - destruct (dict_get ntp (NameStr s)) as [ps|].
      + destruct (bool_decide (ps = [])); [|discriminate].
        destruct (dict_get s2n (NameStr s)) as [nt|]; [|discriminate].
        injection H as <- <-. simpl. split; set_solver.
      + injection H as <- <-. simpl. auto.
    - apply bind_Ok_inv in H as ([] & _ & [= <- <-]). simpl. split; set_solver. }
  destruct e as [s|inner|nt|rule| |code|repr]; intros H; try discriminate.
  - now apply (Hsym (EStr s)).
  - destruct inner as [s|inner'|nt|rule| |code|repr]; try discriminate;
      cbn [validate_element] in H;
      apply bind_Ok_inv in H as ([i' ts1] & Hin & [= <- <-]).
    + now apply (Hsym (EStr s)).
    + now apply (Hsym (ENt nt)).
  - now apply (Hsym (ENt nt)).
  - injection H as <- <-. simpl. set_solver.
  - injection H as <- <-. simpl. set_solver.
Qed.

Lemma validate_body_strings ctx b : ∀ ts b' ts',
  mapS (λ e, validate_element nts ntp s2n e ctx) b ts = Ok (b', ts') →
  ts' = ts ∪ body_strings b'.
Proof.
  induction b as [|e b IH]; simpl; intros ts b' ts' H.
  - injection H as <- <-. unfold body_strings. simpl. set_solver.
  - apply bind_Ok_inv in H as ([e' ts1] & He & H).
    apply bind_Ok_inv in H as ([b1 ts2] & Hb & [= <- <-]).
    apply validate_element_strings in He as ->. apply IH in Hb as ->.
    unfold body_strings. simpl. set_solver.
Qed.

Lemma copy_rhs_strings key sole ctx entry ts p' ts' :
  copy_rhs nts ntp s2n key sole ctx entry ts = Ok (p', ts') →
  ts' = ts ∪ body_strings (body p').
Proof.
  unfold copy_rhs. destruct entry as [i rhs]. intros H.
  apply bind_Ok_inv in H as (p & _ & H).
  apply bind_Ok_inv in H as ([] & _ & H).
  apply bind_Ok_inv in H as ([] & _ & H).
  apply bind_Ok_inv in H as ([b ts1] & Hm & [= <- <-]).
  now apply validate_body_strings in Hm.
Qed.

Lemma copy_rhs_list_strings key sole ctx entries : ∀ ts l ts',
  mapS (copy_rhs nts ntp s2n key sole ctx) entries ts = Ok (l, ts') →
  ts' = ts ∪ ⋃ (map (λ p, body_strings (body p)) l).
Proof.
  induction entries as [|entry entries IH]; simpl; intros ts l ts' H.
  - injection H as <- <-. simpl. set_solver.
  - apply bind_Ok_inv in H as ([p ts1] & Hp & H).
    apply bind_Ok_inv in H as ([l1 ts2] & Hl & [= <- <-]).
    apply copy_rhs_strings in Hp as ->. apply IH in Hl as ->.
    simpl. set_solver.
Qed.

Lemma validate_nt_strings item ts k d ts' :
  validate_nt nts gs vt kan ntp s2n item ts = Ok (k, d, ts') →
  k = fst item ∧ ts' = ts ∪ def_strings d.
Proof.
  unfold validate_nt. destruct item as [key value]. intros H.
  apply bind_Ok_inv in H as ([] & _ & H).
  apply bind_Ok_inv in H as ([] & _ & H).
  apply bind_Ok_inv in H as ([d1 ts1] & Hc & [= <- <- <-]).
  split; [reflexivity|]. unfold copy_nt_def in Hc.
  apply bind_Ok_inv in Hc as ([l ts2] & Hm & [= <- <-]).
  now apply copy_rhs_list_strings in Hm.
Qed.

(** The main loop on a dictionary: the validated definitions are appended
    in order, under the keys of the input. *)
Lemma validate_loop_shape todo : ∀ acc ts acc' ts',
  NoDup (dict_keys acc ++ dict_keys todo) →
  foldM (validate_step nts gs vt kan ntp s2n) (acc, ts) todo = Ok (acc', ts') →
  ∃ new,
    acc' = (acc ++ new)%list
    ∧ Forall2 (λ item entry,
                 fst entry = fst item
                 ∧ ∃ ts1 ts2, validate_nt nts gs vt kan ntp s2n item ts1
                              = Ok (fst item, snd entry, ts2))
              todo new
    ∧ ts' = ts ∪ dict_strings new.
Proof.
  induction todo as [|item todo IH]; cbn [foldM]; intros acc ts acc' ts' Hnd H.
  - injection H as <- <-. exists []. rewrite app_nil_r.
    split; [reflexivity|]. split; [constructor|]. unfold dict_strings. simpl. set_solver.
  - apply bind_Ok_inv in H as ([acc1 ts1] & Hstep & H).
    rewrite validate_step_eq in Hstep.
    apply bind_Ok_inv in Hstep as ([[k d] ts2] & Hv & [= <- <-]). cbn [fst snd] in *.
    pose proof Hv as Hv'. apply validate_nt_strings in Hv' as [-> ->].
    cbn [dict_keys map] in Hnd. fold (dict_keys todo) in Hnd.
    assert (Hfresh : fst item ∉ dict_keys acc).
    { apply NoDup_app in Hnd as (_ & Hdis & _). intros Hin. apply (Hdis _ Hin). left. }
    rewrite (dict_set_fresh _ _ _ Hfresh) in H.
    apply IH in H as (new & -> & Hall & ->).
    + exists ((fst item, d) :: new). rewrite <- app_assoc. split; [reflexivity|].
      split; [constructor; [|exact Hall]; simpl; eauto|].
      unfold dict_strings. simpl. set_solver.
    + rewrite dict_keys_app. cbn [dict_keys map fst app]. rewrite <- app_assoc.
      exact Hnd.
Qed.

Lemma init_loop_strings goals : ∀ acc l acc' l',
  foldM (init_step nts kan s2n) (acc, l) goals = Ok (acc', l') →
  dict_strings acc' = dict_strings acc.
Proof.
  induction goals as [|goal goals IH]; cbn [foldM]; intros acc l acc' l' H.
  - now injection H as <- <-.
  - apply bind_Ok_inv in H as ([acc1 l1] & Hstep & H).
    rewrite init_step_eq in Hstep.
    apply bind_Ok_inv in Hstep as (nt & _ & [= <- <-]).
    apply IH in H as ->.
    destruct (dict_mem acc (init_key kan nt)) eqn:E; [reflexivity|].
    apply dict_mem_false in E. rewrite (dict_set_fresh _ _ _ E), dict_strings_app.
    unfold dict_strings at 2, def_strings, body_strings. simpl. set_solver.
Qed.

End Strings.

Section Terminals.
Context {NtTypes Methods : Type}.
Variable infer_types :
  gset string → gset string → list (Key * NtDef) → Result (NtTypes * Methods).

(** X18.  The terminals of a grammar built from a dictionary are exactly
    its variable terminals and the strings that remain, bare or optional, in
    the bodies of its validated productions. *)
Theorem terminals_of_constructed_grammar nts goal_nts vt type_info g :
  NoDup (dict_keys nts) →
  Grammar_init infer_types nts goal_nts vt type_info = Ok g →
  terminals g = variable_terminals g ∪ dict_strings (nonterminals g).
Proof.
  intros Hnd H.
  destruct (Grammar_init_inv _ _ _ _ _ _ H)
    as (key0 & value0 & rest & ntp & s2n & acc & Ents & Hscan & Hv & Hi & Hvt).
  apply validate_loop_shape in Hv as (new & -> & _ & Hts); [|exact Hnd].
  apply init_loop_strings in Hi. rewrite Hi, Hvt. exact Hts.
Qed.

End Terminals.

Lemma terminals_of_constructed_grammar_witness :
  let nts := [(KName (NameStr "a"),
               RawList [RList [EStr "a"; EOptional (EStr "x")]; RList []])] in
  ∃ g, Grammar_init (λ _ _ _, Ok (tt, tt)) nts None ["y"] None = Ok g
       ∧ terminals g = variable_terminals g ∪ dict_strings (nonterminals g).
Proof.
  intros nts. eexists. split; [reflexivity|].
  apply (terminals_of_constructed_grammar (λ _ _ _, Ok (tt, tt)) nts None ["y"] None).
  - apply NoDup_singleton.
  - reflexivity.
Defined.

End TerminalFacts.

(** ** Validating a validated grammar again *)

Module RevalidationFacts.
Import grammar Py DictFacts GrammarFacts ConstructorFacts ClosedFacts TerminalFacts.

Section OutputsOk.
Variable nts : list (Key * RawDef).
Variable gs : list Goal.
Variable vt : gset string.
Variable ntp : list (NtName * list string).
Variable s2n : list (NtName * Nt).
Hypothesis ntp_spec :
  ∀ name ps, dict_get ntp name = Some ps ↔ declared_params nts name ps.
Hypothesis s2n_spec :
  ∀ name nt, dict_get s2n name = Some nt
             ↔ nt = mkNt name [] ∧ declared_params nts name [].

Lemma validate_symbol_out_ok ctx e ts e' ts' :
  match e with EStr _ | ENt _ => True | _ => False end →
  validate_element nts ntp s2n e ctx ts = Ok (e', ts') →
  symbol_ok nts ctx e' ∧ element_ok nts ctx e' ∧ element_ok nts ctx (EOptional e').
Proof using ntp_spec s2n_spec.
  destruct e as [s|inner|nt|rule| |code|repr]; try contradiction; intros _ H;
    cbn [validate_element] in H.
  - destruct (dict_get ntp (NameStr s)) as [ps|] eqn:E.
    + destruct (bool_decide (ps = [])) eqn:Eps; [|discriminate].
      apply bool_decide_eq_true in Eps as ->.
      destruct (dict_get s2n (NameStr s)) as [nt|] eqn:E2; [|discriminate].
      injection H as <- <-. apply s2n_spec in E2 as [-> Hd].
      assert (Huse : nt_use_ok nts ctx (mkNt (NameStr s) [])).
      { split; [now apply declared_nil_key|]. split.
        - intros ps Hps. apply ntp_spec in Hps. simpl in *. congruence.
        - intros param v Hin. inversion Hin. }
      simpl. auto.
    + injection H as <- <-.
      assert (Hsym : ∀ ps, declared_params nts (NameStr s) ps → ps = []).
      { intros ps Hps. apply ntp_spec in Hps. congruence. }
      simpl. auto.
  - apply bind_Ok_inv in H as ([] & Huse & [= <- <-]).
    apply (validate_nt_use_inv nts ntp ntp_spec) in Huse. simpl. auto.
Qed.

Lemma validate_element_out_ok ctx e ts e' ts' :
  validate_element nts ntp s2n e ctx ts = Ok (e', ts') → element_ok nts ctx e'.
Proof using ntp_spec s2n_spec.
  destruct e as [s|inner|nt|rule| |code|repr]; intros H; try discriminate.
  - now destruct (validate_symbol_out_ok ctx (EStr s) ts e' ts' I H) as (_ & ? & _).
  - destruct inner as [s|inner'|nt|rule| |code|repr]; try discriminate;
      cbn [validate_element] in H;
      apply bind_Ok_inv in H as ([i' ts1] & Hin & [= <- <-]).
    + now destruct (validate_symbol_out_ok ctx (EStr s) ts i' ts1 I Hin) as (_ & _ & ?).
    + now destruct (validate_symbol_out_ok ctx (ENt nt) ts i' ts1 I Hin) as (_ & _ & ?).
  - now destruct (validate_symbol_out_ok ctx (ENt nt) ts e' ts' I H) as (_ & ? & _).
  - injection H as <- <-. exact I.
  - injection H as <- <-. exact I.
Qed.

Lemma validate_nt_out_ok kan key value ts d ts' :
  validate_nt nts gs vt kan ntp s2n (key, value) ts = Ok (key, d, ts') →
  params d = raw_params value
  ∧ Forall (λ p, Forall (element_ok nts (params d)) (body p)) (rhs_list d).
Proof using ntp_spec s2n_spec.
  unfold validate_nt. intros H.
  apply bind_Ok_inv in H as ([] & _ & H).
  apply bind_Ok_inv in H as ([] & _ & H).
  apply bind_Ok_inv in H as ([d1 ts1] & Hc & [= <- <-]).
  unfold copy_nt_def in Hc. fold (raw_params value) in Hc.
  apply bind_Ok_inv in Hc as ([l ts2] & Hm & [= <- <-]). cbn [params rhs_list].
  split; [reflexivity|].
  apply (mapS_out _ (λ _ p, Forall (element_ok nts (raw_params value)) (body p)))
    in Hm as [_ Hall]; [exact Hall|auto|].
  intros [i rhs] s1 p s2 _ Hc. split.
  - now apply (copy_rhs_out nts ntp s2n ntp_spec s2n_spec) in Hc.
  - unfold copy_rhs in Hc.
    apply bind_Ok_inv in Hc as (q & _ & Hc).
    apply bind_Ok_inv in Hc as ([] & _ & Hc).
    apply bind_Ok_inv in Hc as ([] & _ & Hc).
    apply bind_Ok_inv in Hc as ([b ts3] & Hb & [= <- <-]). cbn [body].
    apply (mapS_out _ (λ _ e, element_ok nts (raw_params value) e)) in Hb as [_ Hb];
      [exact Hb|auto|].
    intros e s3 e' s4 _ He. split.
    + now apply (validate_element_out nts ntp s2n ntp_spec s2n_spec) in He.
    + eapply validate_element_out_ok, He.
Qed.

End OutputsOk.

Lemma mapS_cons {A B S} (f : A → S → Result (B * S)) x xs s :
  mapS f (x :: xs) s
  = ('(y, s1) ← f x s; '(ys, s2) ← mapS f xs s1; Ok (y :: ys, s2)).
Proof. reflexivity. Qed.

Section Identity.
Variable nts : list (Key * RawDef).
Variable gs : list Goal.
Variable vt : gset string.
Variable kan : bool.
Variable ntp : list (NtName * list string).
Variable s2n : list (NtName * Nt).
Variable T : gset string.
Hypothesis ntp_spec :
  ∀ name ps, dict_get ntp name = Some ps ↔ declared_params nts name ps.

Lemma no_key_no_params s :
  (∀ k, k ∈ dict_keys nts → key_name k ≠ NameStr s) →
  dict_get ntp (NameStr s) = None.
Proof using ntp_spec.
  intros Hk. destruct (dict_get ntp (NameStr s)) as [ps|] eqn:E; [|reflexivity].
  apply ntp_spec in E as (key & value & Hin & Hn & _).
  apply (list_elem_of_fmap_2 fst) in Hin. now destruct (Hk _ Hin).
Qed.

Lemma validate_element_closed_id ctx e ts e' ts' :
  closed_element (dict_keys nts) T e →
  validate_element nts ntp s2n e ctx ts = Ok (e', ts') → e' = e.
Proof using ntp_spec.
  destruct e as [s|inner|nt|rule| |code|repr]; simpl; try contradiction.
  - intros [_ Hk]. rewrite (no_key_no_params _ Hk). now intros [= <- _].
  - destruct inner as [s|inner'|nt|rule| |code|repr]; try contradiction.
    + intros [_ Hk]. cbn [validate_element]. rewrite (no_key_no_params _ Hk).
      now intros [= <- _].
    + intros _ H. cbn [validate_element] in H.
      apply bind_Ok_inv in H as ([i' ts1] & Hin & [= <- _]).
      apply bind_Ok_inv in Hin as ([] & _ & [= <- _]). reflexivity.
  - intros _ H. apply bind_Ok_inv in H as ([] & _ & [= <- _]). reflexivity.
  - now intros _ [= <- _].
  - now intros _ [= <- _].
Qed.

Lemma validate_body_closed_id ctx b : ∀ ts b' ts',
  Forall (closed_element (dict_keys nts) T) b →
  mapS (λ e, validate_element nts ntp s2n e ctx) b ts = Ok (b', ts') → b' = b.
Proof using ntp_spec.
  induction b as [|e b IH]; simpl; intros ts b' ts' Hc H.
  - now injection H as <- _.
  - apply Forall_cons in Hc as [He Hb].
    apply bind_Ok_inv in H as ([e' ts1] & He' & H).
    apply bind_Ok_inv in H as ([b1 ts2] & Hb' & [= <- _]).
    f_equal; [exact (validate_element_closed_id _ _ _ _ _ He He')|exact (IH _ _ _ Hb Hb')].
Qed.

Lemma copy_rhs_closed_id key sole ctx i p ts p' ts' :
  Forall (closed_element (dict_keys nts) T) (body p) →
  copy_rhs nts ntp s2n key sole ctx (i, RProduction p) ts = Ok (p', ts') → p' = p.
Proof using ntp_spec.
  unfold copy_rhs. intros Hc H.
  apply bind_Ok_inv in H as (q & [= <-] & H).
  apply bind_Ok_inv in H as ([] & _ & H).
  apply bind_Ok_inv in H as ([] & _ & H).
  apply bind_Ok_inv in H as ([b ts1] & Hb & [= <- _]).
  apply (validate_body_closed_id _ _ _ _ _ Hc) in Hb as ->. now destruct p.
Qed.

Lemma copy_rhs_list_closed_id key sole ctx l : ∀ k ts l' ts',
  Forall (λ p, Forall (closed_element (dict_keys nts) T) (body p)) l →
  mapS (copy_rhs nts ntp s2n key sole ctx)
       (zip (seq k (length l)) (map RProduction l)) ts = Ok (l', ts') →
  l' = l.
Proof using ntp_spec.
  induction l as [|p l IH]; cbn [length seq map zip zip_with]; intros k ts l' ts' Hc H.
  - now injection H as <- _.
  - apply Forall_cons in Hc as [Hp Hl]. rewrite mapS_cons in H.
    apply bind_Ok_inv in H as ([p' ts1] & Hp' & H).
    apply bind_Ok_inv in H as ([l1 ts2] & Hl' & [= <- _]).
    f_equal; [exact (copy_rhs_closed_id _ _ _ _ _ _ _ _ Hp Hp')|exact (IH _ _ _ _ Hl Hl')].
Qed.

Lemma validate_nt_closed_id key d ts k d' ts' :
  Forall (λ p, Forall (closed_element (dict_keys nts) T) (body p)) (rhs_list d) →
  validate_nt nts gs vt kan ntp s2n (key, as_raw_def d) ts = Ok (k, d', ts') →
  d' = d.
Proof using ntp_spec.
  unfold validate_nt. intros Hc H.
  apply bind_Ok_inv in H as ([] & _ & H).
  apply bind_Ok_inv in H as ([] & _ & H).
  apply bind_Ok_inv in H as ([d1 ts1] & Hd & [= _ <- _]).
  unfold copy_nt_def, as_raw_def in Hd. cbn [raw_rhs_list] in Hd.
  apply bind_Ok_inv in Hd as ([l ts2] & Hm & [= <- _]).
  rewrite length_map in Hm.
  apply (copy_rhs_list_closed_id _ _ _ _ _ _ _ _ Hc) in Hm as ->. now destruct d.
Qed.

End Identity.

Section Shape.
Context {NtTypes Methods : Type}.
Variable infer_types :
  gset string → gset string → list (Key * NtDef) → Result (NtTypes * Methods).

(** The type information plays no role in validation: it is copied into
    the result, or inferred from the validated definitions. *)
Lemma Grammar_init_retype nts goal_nts vt (g : @Grammar NtTypes Methods)
      key0 value0 rest ntp s2n acc :
  nts = (key0, value0) :: rest →
  foldM (key_scan_step (is_KNt key0)) ([], []) nts = Ok (ntp, s2n) →
  foldM (validate_step nts (effective_goals nts goal_nts) (list_to_set vt)
                       (is_KNt key0) ntp s2n)
        ([], list_to_set vt) nts = Ok (acc, terminals g) →
  foldM (init_step nts (is_KNt key0) s2n) (acc, []) (effective_goals nts goal_nts)
  = Ok (nonterminals g, init_nts g) →
  ∀ type_info,
    Grammar_init infer_types nts goal_nts vt type_info
    = (info ← match type_info with
              | None => infer_types (list_to_set vt) (terminals g) acc
              | Some info => Ok info
              end;
       Ok (mkGrammar (list_to_set vt) (terminals g) (nonterminals g)
                     (fst info) (snd info) (init_nts g))).
Proof.
  intros Ents Hscan Hv Hi type_info. unfold Grammar_init.
  rewrite Ents at 1. cbn [mbind Result_bind].
  rewrite Hscan. cbn [mbind Result_bind]. rewrite Hv. cbn [mbind Result_bind].
  destruct (match type_info with
            | None => infer_types (list_to_set vt) (terminals g) acc
            | Some info => Ok info
            end) as [info|e]; [|reflexivity].
  cbn [mbind Result_bind]. rewrite Hi. reflexivity.
Qed.

(** The grammar built from a dictionary: the validated definitions under
    the keys of the input, followed by the init nonterminals that were
    missing. *)
Lemma constructed_shape nts goal_nts vt type_info g :
  NoDup (dict_keys nts) →
  Grammar_init infer_types nts goal_nts vt type_info = Ok g →
  ∃ ntp s2n new items,
    (∀ name ps, dict_get ntp name = Some ps ↔ declared_params nts name ps)
    ∧ (∀ name nt, dict_get s2n name = Some nt
                  ↔ nt = mkNt name [] ∧ declared_params nts name [])
    ∧ Forall2 (λ item entry,
                 fst entry = fst item
                 ∧ ∃ ts1 ts2,
                     validate_nt nts (effective_goals nts goal_nts) (list_to_set vt)
                                 (first_key_is_nt nts) ntp s2n item ts1
                     = Ok (fst item, snd entry, ts2))
              nts new
    ∧ nonterminals g = (new ++ items)%list
    ∧ NoDup (dict_keys items)
    ∧ (∀ k, k ∈ dict_keys items
            ↔ (k ∉ dict_keys new)
              ∧ ∃ goal, goal ∈ effective_goals nts goal_nts
                        ∧ k = init_key (first_key_is_nt nts) (goal_nt goal))
    ∧ (∀ k d, (k, d) ∈ items →
              ∃ goal, goal ∈ effective_goals nts goal_nts
                      ∧ k = init_key (first_key_is_nt nts) (goal_nt goal)
                      ∧ d = accept_def (goal_nt goal))
    ∧ init_nts g = map (λ goal, mkNt (InitNt (goal_nt goal)) [])
                       (effective_goals nts goal_nts)
    ∧ terminals g = list_to_set vt ∪ dict_strings new
    ∧ variable_terminals g = list_to_set vt
    ∧ ∀ type_info',
        Grammar_init infer_types nts goal_nts vt type_info'
        = (info ← match type_info' with
                  | None => infer_types (list_to_set vt) (terminals g) new
                  | Some info => Ok info
                  end;
           Ok (mkGrammar (list_to_set vt) (terminals g) (nonterminals g)
                         (fst info) (snd info) (init_nts g))).
Proof.
  intros Hnd H.
  destruct (Grammar_init_inv _ _ _ _ _ _ H)
    as (key0 & value0 & rest & ntp & s2n & acc & Ents & Hscan & Hv & Hi & Hvt).
  assert (Hfirst : first_key_is_nt nts = is_KNt key0) by (now rewrite Ents).
  rewrite Hfirst.
  pose proof (Grammar_init_retype _ _ _ _ _ _ _ _ _ _ Ents Hscan Hv Hi) as Hretype.
  destruct (key_scan_inv nts (is_KNt key0) nts [] [] [] ntp s2n eq_refl)
    as (_ & Hp & Hs); [| |exact Hscan|].
  { intros name ps. split; [discriminate|]. intros (k & v & Hin & _). inversion Hin. }
  { intros name nt. split; [discriminate|]. intros [_ (k & v & Hin & _)]. inversion Hin. }
  apply validate_loop_shape in Hv as (new & -> & Hnew & Hts); [|exact Hnd].
  cbn [app] in *.
  assert (Hres : ∀ goal, goal ∈ effective_goals nts goal_nts →
            resolve_goal nts (is_KNt key0) s2n goal = Ok (goal_nt goal)).
  { intros goal Hg.
    destruct (foldM_Ok_each _ _ _ _ Hi _ Hg) as ([acc1 l1] & st2 & Hstep).
    rewrite init_step_eq in Hstep. apply bind_Ok_inv in Hstep as (nt & Hr & _).
    pose proof Hr as Hr'. apply (resolve_goal_inv nts s2n Hs) in Hr' as [_ ->].
    exact Hr. }
  destruct (init_loop_ok nts (is_KNt key0) s2n (effective_goals nts goal_nts) new [] Hres)
    as (items & Hloop & Hind & Hik & Hid).
  rewrite Hloop in Hi. injection Hi as Hn Hl. cbn [app] in Hl.
  exists ntp, s2n, new, items.
  split; [exact Hp|]. split; [exact Hs|]. split; [exact Hnew|].
  split; [now symmetry|]. split; [exact Hind|]. split; [exact Hik|].
  split; [exact Hid|]. split; [now symmetry|]. split; [exact Hts|].
  split; [exact Hvt|exact Hretype].
Qed.

End Shape.

Lemma Forall2_fst_keys {K A B} (l : list (K * A)) (l' : list (K * B)) :
  Forall2 (λ x y, fst y = fst x) l l' → dict_keys l' = dict_keys l.
Proof.
  induction 1 as [|x y l l' Hk _ IH]; [reflexivity|].
  unfold dict_keys in *. simpl. congruence.
Qed.

Section Again.
Variable nts : list (Key * RawDef).
Variable gs : list Goal.
Variable vts : gset string.
Variable ntp : list (NtName * list string).
Variable s2n : list (NtName * Nt).
Variable new items : list (Key * NtDef).
Hypothesis Hwf : well_formed nts gs vts.
Hypothesis Hnames : ∀ k, k ∈ dict_keys nts → ∃ s, key_name k = NameStr s.
Hypothesis Hgoals : ∀ goal, goal ∈ gs → ∃ s, goal = GStr s.
Hypothesis ntp_spec :
  ∀ name ps, dict_get ntp name = Some ps ↔ declared_params nts name ps.
Hypothesis s2n_spec :
  ∀ name nt, dict_get s2n name = Some nt
             ↔ nt = mkNt name [] ∧ declared_params nts name [].
Hypothesis Hnew :
  Forall2 (λ item entry,
             fst entry = fst item
             ∧ ∃ ts1 ts2,
                 validate_nt nts gs vts (first_key_is_nt nts) ntp s2n item ts1
                 = Ok (fst item, snd entry, ts2))
          nts new.
Hypothesis Hitems_nd : NoDup (dict_keys items).
Hypothesis Hitems_keys :
  ∀ k, k ∈ dict_keys items
       ↔ (k ∉ dict_keys new)
         ∧ ∃ goal, goal ∈ gs ∧ k = init_key (first_key_is_nt nts) (goal_nt goal).
Hypothesis Hitems_defs :
  ∀ k d, (k, d) ∈ items →
         ∃ goal, goal ∈ gs ∧ k = init_key (first_key_is_nt nts) (goal_nt goal)
                 ∧ d = accept_def (goal_nt goal).

Lemma keys_new : dict_keys new = dict_keys nts.
Proof using All.
  apply Forall2_fst_keys. eapply Forall2_impl; [exact Hnew|].
  now intros item entry [Hk _].
Qed.

Lemma new_entry key d :
  (key, d) ∈ new →
  ∃ value ts1 ts2,
    (key, value) ∈ nts
    ∧ validate_nt nts gs vts (first_key_is_nt nts) ntp s2n (key, value) ts1
      = Ok (key, d, ts2).
Proof using All.
  clear -Hnew. intros Hin. apply list_elem_of_lookup in Hin as [i Hi].
  destruct (Forall2_lookup_r _ _ _ _ _ Hnew Hi) as ([k value] & Hx & Hk & ts1 & ts2 & Hv).
  cbn [fst snd] in *. subst k. exists value, ts1, ts2.
  split; [eapply list_elem_of_lookup_2, Hx|exact Hv].
Qed.

Lemma old_entry key value :
  (key, value) ∈ nts →
  ∃ d ts1 ts2,
    (key, d) ∈ new
    ∧ validate_nt nts gs vts (first_key_is_nt nts) ntp s2n (key, value) ts1
      = Ok (key, d, ts2).
Proof using All.
  clear -Hnew. intros Hin. apply list_elem_of_lookup in Hin as [i Hi].
  destruct (Forall2_lookup_l _ _ _ _ _ Hnew Hi) as ([k d] & Hx & Hk & ts1 & ts2 & Hv).
  cbn [fst snd] in *. subst k. exists d, ts1, ts2.
  split; [eapply list_elem_of_lookup_2, Hx|exact Hv].
Qed.

Lemma dict_keys_as_raw G : dict_keys (as_raw G) = dict_keys G.
Proof. unfold as_raw, dict_keys. rewrite map_map. reflexivity. Qed.

Lemma elem_of_as_raw G key v :
  (key, v) ∈ as_raw G ↔ ∃ d, v = as_raw_def d ∧ (key, d) ∈ G.
Proof.
  unfold as_raw. rewrite list_elem_of_fmap. split.
  - intros ([k d] & [= -> ->] & Hin). eauto.
  - intros (d & -> & Hin). exists (key, d). auto.
Qed.

Lemma same_param_names key value d ts1 ts2 :
  validate_nt nts gs vts (first_key_is_nt nts) ntp s2n (key, value) ts1
  = Ok (key, d, ts2) →
  key_param_names key (as_raw_def d) = key_param_names key value.
Proof using All.
  intros Hv. apply (validate_nt_out_ok nts gs vts ntp s2n ntp_spec s2n_spec) in Hv as [Hps _].
  destruct key as [n|nt]; [|reflexivity]. simpl. rewrite Hps. now destruct value.
Qed.

Lemma item_entry k d :
  (k, d) ∈ items →
  ∃ s, GStr s ∈ gs
       ∧ k = init_key (first_key_is_nt nts) (mkNt (NameStr s) [])
       ∧ d = accept_def (mkNt (NameStr s) [])
       ∧ key_name k = InitNt (mkNt (NameStr s) [])
       ∧ key_param_names k (as_raw_def d) = [].
Proof using All.
  intros Hin. destruct (Hitems_defs k d Hin) as (goal & Hg & -> & ->).
  destruct (Hgoals goal Hg) as [s ->]. exists s. cbn [goal_nt].
  split; [exact Hg|]. split; [reflexivity|]. split; [reflexivity|].
  unfold init_key. destruct (first_key_is_nt nts); auto.
Qed.

Lemma declared_again name ps :
  declared_params (as_raw (new ++ items)) name ps →
  declared_params nts name ps ∨ (∃ g0, name = InitNt g0) ∧ ps = [].
Proof using All.
  intros (key & v & Hin & Hn & Hps).
  apply elem_of_as_raw in Hin as (d & -> & Hin).
  apply elem_of_app in Hin as [Hin|Hin].
  - left. destruct (new_entry _ _ Hin) as (value & ts1 & ts2 & Hv & Hok).
    exists key, value. split; [exact Hv|]. split; [exact Hn|].
    now rewrite <- (same_param_names _ _ _ _ _ Hok).
  - right. destruct (item_entry _ _ Hin) as (s & _ & _ & _ & Hkn & Hkp).
    split; [exists (mkNt (NameStr s) []); congruence|congruence].
Qed.

Lemma declared_before name ps :
  declared_params nts name ps → declared_params (as_raw (new ++ items)) name ps.
Proof using All.
  intros (key & value & Hin & Hn & Hps).
  destruct (old_entry _ _ Hin) as (d & ts1 & ts2 & Hd & Hok).
  exists key, (as_raw_def d). split.
  - apply elem_of_as_raw. exists d. split; [reflexivity|]. apply elem_of_app. now left.
  - split; [exact Hn|]. now rewrite (same_param_names _ _ _ _ _ Hok).
Qed.

Lemma keys_again k :
  k ∈ dict_keys nts → k ∈ dict_keys (as_raw (new ++ items)).
Proof using All.
  intros Hk. rewrite dict_keys_as_raw, dict_keys_app, keys_new.
  apply elem_of_app. now left.
Qed.

Lemma nt_use_again ctx nt :
  nt_use_ok nts ctx nt → nt_use_ok (as_raw (new ++ items)) ctx nt.
Proof using All.
  intros (Hkey & Hargs & Hvars). split; [|split; [|exact Hvars]].
  - destruct Hkey as [Hk|Hk]; [left|right]; now apply keys_again.
  - intros ps Hd. apply declared_again in Hd as [Hd|[[g0 Hg0] _]]; [now apply Hargs|].
    exfalso. destruct Hkey as [Hk|Hk]; destruct (Hnames _ Hk) as [s Hs];
      simpl in Hs; congruence.
Qed.

Lemma element_again ctx e :
  element_ok nts ctx e → element_ok (as_raw (new ++ items)) ctx e.
Proof using All.
  assert (Hstr : ∀ s, (∀ ps, declared_params nts (NameStr s) ps → ps = []) →
                      ∀ ps, declared_params (as_raw (new ++ items)) (NameStr s) ps →
                            ps = []).
  { intros s Hs ps Hd. apply declared_again in Hd as [Hd|[_ ->]]; auto. }
  destruct e as [s|inner|nt|rule| |code|repr]; simpl; auto.
  - apply Hstr.
  - destruct inner as [s|inner'|nt|rule| |code|repr]; simpl; auto.
    + apply Hstr.
    + apply nt_use_again.
  - apply nt_use_again.
Qed.

Lemma goal_use_again s :
  GStr s ∈ gs → nt_use_ok (as_raw (new ++ items)) [] (mkNt (NameStr s) []).
Proof using All.
  intros Hg. apply nt_use_again.
  pose proof (wf_goals _ _ _ Hwf _ Hg) as Hd. cbn [goal_ok] in Hd.
  split; [now apply declared_nil_key|]. split.
  - intros ps Hps. simpl. symmetry. eapply (wf_params _ _ _ Hwf); eauto.
  - intros param v Hin. inversion Hin.
Qed.

Lemma first_key_is_nt_keys (l : list (Key * RawDef)) :
  first_key_is_nt l = match dict_keys l with k :: _ => is_KNt k | [] => false end.
Proof. now destruct l as [|[k v] l]. Qed.

Lemma first_key_again :
  first_key_is_nt (as_raw (new ++ items)) = first_key_is_nt nts.
Proof using All.
  rewrite !first_key_is_nt_keys, dict_keys_as_raw, dict_keys_app, keys_new.
  pose proof (wf_nonempty _ _ _ Hwf) as Hne.
  destruct nts as [|[k v] l]; [congruence|reflexivity].
Qed.

Lemma goal_listed_again s :
  GStr s ∈ gs → GNt (mkNt (NameStr s) []) ∈ map GNt (map goal_nt gs).
Proof.
  intros Hg. apply (list_elem_of_fmap_2 GNt).
  now apply (list_elem_of_fmap_2 goal_nt) in Hg.
Qed.

Lemma well_formed_again :
  well_formed (as_raw (new ++ items)) (map GNt (map goal_nt gs)) vts.
Proof using All.
  split.
  - pose proof (wf_nonempty _ _ _ Hwf) as Hne.
    assert (dict_keys (as_raw (new ++ items)) ≠ []); [|now intros E; rewrite E in *].
    rewrite dict_keys_as_raw, dict_keys_app, keys_new.
    destruct nts; [congruence|discriminate].
  - rewrite dict_keys_as_raw, dict_keys_app. apply NoDup_app.
    split; [rewrite keys_new; apply (wf_distinct _ _ _ Hwf)|].
    split; [|exact Hitems_nd].
    intros k Hk Hi. apply Hitems_keys in Hi as [Hn _]. contradiction.
  - intros key Hk. rewrite first_key_again.
    rewrite dict_keys_as_raw, dict_keys_app, keys_new in Hk.
    apply elem_of_app in Hk as [Hk|Hk]; [now apply (wf_key_types _ _ _ Hwf)|].
    apply Hitems_keys in Hk as (_ & goal & _ & ->).
    unfold init_key. now destruct (first_key_is_nt nts).
  - intros name ps1 ps2 H1 H2.
    apply declared_again in H1 as [H1|[[g1 Hg1] ->]];
      apply declared_again in H2 as [H2|[[g2 Hg2] ->]]; try reflexivity.
    + eapply (wf_params _ _ _ Hwf); eauto.
    + exfalso. destruct H1 as (key & value & Hin & Hn & _).
      apply (list_elem_of_fmap_2 fst) in Hin.
      destruct (Hnames _ Hin) as [s Hs]. cbn [fst] in Hs. congruence.
    + exfalso. destruct H2 as (key & value & Hin & Hn & _).
      apply (list_elem_of_fmap_2 fst) in Hin.
      destruct (Hnames _ Hin) as [s Hs]. cbn [fst] in Hs. congruence.
  - intros key v Hin. apply elem_of_as_raw in Hin as (d & -> & Hin).
    apply elem_of_app in Hin as [Hin|Hin].
    + destruct (new_entry _ _ Hin) as (value & ts1 & ts2 & Hv & _).
      pose proof (wf_keys _ _ _ Hwf _ _ Hv) as Hko.
      apply (list_elem_of_fmap_2 fst) in Hv. destruct (Hnames _ Hv) as [s Hs].
      cbn [fst] in Hs. destruct key as [n|nt]; simpl in *.
      * subst n. split; [tauto|exact I].
      * rewrite Hs in *. exact Hko.
    + destruct (item_entry _ _ Hin) as (s & Hg & -> & -> & _).
      pose proof (goal_use_again _ Hg) as Huse.
      pose proof (goal_listed_again _ Hg) as Hl.
      unfold init_key. destruct (first_key_is_nt nts); simpl.
      * split; [auto|]. intros param a Ha. inversion Ha.
      * split; [auto|]. eexists [], _. split; [reflexivity|left].
  - intros key v rhs Hin Hrhs. apply elem_of_as_raw in Hin as (d & -> & Hin).
    cbn [as_raw_def raw_rhs_list raw_params] in *.
    apply list_elem_of_fmap in Hrhs as (p & -> & Hp).
    apply elem_of_app in Hin as [Hin|Hin].
    + destruct (new_entry _ _ Hin) as (value & ts1 & ts2 & Hv & Hok).
      pose proof Hok as Hok'.
      apply (validate_nt_out_ok nts gs vts ntp s2n ntp_spec s2n_spec) in Hok as [_ Hel].
      apply (validate_nt_out nts gs vts ntp s2n ntp_spec s2n_spec) in Hok'
        as (_ & _ & Hcl).
      rewrite Forall_forall in Hel, Hcl.
      destruct (Hcl p Hp) as (_ & Ha & Hc).
      split; [|split; [exact Hc|exact Ha]]. cbn [rhs_body].
      eapply Forall_impl; [exact (Hel p Hp)|]. intros e. apply element_again.
    + destruct (item_entry _ _ Hin) as (s & Hg & _ & -> & _).
      apply list_elem_of_singleton in Hp as ->. cbn [rhs_body body params accept_def].
      split; [|split; [discriminate|now left]].
      constructor; [|constructor]. simpl. now apply goal_use_again.
  - intros goal2 Hg2. rewrite first_key_again.
    apply list_elem_of_fmap in Hg2 as (gn & -> & Hgn).
    apply list_elem_of_fmap in Hgn as (goal & -> & Hg).
    destruct (Hgoals goal Hg) as [s ->]. cbn [goal_nt goal_ok nt_name].
    pose proof (wf_goals _ _ _ Hwf _ Hg) as (key & value & Hin & Hn & Hps).
    pose proof Hin as Hk. apply (list_elem_of_fmap_2 fst) in Hk. cbn [fst] in Hk.
    pose proof (wf_key_types _ _ _ Hwf _ Hk) as Ht. rewrite <- Ht.
    destruct key as [n|[n args]]; simpl in *.
    + subst n. now apply keys_again.
    + subst n. apply map_eq_nil in Hps. subst args. now apply keys_again.
Qed.

End Again.

Lemma accept_items_no_strings (items : list (Key * NtDef)) :
  (∀ k d, (k, d) ∈ items → ∃ goal, d = accept_def goal) →
  dict_strings items = ∅.
Proof.
  induction items as [|[k d] items IH]; intros H; [reflexivity|].
  change (dict_strings ((k, d) :: items)) with (def_strings d ∪ dict_strings items).
  rewrite IH by (intros k' d' Hin; apply (H k' d'); now right).
  destruct (H k d ltac:(left)) as [goal ->].
  unfold def_strings, body_strings. simpl. set_solver.
Qed.

Lemma revalidated_entries nts2 gs2 vt kan ntp2 s2n2 T L : ∀ new2,
  (∀ name ps, dict_get ntp2 name = Some ps ↔ declared_params nts2 name ps) →
  (∀ k d, (k, d) ∈ L →
          Forall (λ p, Forall (closed_element (dict_keys nts2) T) (body p)) (rhs_list d)) →
  Forall2 (λ item entry,
             fst entry = fst item
             ∧ ∃ ts1 ts2, validate_nt nts2 gs2 vt kan ntp2 s2n2 item ts1
                          = Ok (fst item, snd entry, ts2))
          (as_raw L) new2 →
  new2 = L.
Proof.
  induction L as [|[k d] L IH]; intros new2 Hp Hc H.
  - now apply Forall2_nil_inv_l in H.
  - cbn [as_raw map fst snd] in H.
    apply Forall2_cons_inv_l in H as ([k' d'] & new' & [Hk (ts1 & ts2 & Hv)] & Hrest & ->).
    cbn [fst snd] in *. subst k'. f_equal.
    + f_equal. eapply (validate_nt_closed_id nts2 gs2 vt kan ntp2 s2n2 T Hp); [|exact Hv].
      apply (Hc k d). left.
    + apply IH; [exact Hp| |exact Hrest]. intros k0 d0 Hin. apply (Hc k0 d0). now right.
Qed.

Section Idempotence.
Context {NtTypes Methods : Type}.
Variable infer_types :
  gset string → gset string → list (Key * NtDef) → Result (NtTypes * Methods).

(** The constructor run on the validated dictionary of [g], with the goals
    and the variable terminals of [g]: every definition passes unchanged and
    no init nonterminal is added. *)
Lemma revalidation nts goal_nts vt type_info g :
  NoDup (dict_keys nts) →
  (∀ k, k ∈ dict_keys nts → ∃ s, key_name k = NameStr s) →
  (∀ goal, goal ∈ effective_goals nts goal_nts → ∃ s, goal = GStr s) →
  Grammar_init infer_types nts goal_nts vt type_info = Ok g →
  ∀ type_info',
    Grammar_init infer_types (as_raw (nonterminals g))
                 (Some (map GNt (map goal_nt (effective_goals nts goal_nts))))
                 (elements (variable_terminals g)) type_info'
    = (info ← match type_info' with
              | None => infer_types (variable_terminals g) (terminals g) (nonterminals g)
              | Some info => Ok info
              end;
       Ok (mkGrammar (variable_terminals g) (terminals g) (nonterminals g)
                     (fst info) (snd info) (init_nts g))).
Proof.
  intros Hnd Hnames Hgoals Hg.
  set (gs := effective_goals nts goal_nts) in *.
  pose proof (Grammar_init_Ok_well_formed _ _ _ _ _ _ Hnd Hg) as Hwf.
  pose proof (Grammar_init_closed _ _ _ _ _ _ Hg) as [_ Hclosed].
  destruct (constructed_shape _ _ _ _ _ _ Hnd Hg)
    as (ntp & s2n & new & items & Hp & Hs & Hnew & HG & Hind & Hik & Hid & Hinit & Hts
        & Hvt & _).
  fold gs in Hnew, Hik, Hid, Hinit.
  pose proof (well_formed_again nts gs (list_to_set vt) ntp s2n new items
                Hwf Hnames Hgoals Hp Hs Hnew Hind Hik Hid) as Hwf2.
  pose proof (first_key_again nts gs (list_to_set vt) ntp s2n new items
                Hwf Hnames Hgoals Hp Hs Hnew Hind Hik Hid) as Hfk.
  rewrite HG, Hvt.
  set (nts2 := as_raw (new ++ items)) in *.
  set (gs2 := map GNt (map goal_nt gs)) in *.
  set (vt2 := elements (list_to_set vt : gset string)).
  assert (Hvt2 : list_to_set vt2 = (list_to_set vt : gset string))
    by apply list_to_set_elements_L.
  destruct (Grammar_init_well_formed infer_types nts2 (Some gs2) vt2
              (Some (nt_types g, methods g)))
    as (g' & extra & Hg' & _); [cbn [effective_goals]; now rewrite Hvt2|discriminate|].
  assert (Hnd2 : NoDup (dict_keys nts2)) by apply (wf_distinct _ _ _ Hwf2).
  destruct (constructed_shape _ _ _ _ _ _ Hnd2 Hg')
    as (ntp2 & s2n2 & new2 & items2 & Hp2 & _ & Hnew2 & HG2 & _ & Hik2 & _
        & Hinit2 & Hts2 & _ & Hretype).
  cbn [effective_goals] in Hnew2, Hik2, Hinit2.
  assert (Enew2 : new2 = (new ++ items)%list).
  { eapply (revalidated_entries nts2 _ _ _ ntp2 s2n2 (terminals g)); [exact Hp2| |exact Hnew2].
    intros k d Hin. apply Forall_forall. intros p Hpd.
    unfold nts2. rewrite dict_keys_as_raw, <- HG.
    apply (Hclosed k d p); [now rewrite HG|exact Hpd]. }
  assert (Eitems2 : items2 = []).
  { destruct items2 as [|[k d] items2]; [reflexivity|]. exfalso.
    destruct (proj1 (Hik2 k) ltac:(left)) as (Hn & goal2 & Hin2 & ->).
    apply Hn. rewrite Enew2, dict_keys_app. subst nts2. rewrite Hfk.
    apply list_elem_of_fmap in Hin2 as (gn & -> & Hgn).
    apply list_elem_of_fmap in Hgn as (goal & -> & Hgoal). cbn [goal_nt].
    destruct (decide (init_key (first_key_is_nt nts) (goal_nt goal) ∈ dict_keys new))
      as [Hk|Hk]; apply elem_of_app; [now left|right].
    apply Hik. eauto. }
  subst new2 items2. rewrite app_nil_r in HG2.
  assert (Hinit' : init_nts g' = init_nts g).
  { rewrite Hinit2, Hinit. unfold gs2. now rewrite !map_map. }
  assert (Hts' : terminals g' = terminals g).
  { rewrite Hts2, Hts, Hvt2, dict_strings_app.
    rewrite (accept_items_no_strings items); [set_solver|].
    intros k d Hin. destruct (Hid k d Hin) as (goal & _ & _ & ->). eauto. }
  intros type_info'. rewrite (Hretype type_info').
  now rewrite Hvt2, Hts', HG2, Hinit'.
Qed.

(** X19.  Validation is idempotent on what it returns.  For a grammar [g]
    built from a dictionary (distinct keys) whose keys are named by strings
    and whose goals are given by name (or default to the first key),
    [g.with_nonterminals(g.nonterminals)] returns a grammar equal to [g]:
    the validated definitions pass validation again unchanged, no init
    nonterminal is added, and terminals, goals and type information are
    the same. *)
Theorem with_nonterminals_own nts goal_nts vt type_info g :
  NoDup (dict_keys nts) →
  (∀ k, k ∈ dict_keys nts → ∃ s, key_name k = NameStr s) →
  (∀ goal, goal ∈ effective_goals nts goal_nts → ∃ s, goal = GStr s) →
  Grammar_init infer_types nts goal_nts vt type_info = Ok g →
  with_nonterminals infer_types g (as_raw (nonterminals g)) = Ok g.
Proof.
  intros Hnd Hnames Hgoals Hg. unfold with_nonterminals.
  rewrite (Grammar_init_goals_resolved _ _ _ _ _ _ Hg). cbn [mbind Result_bind].
  rewrite (revalidation _ _ _ _ _ Hnd Hnames Hgoals Hg). cbn [mbind Result_bind fst snd].
  now destruct g.
Qed.

(** X20.  Under the same conditions [g.clone()] validates nothing anew
    either: it runs type inference on the terminals and the definitions of
    [g], the init nonterminals included, and returns [g] with the inferred
    types in place of its own, or the exception inference raised. *)
Theorem clone_reinfers nts goal_nts vt type_info g :
  NoDup (dict_keys nts) →
  (∀ k, k ∈ dict_keys nts → ∃ s, key_name k = NameStr s) →
  (∀ goal, goal ∈ effective_goals nts goal_nts → ∃ s, goal = GStr s) →
  Grammar_init infer_types nts goal_nts vt type_info = Ok g →
  clone infer_types g
  = (info ← infer_types (variable_terminals g) (terminals g) (nonterminals g);
     Ok (mkGrammar (variable_terminals g) (terminals g) (nonterminals g)
                   (fst info) (snd info) (init_nts g))).
Proof.
  intros Hnd Hnames Hgoals Hg. unfold clone.
  rewrite (Grammar_init_goals_resolved _ _ _ _ _ _ Hg). cbn [mbind Result_bind].
  now rewrite (revalidation _ _ _ _ _ Hnd Hnames Hgoals Hg).
Qed.

End Idempotence.

Lemma with_nonterminals_own_witness :
  let nts := [(KName (NameStr "a"),
               RawList [RList [EStr "a"; EOptional (EStr "x")]; RList []])] in
  ∃ g, Grammar_init (λ _ _ _, Ok (tt, tt)) nts None ["y"] None = Ok g
       ∧ with_nonterminals (λ _ _ _, Ok (tt, tt)) g (as_raw (nonterminals g)) = Ok g.
Proof.
  intros nts. eexists. split; [reflexivity|].
  apply (with_nonterminals_own (λ _ _ _, Ok (tt, tt)) nts None ["y"] None).
  - apply NoDup_singleton.
  - intros k Hk. apply list_elem_of_singleton in Hk as ->. now exists "a".
  - intros goal Hgoal. apply list_elem_of_singleton in Hgoal as ->. now exists "a".
  - reflexivity.
Defined.

Lemma clone_reinfers_witness :
  let nts := [(KName (NameStr "a"),
               RawList [RList [EStr "a"; EOptional (EStr "x")]; RList []])] in
  let infer : gset string → gset string → list (Key * NtDef) → Result (nat * nat) :=
    λ _ ts dict, Ok (size ts, length dict) in
  ∃ g, Grammar_init infer nts None ["y"] None = Ok g
       ∧ clone infer g
         = Ok (mkGrammar (variable_terminals g) (terminals g) (nonterminals g)
                         (size (terminals g)) (length (nonterminals g)) (init_nts g)).
Proof.
  intros nts infer. eexists. split; [reflexivity|].
  apply (clone_reinfers infer nts None ["y"] None).
  - apply NoDup_singleton.
  - intros k Hk. apply list_elem_of_singleton in Hk as ->. now exists "a".
  - intros goal Hgoal. apply list_elem_of_singleton in Hgoal as ->. now exists "a".
  - reflexivity.
Defined.

End RevalidationFacts.

(** ** [Nt.pretty] names an [Nt] uniquely *)

Module PrettyFacts.
Import grammar Py.

Lemma split_at_unique (c : ascii) a : ∀ a' r r',
  c ∉ a → c ∉ a' → (a ++ c :: r = a' ++ c :: r')%list → a = a' ∧ r = r'.
Proof.
  induction a as [|x a IH]; intros [|y a'] r r' Ha Ha' H; simpl in H.
  - injection H as <-. auto.
  - injection H as <- _. exfalso. apply Ha'. left.
  - injection H as -> _. exfalso. apply Ha. left.
  - injection H as -> H. apply IH in H as [-> ->]; auto.
    + intros Hin. apply Ha. now right.
    + intros Hin. apply Ha'. now right.
Qed.

Lemma chars_inj (s t : string) : chars s = chars t → s = t.
Proof. intros H. now rewrite <- (PyFacts.str_chars s), <- (PyFacts.str_chars t), H. Qed.

Lemma ident_char_class s c :
  isidentifier s = true → c ∈ chars s →
  is_alpha c || is_digit c || is_underscore c = true.
Proof.
  unfold isidentifier. destruct (chars s) as [|c0 rest]; [discriminate|].
  rewrite andb_true_iff. intros [H0 Hrest] Hin.
  apply elem_of_cons in Hin as [->|Hin].
  - apply orb_true_iff in H0 as [->| ->]; [reflexivity|apply orb_true_r].
  - rewrite forallb_forall in Hrest. apply Hrest. now apply list_elem_of_In.
Qed.

Lemma ident_no_special s c :
  isidentifier s = true →
  is_alpha c || is_digit c || is_underscore c = false → c ∉ chars s.
Proof. intros Hs Hc Hin. rewrite (ident_char_class _ _ Hs Hin) in Hc. discriminate. Qed.

Lemma ident_head_not c rest :
  is_alpha c || is_underscore c = false → isidentifier (String c rest) = false.
Proof. intros H. unfold isidentifier. simpl. now rewrite H. Qed.

Lemma append_char c s : String c "" +:+ s = String c s.
Proof. reflexivity. Qed.

Lemma arg_to_str_inj a b :
  plain_arg a → plain_arg b → arg_to_str a = arg_to_str b → a = b.
Proof.
  assert (Hhead : ∀ c q w p, isidentifier q = true →
            is_alpha c || is_underscore c = false →
            String c p = q +:+ "=" +:+ w → False).
  { intros c q w p Hq Hc H. destruct q as [|c0 q']; [discriminate|].
    simpl in H. injection H as <- _. rewrite (ident_head_not _ _ Hc) in Hq. discriminate. }
  destruct a as [p [[|]|v]], b as [q [[|]|w]]; unfold plain_arg; cbn [fst snd arg_to_str];
    intros [Hp Hv] [Hq Hw] H;
    repeat match goal with
           | H : context [String.eqb ?x ?y] |- _ => destruct (String.eqb_spec x y)
           end;
    subst; rewrite ?append_char in H; try discriminate;
    try (injection H as ->; reflexivity);
    try (exfalso; eapply Hhead; [| |exact H]; [eassumption|reflexivity]);
    try (exfalso; symmetry in H; eapply Hhead; [| |exact H]; [eassumption|reflexivity]).
  apply (f_equal chars) in H. rewrite !PyFacts.chars_append in H.
  change (chars "=") with ["="%char] in H. cbn [app] in H.
  apply split_at_unique in H as [Hpq Hvw];
    [|now apply ident_no_special|now apply ident_no_special].
  apply chars_inj in Hpq, Hvw. now subst.
Qed.

Lemma arg_no_comma a : plain_arg a → ","%char ∉ chars (arg_to_str a).
Proof.
  destruct a as [p [[|]|v]]; unfold plain_arg; cbn [fst snd arg_to_str]; intros [Hp Hv].
  - change (chars ("+" +:+ p)) with ("+"%char :: chars p).
    rewrite not_elem_of_cons. split; [discriminate|now apply ident_no_special].
  - change (chars ("~" +:+ p)) with ("~"%char :: chars p).
    rewrite not_elem_of_cons. split; [discriminate|now apply ident_no_special].
  - destruct (String.eqb v p).
    + change (chars ("?" +:+ v)) with ("?"%char :: chars v).
      rewrite not_elem_of_cons. split; [discriminate|now apply ident_no_special].
    + rewrite !PyFacts.chars_append. change (chars "=") with ["="%char].
      rewrite !not_elem_of_app, not_elem_of_cons.
      split; [now apply ident_no_special|]. split; [split; [discriminate|]|].
      * intros Hin. inversion Hin.
      * now apply ident_no_special.
Qed.

Lemma join_sep_cons2 x y l :
  chars (join_sep ", " (x :: y :: l))
  = (chars x ++ ","%char :: " "%char :: chars (join_sep ", " (y :: l)))%list.
Proof.
  change (join_sep ", " (x :: y :: l)) with (x +:+ ", " +:+ join_sep ", " (y :: l)).
  now rewrite !PyFacts.chars_append.
Qed.

Lemma join_sep_inj xs : ∀ ys,
  Forall (λ x, ","%char ∉ chars x) xs → Forall (λ y, ","%char ∉ chars y) ys →
  xs ≠ [] → ys ≠ [] →
  join_sep ", " xs = join_sep ", " ys → xs = ys.
Proof.
  induction xs as [|x xs IH]; intros ys Hxs Hys Hnx Hny H; [congruence|].
  destruct ys as [|y ys]; [congruence|].
  apply Forall_cons in Hxs as [Hx Hxs]. apply Forall_cons in Hys as [Hy Hys].
  apply (f_equal chars) in H.
  destruct xs as [|x2 xs], ys as [|y2 ys].
  - cbn [join_sep] in H. apply chars_inj in H. now subst.
  - rewrite join_sep_cons2 in H. exfalso. apply Hx. cbn [join_sep] in H. rewrite H.
    apply elem_of_app. right. left.
  - rewrite join_sep_cons2 in H. exfalso. apply Hy. cbn [join_sep] in H. rewrite <- H.
    apply elem_of_app. right. left.
  - rewrite !join_sep_cons2 in H.
    apply split_at_unique in H as [Hxy Hrest]; [|exact Hx|exact Hy].
    apply chars_inj in Hxy. subst y. f_equal.
    injection Hrest as Hrest. apply chars_inj in Hrest.
    apply IH; auto; discriminate.
Qed.

Lemma map_arg_to_str_inj args : ∀ args',
  Forall plain_arg args → Forall plain_arg args' →
  map arg_to_str args = map arg_to_str args' → args = args'.
Proof.
  induction args as [|a args IH]; intros [|b args'] Ha Hb H; try discriminate;
    [reflexivity|].
  apply Forall_cons in Ha as [Ha Has]. apply Forall_cons in Hb as [Hb Hbs].
  injection H as Hab H. f_equal; [now apply arg_to_str_inj|now apply IH].
Qed.

Lemma pretty_args_chars name a args :
  ∃ text,
    Nt_pretty (mkNt (NameStr name) (a :: args)) = Some text
    ∧ chars text
      = (chars name ++ "["%char
           :: chars (join_sep ", " (map arg_to_str (a :: args))) ++ ["]"%char])%list.
Proof.
  eexists. split; [reflexivity|]. now rewrite !PyFacts.chars_append.
Qed.

(** X21.  [Nt.pretty] is injective on the nonterminals written with
    identifiers (name, parameter names, variable names): two of them with
    the same text are the same [Nt], so the text can serve as a key. *)
Theorem Nt_pretty_injective a b :
  plain_nt a → plain_nt b → Nt_pretty a = Nt_pretty b → a = b.
Proof.
  destruct a as [[n|g] args], b as [[m|g'] args']; unfold plain_nt;
    cbn [nt_name nt_args]; intros [Hn Ha] [Hm Hb] H; try contradiction.
  assert (Hbr : ∀ s, isidentifier s = true → "["%char ∉ chars s)
    by (intros s Hs; now apply ident_no_special).
  destruct args as [|a args], args' as [|b args'].
  - simpl in H. congruence.
  - destruct (pretty_args_chars m b args') as (text & Ht & Hc). rewrite Ht in H.
    injection H as ->. exfalso. apply (Hbr _ Hn). rewrite Hc.
    apply elem_of_app. right. left.
  - destruct (pretty_args_chars n a args) as (text & Ht & Hc). rewrite Ht in H.
    injection H as <-. exfalso. apply (Hbr _ Hm). rewrite Hc.
    apply elem_of_app. right. left.
  - destruct (pretty_args_chars n a args) as (t1 & Ht1 & Hc1).
    destruct (pretty_args_chars m b args') as (t2 & Ht2 & Hc2).
    rewrite Ht1, Ht2 in H. injection H as ->. rewrite Hc1 in Hc2.
    apply split_at_unique in Hc2 as [Hnm Hrest]; auto.
    apply chars_inj in Hnm. subst m.
    apply app_inj_tail in Hrest as [Hj _]. apply chars_inj in Hj.
    apply join_sep_inj in Hj; try discriminate.
    + f_equal. now apply map_arg_to_str_inj.
    + apply Forall_forall. intros x Hx. apply list_elem_of_fmap in Hx as (y & -> & Hy).
      apply arg_no_comma. rewrite Forall_forall in Ha. now apply Ha.
    + apply Forall_forall. intros x Hx. apply list_elem_of_fmap in Hx as (y & -> & Hy).
      apply arg_no_comma. rewrite Forall_forall in Hb. now apply Hb.
Qed.

Lemma Nt_pretty_injective_witness :
  let a := mkNt (NameStr "Expr") [("In", ArgBool true); ("Yield", ArgVar "Yield")] in
  Nt_pretty a = Some "Expr[+In, ?Yield]" ∧ plain_nt a ∧ a = a.
Proof.
  intros a.
  assert (Hplain : plain_nt a) by (split; [reflexivity|repeat constructor]).
  split; [reflexivity|]. split; [exact Hplain|].
  apply (Nt_pretty_injective a a Hplain Hplain). reflexivity.
Defined.

End PrettyFacts.

(** ** The [TerminalId] enum: names are not checked for collisions *)

Module TerminalIdFacts.
Import grammar emit Py EmitFacts.

Section Backend.
Variable unicodedata_name : ascii → Result string.
Variable repr_str : string → string.

Lemma terminal_variants_written ts : ∀ names k out,
  Forall2 (λ t name, terminal_name unicodedata_name t = Ok name) ts names →
  for_each (λ '(i, t),
      name ← lift (terminal_name unicodedata_name t);
      write 1 (name +:+ " = " +:+ str_of_nat i +:+ ", // " +:+ repr_terminal repr_str t))
    (zip (seq k (length ts)) ts) out
  = ((out ++ map (λ '(i, (name, t)),
                    line 1 (name +:+ " = " +:+ str_of_nat i +:+ ", // "
                            +:+ repr_terminal repr_str t))
                 (zip (seq k (length ts)) (zip names ts)))%list, Ok tt).
Proof.
  induction ts as [|t ts IH]; intros names k out H.
  - apply Forall2_nil_inv_l in H as ->. simpl. now rewrite app_nil_r.
  - apply Forall2_cons_inv_l in H as (name & names' & Hname & Hall & ->).
    cbn [length seq zip zip_with for_each map].
    unfold mbind at 1, Emit_bind at 1.
    unfold mbind at 1, Emit_bind at 1, lift at 1. rewrite Hname.
    unfold write at 1, out_write at 1.
    rewrite (IH _ (S k) _ Hall). now rewrite <- app_assoc.
Qed.

(** X22.  The variants of [TerminalId] are the results of [terminal_name]
    on the terminals, in order, and no step checks them for collisions: when
    every terminal has a name, [terminal_id] writes the enum without
    raising, and if both the end of input and the keyword [end] are
    terminals, two of its variants have the same name [End]. *)
Theorem terminal_id_variants_may_collide vt sts names :
  let self := RustParserWriter_init vt sts in
  mapM (terminal_name unicodedata_name) (terminals self) = Ok names →
  (∀ out,
     terminal_id unicodedata_name repr_str self out
     = ((out
         ++ [line 0 "#[derive(Copy, Clone, Debug, PartialEq)]";
             line 0 "pub enum TerminalId {"]
         ++ map (λ '(i, (name, t)),
                   line 1 (name +:+ " = " +:+ str_of_nat i +:+ ", // "
                           +:+ repr_terminal repr_str t))
                (enumerate (zip names (terminals self)))
         ++ [line 0 "}"; line 0 ""])%list, Ok tt))
  ∧ (TEnd ∈ terminals self → TStr "end" ∈ terminals self → ¬ NoDup names).
Proof.
  intros self Hnames. apply mapM_Ok_Forall2 in Hnames. split.
  - intros out. unfold terminal_id, enumerate.
    unfold mbind at 1, Emit_bind at 1. unfold write at 1, out_write at 1.
    unfold mbind at 1, Emit_bind at 1. unfold write at 1, out_write at 1.
    unfold mbind at 1, Emit_bind at 1.
    rewrite (terminal_variants_written _ _ _ _ Hnames).
    unfold mbind at 1, Emit_bind at 1. unfold write at 1, out_write at 1.
    unfold write, out_write, line. rewrite <- !app_assoc.
    rewrite length_zip_with, (Forall2_length _ _ _ Hnames), Nat.min_id.
    reflexivity.
  - intros Hend Hkw Hnd.
    apply list_elem_of_lookup in Hend as [i Hi]. apply list_elem_of_lookup in Hkw as [j Hj].
    destruct (Forall2_lookup_l _ _ _ _ _ Hnames Hi) as (ni & Hni & Ei).
    destruct (Forall2_lookup_l _ _ _ _ _ Hnames Hj) as (nj & Hnj & Ej).
    cbn in Ei, Ej. injection Ei as <-. injection Ej as <-.
    assert (i = j) by (eapply NoDup_lookup; eauto). subst j.
    rewrite Hi in Hj. discriminate.
Qed.

End Backend.

Lemma terminal_id_variants_may_collide_witness :
  let sts := [mkState [(TStr "end", 1%Z); (TEnd, 2%Z)] [] ""] in
  ∃ names,
    mapM (terminal_name (λ _, Raise (ValueError "no such name")))
         (terminals (RustParserWriter_init ∅ sts)) = Ok names
    ∧ ¬ NoDup names.
Proof.
  intros sts. exists ["End"; "End"]. split; [reflexivity|].
  refine (proj2 (terminal_id_variants_may_collide
                   (λ _, Raise (ValueError "no such name")) (λ s, s) ∅ sts
                   ["End"; "End"] eq_refl) _ _).
  - right. left.
  - left.
Defined.

End TerminalIdFacts.

(** ** The synthesized reducers pass the reduce-action check *)

Module SynthesizedFacts.
Import grammar parse_esgrammar Py.

Lemma forallb_removelast {A} (f : A → bool) l :
  forallb f l = true → forallb f (removelast l) = true.
Proof.
  induction l as [|x [|y l] IH]; simpl in *; auto.
  rewrite !andb_true_iff. intros (Hx & Hy & Hl). split; [exact Hx|].
  apply IH. now rewrite Hy, Hl.
Qed.

Lemma last_Some_removelast {A} (l : list A) x :
  last l = Some x → l = (removelast l ++ [x])%list.
Proof.
  induction l as [|y [|z l] IH]; simpl; intros H; [discriminate|congruence|].
  f_equal. now apply IH.
Qed.

Lemma concrete_len_app b1 b2 :
  concrete_len (b1 ++ b2) = (concrete_len b1 + concrete_len b2)%nat.
Proof. unfold concrete_len. now rewrite filter_app, length_app. Qed.

Lemma concrete_len_fallback b code :
  last b = Some (EStr ";") →
  concrete_len (removelast b ++ [ErrorSymbol code]) = concrete_len b.
Proof.
  intros H. rewrite (last_Some_removelast _ _ H) at 2.
  rewrite !concrete_len_app. reflexivity.
Qed.

Lemma valid_default_method_name lhs i sole :
  isidentifier (fst lhs) = true →
  valid_method_name (default_method_name lhs i sole) = true.
Proof.
  intros Hid. unfold valid_method_name, default_method_name.
  destruct sole; [now rewrite Hid|].
  rewrite (PyFacts.partition_space_at_space _ _ Hid).
  rewrite Hid, PyFacts.isdigit_str_of_nat. apply orb_true_r.
Qed.

Lemma default_reducer_ok lhs i b sole r :
  isidentifier (fst lhs) = true →
  default_reducer lhs i b sole = Ok r →
  action_ok b r = true
  ∧ (length b = 1%nat
     ∨ r = CallMethod (default_method_name lhs i sole) (range_args (concrete_len b))).
Proof.
  intros Hid H.
  assert (Hcall : action_ok b (CallMethod (default_method_name lhs i sole)
                                          (range_args (concrete_len b))) = true).
  { cbn [action_ok]. rewrite (valid_default_method_name _ _ _ Hid).
    now rewrite GrammarFacts.range_args_ok. }
  unfold default_reducer in H. fold (default_method_name lhs i sole) in H.
  destruct b as [|e [|e' b']]; try (injection H as <-; auto; fail).
  destruct (concrete_len [e] =? 1)%nat eqn:En; [|injection H as <-; auto].
  apply bind_Ok_inv in H as (matched & _ & H).
  destruct matched; injection H as <-; [|auto].
  apply Nat.eqb_eq in En. split; [|now left]. cbn [action_ok]. now rewrite En.
Qed.

Lemma nt_def_step_checked lhs sole i rhs ps :
  isidentifier (fst lhs) = true →
  was_autogenerated rhs = true →
  nt_def_step lhs sole i rhs = Ok ps →
  Forall (λ p, action_ok (body p) (reducer p) = true) ps.
Proof.
  intros Hid Hauto H. unfold nt_def_step in H. rewrite Hauto in H.
  apply bind_Ok_inv in H as (p & Hp & H).
  destruct rhs as [[b r] c]. unfold was_autogenerated in Hauto. cbn [fst snd] in Hauto.
  destruct r; try discriminate Hauto.
  unfold to_production in Hp. apply bind_Ok_inv in Hp as (r & Hr & [= <-]).
  apply (default_reducer_ok _ _ _ _ _ Hid) in Hr as [Hok Hshape].
  destruct (needs_asi lhs (mkProduction b r c)) eqn:En.
  - apply DesugarerFacts.needs_asi_true in En as (Hlen & Hlast & _). cbn [body] in *.
    destruct Hshape as [Hone| ->]; [lia|].
    unfold apply_asi in H. cbn [reducer body condition] in H. injection H as <-.
    cbn [action_ok] in Hok. apply andb_true_iff in Hok as [Hname Hargs].
    assert (Htrim : action_ok b (CallMethod (default_method_name lhs i sole)
                                   (removelast (range_args (concrete_len b)))) = true).
    { cbn [action_ok]. rewrite Hname. now apply forallb_removelast. }
    constructor; [exact Htrim|]. constructor; [|constructor]. cbn [body reducer].
    rewrite <- Htrim. apply ClosedFacts.action_ok_concrete_len.
    now apply concrete_len_fallback.
  - injection H as <-. constructor; [exact Hok|constructor].
Qed.

Lemma nt_def_loop_checked lhs sole rhs_list : ∀ i prods,
  isidentifier (fst lhs) = true →
  Forall (λ rhs, was_autogenerated rhs = true) rhs_list →
  nt_def_loop lhs sole i rhs_list = Ok prods →
  Forall (λ p, action_ok (body p) (reducer p) = true) prods.
Proof.
  induction rhs_list as [|rhs rest IH]; simpl; intros i prods Hid Hauto H.
  - injection H as <-. constructor.
  - apply Forall_cons in Hauto as [Hrhs Hrest].
    apply bind_Ok_inv in H as (ps & Hps & H).
    apply bind_Ok_inv in H as (qs & Hqs & [= <-]).
    apply Forall_app. split; [eapply nt_def_step_checked; eauto|eauto].
Qed.

(** X23.  The reducers that [nt_def] synthesizes are valid reduce
    expressions.  For a left-hand side whose name is an identifier and
    right-hand sides written without a reducer, every production of the
    definition [nt_def] returns, the ASI alternatives included, has a reducer
    that meets the conditions of [check_reduce_action] for its own body:
    indices in range and a valid method name. *)
Theorem synthesized_reducers_checked nt_type lhs eq rhs_list name marker d :
  isidentifier (fst lhs) = true →
  Forall (λ rhs, was_autogenerated rhs = true) rhs_list →
  nt_def nt_type lhs eq rhs_list = Ok (name, marker, d) →
  Forall (λ p, check_reduce_action (body p) (reducer p) = Ok tt)
         (parse_esgrammar.rhs_list d).
Proof.
  intros Hid Hauto H. unfold nt_def in H.
  apply bind_Ok_inv in H as (prods & Hloop & H).
  destruct lhs as [n args]. injection H as _ _ <-. cbn [parse_esgrammar.rhs_list].
  eapply Forall_impl; [eapply nt_def_loop_checked; eauto|].
  intros p. apply GrammarFacts.check_reduce_action_ok.
Qed.

Lemma synthesized_reducers_checked_witness :
  let lhs : Lhs := ("Stmt", []) in
  let rhs_list : list Fragment :=
    [([EStr "x"; EStr ";"], ANone, None); ([EStr "if"; EStr "y"], ANone, None)] in
  ∃ d, nt_def None lhs ":" rhs_list = Ok ("Stmt", ":", d)
       ∧ length (parse_esgrammar.rhs_list d) = 3%nat
       ∧ Forall (λ p, check_reduce_action (body p) (reducer p) = Ok tt)
                (parse_esgrammar.rhs_list d).
Proof.
  intros lhs rhs_list. eexists. split; [reflexivity|]. split; [reflexivity|].
  apply (synthesized_reducers_checked None lhs ":" rhs_list "Stmt" ":").
  - reflexivity.
  - repeat constructor.
  - reflexivity.
Defined.

End SynthesizedFacts.
